(** * CURdashboard

    A shallow embedding of the Go programs of the repository that carry
    its logic:

    - [costcli] (package main): the Athena query driver [sendQuery], the tag
      resolver [findExact] / [findRegex] / [findTagMatch], the aggregator
      [processResults], the RI allocator [processRIUsage], the report
      printer [printResults] and the column list that [main] builds;
    - [curconvert]: [NewCurConvert] and the setters, the manifest column
      loop of [ParseCur], and the conversion of a report file by
      [DownloadCur], [ParquetCur], [UploadCur] and [CleanCur];
    - [analyzeCUR] (package main): its own [sendQuery], [createAthenaTable]
      and [sendMetric].

    Go maps are [gmap]s, slices are lists, [(value, error)] results are a sum
    type.  What the programs take from the Go standard library and from the
    AWS SDK (float64 arithmetic, strconv, math.Round, fmt, regexp, unicode,
    the Athena client) is an interface here, with reference instances used
    to run the definitions on concrete inputs. *)

From Stdlib Require Import ZArith QArith Qround Qabs Qcanon String Ascii List Floats Lia.
From stdpp Require Import gmap strings list fin_maps sorting pretty.

Set Default Proof Using "Type".

(** ** What the programs use of Go *)

Module Go.

Definition error := string.

(** A Go result [(v, err)] on which the caller only tests [err == nil]. *)
Inductive result (A : Type) : Type :=
| Ok (a : A)
| Error (err : error).
Arguments Ok {A} a.
Arguments Error {A} err.

(** [m[k]] on a map: the zero value [z] when [k] is absent. *)
Definition index {V : Type} (z : V) (m : gmap string V) (k : string) : V :=
  default z (m !! k).

(** The float64 operations the code applies.  [f_cent] is the literal
    [0.01]; [f_gt x y] is [x > y]. *)
Class Float64 (F : Type) : Type := {
  f_zero : F;
  f_cent : F;
  f_add : F → F → F;
  f_mul : F → F → F;
  f_div : F → F → F;
  f_gt : F → F → bool
}.

(** [strconv.ParseFloat(s, 64)]: [None] when it reports an error. *)
Class ParseFloat (F : Type) : Type := strconv_ParseFloat : string → option F.
(** [strconv.FormatFloat(x, 'E', -1, 64)]. *)
Class FormatFloat (F : Type) : Type := strconv_FormatFloat : F → string.
(** [math.Round]. *)
Class MathRound (F : Type) : Type := math_Round : F → F.
(** The verb [%.2f] of package fmt. *)
Class Fmt (F : Type) : Type := fmt_2f : F → string.

(** Package regexp: [Compile] fails on a malformed pattern. *)
Class Regexp : Type := {
  Regex_t : Type;
  regexp_Compile : string → option Regex_t;
  MatchString : Regex_t → string → bool
}.

(** A rune is a Unicode code point. *)
Definition rune := Z.
Class Unicode : Type := unicode_ToLower : rune → rune.

(** The characters the sources write as escapes. *)
Definition quote : string := String "034"%char EmptyString.
Definition newline : string := String "010"%char EmptyString.

(** [strings.Join]. *)
Definition strings_Join (elems : list string) (sep : string) : string :=
  String.concat sep elems.

(** [sort.Strings]: increasing order of Go's string comparison, which is
    bytewise lexicographic. *)
Definition sort_Strings (keys : list string) : list string :=
  merge_sort String.le keys.

(** [fmt.Println(s)] on standard output. *)
Definition Println (s : string) : string := s +:+ newline.

(** The text of the error that [Compile] reports on a pattern it
    rejects. *)
Class CompileError : Type := regexp_Error : string → error.

(** [len(s)] in bytes, and the slice expression [s[lo:hi]] of a string,
    which panics ([None]) unless [0 <= lo <= hi <= len(s)]. *)
Definition len (s : string) : Z := Z.of_nat (String.length s).

Definition slice (s : string) (lo hi : Z) : option string :=
  if bool_decide (0 ≤ lo ∧ lo ≤ hi ∧ hi ≤ len s)%Z
  then Some (String.substring (Z.to_nat lo) (Z.to_nat (hi - lo)) s)
  else None.

(** [strings.Index] and [strings.LastIndex]: the index of the first and
    of the last instance of [substr] in [s], or -1. *)
Fixpoint strings_Index (s substr : string) {struct s} : Z :=
  if String.prefix substr s then 0%Z
  else match s with
       | EmptyString => (-1)%Z
       | String _ s' =>
           let i := strings_Index s' substr in
           if bool_decide (i < 0)%Z then (-1)%Z else (i + 1)%Z
       end.

Fixpoint strings_LastIndex (s substr : string) {struct s} : Z :=
  match s with
  | EmptyString => if String.prefix substr s then 0%Z else (-1)%Z
  | String _ s' =>
      let i := strings_LastIndex s' substr in
      if bool_decide (0 ≤ i)%Z then (i + 1)%Z
      else if String.prefix substr s then 0%Z else (-1)%Z
  end.

(** [strings.Replace(s, old, new, -1)]. *)
Class Replace : Type := strings_Replace : string → string → string → string.

End Go.

Export Go.

(** ** costcli *)

Module Costcli.

Record Map : Type := {
  Value : string;
  Match : list string;
  Regex : list string
}.

Record TagMap : Type := {
  Tags : list string;
  TagMap_Map : list Map;
  Name : string
}.

Record Config : Type := {
  Config_TagMap : list TagMap;
  Config_TagBlacklist : gmap string (list string);
  Config_Sql : gmap string string;
  Config_Tags : string;
  Database : string;
  Table : string;
  Account : string
}.

Record AthenaResponse : Type := {
  Rows : list (gmap string string)
}.

Record Results (F : Type) : Type := {
  tagCosts : gmap string F;
  total : F
}.
Arguments tagCosts {F} r.
Arguments total {F} r.

(** *** The tag resolver *)

Fixpoint findExact (value : string) (list : list string) : bool :=
  match list with
  | [] => false
  | v :: rest => if bool_decide (v = value) then true else findExact value rest
  end.

(** A pattern that does not compile is reported on standard output and
    skipped. *)
Fixpoint findRegex `{Regexp} (value : string) (list : list string) : bool :=
  match list with
  | [] => false
  | v :: rest =>
      match regexp_Compile v with
      | None => findRegex value rest
      | Some r => if MatchString r value then true else findRegex value rest
      end
  end.

(** The two [for _, object := range m] loops of [findTagMatch]. *)
Fixpoint exactPass (match_ : string) (m : list Map) : option string :=
  match m with
  | [] => None
  | object :: rest =>
      if findExact match_ (Match object) then Some (Value object)
      else exactPass match_ rest
  end.

Fixpoint regexPass `{Regexp} (match_ : string) (m : list Map) : option string :=
  match m with
  | [] => None
  | object :: rest =>
      if findRegex match_ (Regex object) then Some (Value object)
      else regexPass match_ rest
  end.

Definition NoMatch : error := "No Match".

Definition findTagMatch `{Regexp} (match_ : string) (m : list Map) (tag : string)
    (blacklist : gmap string (list string)) : result string :=
  match exactPass match_ m with
  | Some value => Ok value
  | None =>
      match regexPass match_ m with
      | Some value => Ok value
      | None =>
          let blacklisted :=
            match blacklist !! tag with
            | Some tagblacklist => findRegex match_ tagblacklist
            | None => false
            end in
          if blacklisted then Error NoMatch
          else if bool_decide (0 < String.length match_) then Ok match_
          else Error NoMatch
      end
  end.

(** *** The aggregator *)

(** The loop [for i := range tm.Tags] of [processResults]: the label of
    the first candidate column that resolves, [None] when the loop ends
    with [found] still false. *)
Fixpoint firstTag `{Regexp} (row : gmap string string) (m : list Map)
    (blacklist : gmap string (list string)) (tags : list string) : option string :=
  match tags with
  | [] => None
  | tag :: rest =>
      match findTagMatch (index "" row tag) m tag blacklist with
      | Ok match_ => Some match_
      | Error _ => firstTag row m blacklist rest
      end
  end.

(** What one iteration of [for _, tm := range c.TagMap] appends to
    [tags]: the match found, or ["Untagged"] under [if !found]. *)
Definition axisTag `{Regexp} (row : gmap string string)
    (blacklist : gmap string (list string)) (tm : TagMap) : string :=
  match firstTag row (TagMap_Map tm) blacklist (Tags tm) with
  | Some match_ => match_
  | None => "Untagged"
  end.

(** The slice [tags] once the loop over [c.TagMap] is done. *)
Definition rowTags `{Regexp} (row : gmap string string) (c : Config) : list string :=
  index "" row "service" :: map (axisTag row (Config_TagBlacklist c)) (Config_TagMap c).

(** One iteration of the loop over [resp.Rows]. *)
Definition processRow `{Float64 F, ParseFloat F, Regexp} (c : Config)
    (r : Results F) (row : gmap string string) : Results F :=
  match strconv_ParseFloat (index "" row "cost") with
  | None => r
  | Some f =>
      let key := strings_Join (rowTags row c) "," in
      {| tagCosts := <[key := f_add (index f_zero (tagCosts r) key) f]> (tagCosts r);
         total := f_add (total r) f |}
  end.

Definition processResults `{Float64 F, ParseFloat F, Regexp}
    (resp : AthenaResponse) (c : Config) : Results F :=
  fold_left (processRow c) (Rows resp) {| tagCosts := ∅; total := f_zero |}.

(** *** The RI allocator *)

Section RIUsage.
Context {F : Type} `{Float64 F, ParseFloat F}.

(** [riCostPerService[row["service"]] = f], for the rows whose cost
    parses. *)
Definition riCostStep (m : gmap string F) (row : gmap string string) : gmap string F :=
  match strconv_ParseFloat (index "" row "cost") with
  | None => m
  | Some f => <[index "" row "service" := f]> m
  end.

Definition riCostPerService (rows : list (gmap string string)) : gmap string F :=
  fold_left riCostStep rows ∅.

(** [riUsagePerService[row["service"]] += f], with [f] the row's
    normalized amount when that parses and is positive, else its amount
    under the same test. *)
Definition riUsageStep (m : gmap string F) (row : gmap string string) : gmap string F :=
  let service := index "" row "service" in
  let viaAmount :=
    match strconv_ParseFloat (index "" row "amount") with
    | Some f => if f_gt f f_zero
                then <[service := f_add (index f_zero m service) f]> m else m
    | None => m
    end in
  match strconv_ParseFloat (index "" row "normalized_amount") with
  | Some f => if f_gt f f_zero
              then <[service := f_add (index f_zero m service) f]> m else viaAmount
  | None => viaAmount
  end.

Definition riUsagePerService (rows : list (gmap string string)) : gmap string F :=
  fold_left riUsageStep rows ∅.

(** The local [cost] of the last loop, for the rows that reach one of
    its two assignments. *)
Definition riRowCost (usage cost : gmap string F) (row : gmap string string) : option F :=
  let service := index "" row "service" in
  let viaAmount :=
    match strconv_ParseFloat (index "" row "amount") with
    | Some f => if f_gt f f_zero
                then Some (f_mul (f_div f (index f_zero usage service))
                                 (index f_zero cost service))
                else None
    | None => None
    end in
  match strconv_ParseFloat (index "" row "normalized_amount") with
  | Some f => if f_gt f f_zero
              then Some (f_mul (f_div f (index f_zero usage service))
                               (index f_zero cost service))
              else viaAmount
  | None => viaAmount
  end.

(** [row["cost"] = strconv.FormatFloat(cost, 'E', -1, 64)]; every row is
    appended, with or without a new cost. *)
Definition riDecorate `{FormatFloat F} (usage cost : gmap string F)
    (row : gmap string string) : gmap string string :=
  match riRowCost usage cost row with
  | Some c => <["cost" := strconv_FormatFloat c]> row
  | None => row
  end.

(** [riCost] and [riUsage] are what the two calls of [sendQuery] return;
    the second query is only sent when the first succeeded. *)
Definition processRIUsage `{FormatFloat F} (riCost riUsage : result AthenaResponse)
    (tagCost : AthenaResponse) : AthenaResponse * option error :=
  match riCost with
  | Error err => (tagCost, Some err)
  | Ok riCost =>
      let cost := riCostPerService (Rows riCost) in
      match riUsage with
      | Error err => (tagCost, Some err)
      | Ok riUsage =>
          let usage := riUsagePerService (Rows riUsage) in
          ({| Rows := Rows tagCost ++ map (riDecorate usage cost) (Rows riUsage) |}, None)
      end
  end.
End RIUsage.

(** *** The report *)

Section Report.
Context {F : Type} `{Float64 F, MathRound F}.

(** [math.Round(x/0.01)*0.01]. *)
Definition round2 (x : F) : F := f_mul (math_Round (f_div x f_cent)) f_cent.

Definition tagNames (c : Config) : string :=
  fold_left (λ acc v, acc +:+ (quote +:+ Name v +:+ quote +:+ ",")) (Config_TagMap c) "".

(** The body rows that pass the test of the print loop, in the order of
    [keys]. *)
Definition bodyRows (r : Results F) (keys : list string) : list (string * F) :=
  omap (λ k, let amount := round2 (index f_zero (tagCosts r) k) in
             if f_gt amount f_cent then Some (k, amount) else None) keys.

(** [fmt.Printf("%s,%.2f\n", k, amount)]. *)
Definition bodyLine `{Fmt F} (row : string * F) : string :=
  row.1 +:+ "," +:+ fmt_2f row.2 +:+ newline.

(** Standard output of [printResults].  [visit] is the order in which
    [for k := range r.tagCosts] yields the keys, which Go leaves
    unspecified. *)
Definition printResults `{Fmt F} (visit : list string) (r : Results F) (c : Config) : string :=
  let keys := sort_Strings visit in
  Println (quote +:+ "service" +:+ quote +:+ "," +:+ tagNames c
           +:+ quote +:+ "amount" +:+ quote)
  +:+ String.concat "" (map bodyLine (bodyRows r keys))
  +:+ Println "---------------------"
  +:+ ("Total: " +:+ fmt_2f (round2 (total r))).

(** [visit] is an iteration order of the map [m]. *)
Definition range_of (m : gmap string F) (visit : list string) : Prop :=
  visit ≡ₚ (map_to_list m).*1.
End Report.

(** *** The query driver *)

(** The Athena client is scripted: what [StartQueryExecution] answers,
    the successive answers of [GetQueryExecution], and the pages that
    [GetQueryResultsPages] hands to its callback, followed by the error it
    returns, if any.  The SDK's [*string] fields are options; reading one
    that is nil panics. *)
Record QueryExecutionStatus : Type := {
  State : option string;
  StateChangeReason : option string
}.

Record Datum : Type := { VarCharValue : option string }.

(** [Row.Data] and [page.ResultSet.Rows]. *)
Definition Row : Type := list Datum.
Definition Page : Type := list Row.

Record Athena : Type := {
  StartQueryExecution : result (option string);
  GetQueryExecution : list (result QueryExecutionStatus);
  GetQueryResultsPages : list Page * option error
}.

Record StartQueryExecutionInput : Type := {
  QueryString : string;
  QueryExecutionContext_Database : string;
  OutputLocation : string
}.

(** What [sendQuery] does to the outside, in order.  [Sleep] carries a
    [time.Duration], in nanoseconds. *)
Inductive event : Type :=
| CallStartQueryExecution (s : StartQueryExecutionInput)
| CallGetQueryExecution (id : string)
| Sleep (d : Z)
| CallGetQueryResultsPages (id : string).

(** How a run ends: it returns, it panics, or the script of poll answers
    ran out with the query still [RUNNING] (the loop has no deadline). *)
Inductive outcome (A : Type) : Type :=
| Returns (a : A)
| Panics
| Polling.
Arguments Returns {A} a.
Arguments Panics {A}.
Arguments Polling {A}.

Definition io (A : Type) : Type := list event * outcome A.

Definition ret {A} (a : A) : io A := ([], Returns a).

Definition bind {A B} (m : io A) (k : A → io B) : io B :=
  match m with
  | (t, Returns a) => let '(t', o) := k a in (t ++ t', o)
  | (t, Panics) => (t, Panics)
  | (t, Polling) => (t, Polling)
  end.

Local Instance io_bind : MBind io := λ A B k m, bind m k.

Definition emit (e : event) : io unit := ([e], Returns tt).

(** [*p]. *)
Definition deref {A} (p : option A) : io A :=
  match p with
  | Some a => ret a
  | None => ([], Panics)
  end.

Definition Second : Z := 1000000000.
(** [time.Duration(2) * time.Second]. *)
Definition duration : Z := 2 * Second.

(** The [for] loop around [GetQueryExecution]: the status it breaks with,
    or the error it returns with. *)
Fixpoint pollLoop (id : string) (answers : list (result QueryExecutionStatus))
    : io (result QueryExecutionStatus) :=
  match answers with
  | [] => ([], Polling)
  | answer :: rest =>
      emit (CallGetQueryExecution id) ;;
      match answer with
      | Error err => ret (Error ("Error Querying Athena, GetQueryExecution: " +:+ err))
      | Ok qrop =>
          state ← deref (State qrop);
          if bool_decide (state ≠ "RUNNING") then ret (Ok qrop)
          else emit (Sleep duration) ;; pollLoop id rest
      end
  end.

(** The header row: [colNames = append(colNames, *Data[j].VarCharValue)]. *)
Fixpoint appendNames (colNames : list string) (data : list Datum) : io (list string) :=
  match data with
  | [] => ret colNames
  | d :: rest => name ← deref (VarCharValue d); appendNames (colNames ++ [name]) rest
  end.

(** The loop [for j := range Data] on a later row, from index [j] on:
    the map built and the flag [skip]. *)
Fixpoint decodeFrom (colNames : list string) (j : nat) (data : list Datum)
    (result : gmap string string) : gmap string string * bool :=
  match data with
  | [] => (result, false)
  | d :: rest =>
      if bool_decide (j < length colNames) then
        match VarCharValue d with
        | None => (result, true)
        | Some v => decodeFrom colNames (S j) rest (<[colNames !!! j := v]> result)
        end
      else decodeFrom colNames (S j) rest result
  end.

(** One iteration of [for row := range page.ResultSet.Rows], on the
    captured [colNames] and [results.Rows]. *)
Definition rowStep (st : list string * list (gmap string string)) (row : Row)
    : io (list string * list (gmap string string)) :=
  let '(colNames, rows) := st in
  if bool_decide (length colNames < 1) then
    colNames' ← appendNames colNames row; ret (colNames', rows)
  else
    let '(result, skip) := decodeFrom colNames 0 row ∅ in
    if bool_decide (0 < size result) && negb skip
    then ret (colNames, rows ++ [result])
    else ret (colNames, rows).

Fixpoint rowsLoop (st : list string * list (gmap string string)) (rows : list Row)
    : io (list string * list (gmap string string)) :=
  match rows with
  | [] => ret st
  | row :: rest => st' ← rowStep st row; rowsLoop st' rest
  end.

(** The callback, page after page. *)
Fixpoint pagesLoop (st : list string * list (gmap string string)) (pages : list Page)
    : io (list string * list (gmap string string)) :=
  match pages with
  | [] => ret st
  | page :: rest => st' ← rowsLoop st page; pagesLoop st' rest
  end.

Definition sendQuery (svc : Athena) (db sql account region s3ResultsLocation : string)
    : io (AthenaResponse * option error) :=
  let s := {| QueryString := sql;
              QueryExecutionContext_Database := db;
              OutputLocation :=
                if bool_decide (1 < String.length s3ResultsLocation)
                then s3ResultsLocation
                else "s3://aws-athena-query-results-" +:+ account +:+ "-" +:+ region +:+ "/" |} in
  emit (CallStartQueryExecution s) ;;
  match StartQueryExecution svc with
  | Error err =>
      ret ({| Rows := [] |}, Some ("Error Querying Athena, StartQueryExecution: " +:+ err))
  | Ok QueryExecutionId =>
      id ← deref QueryExecutionId;
      polled ← pollLoop id (GetQueryExecution svc);
      match polled with
      | Error err => ret ({| Rows := [] |}, Some err)
      | Ok qrop =>
          state ← deref (State qrop);
          if bool_decide (state ≠ "SUCCEEDED") then
            reason ← deref (StateChangeReason qrop);
            ret ({| Rows := [] |},
                 Some ("Error Querying Athena, query state is: " +:+ state
                       +:+ ", detailed error " +:+ reason))
          else
            emit (CallGetQueryResultsPages id) ;;
            st ← pagesLoop ([], []) (GetQueryResultsPages svc).1;
            match (GetQueryResultsPages svc).2 with
            | Some err =>
                ret ({| Rows := st.2 |},
                     Some ("Error Querying Athena, GetQueryResultsPages: " +:+ err))
            | None => ret ({| Rows := st.2 |}, None)
            end
      end
  end.


(** *** [main]: the column list of the queries

    Each candidate column of each axis is appended to what the
    configuration file left in [conf.Tags], in double quotes and followed
    by a comma; then [conf.Tags = conf.Tags[:len(conf.Tags)-1]], whose
    panic is [None]. *)
Definition appendTags (tags : string) (tagmap : list TagMap) : string :=
  fold_left (λ tags tm,
               fold_left (λ tags tag, tags +:+ (quote +:+ tag +:+ quote +:+ ",")) (Tags tm) tags)
            tagmap tags.

Definition confTags (conf : Config) : option string :=
  let tags := appendTags (Config_Tags conf) (Config_TagMap conf) in
  slice tags 0 (len tags - 1).

End Costcli.

(** ** curconvert *)

Module Curconvert.

Record CurConvert : Type := {
  sourceBucket : string;
  sourceObject : string;
  destBucket : string;
  destObject : string;
  destKMSKey : string;
  sourceArn : string;
  sourceExternalID : string;
  destArn : string;
  destExternalID : string;
  tempDir : string;
  concurrency : Z;
  fileConcurrency : Z;
  CurColumns : list string;
  CurFiles : list string;
  CurParqetFiles : gmap string bool;
  CurColumnTypes : gmap string string;
  skipCols : gmap Z bool
}.

(** [m[k] = v] for each pair, in order. *)
Definition assign_all {V : Type} (kvs : list (string * V)) (m : gmap string V) : gmap string V :=
  fold_left (λ m kv, <[kv.1 := kv.2]> m) kvs m.

Definition NewCurConvert (sBucket sObject dBucket dObject : string) : CurConvert :=
  {| sourceBucket := sBucket;
     sourceObject := sObject;
     destBucket := dBucket;
     destObject := dObject;
     destKMSKey := "";
     sourceArn := "";
     sourceExternalID := "";
     destArn := "";
     destExternalID := "";
     tempDir := "/tmp";
     concurrency := 10;
     fileConcurrency := 30;
     CurColumns := [];
     CurFiles := [];
     CurParqetFiles := ∅;
     CurColumnTypes :=
       assign_all
         [ ("lineitem/usageamount", "DOUBLE");
           ("lineitem/normalizationfactor", "DOUBLE");
           ("lineitem/normalizedusageamount", "DOUBLE");
           ("lineitem/unblendedrate", "DOUBLE");
           ("lineitem/unblendedcost", "DOUBLE");
           ("lineitem/blendedrate", "DOUBLE");
           ("lineitem/blendedcost", "DOUBLE");
           ("pricing/publicondemandcost", "DOUBLE");
           ("pricing/publicondemandrate", "DOUBLE");
           ("reservation/normalizedunitsperreservation", "DOUBLE");
           ("reservation/totalreservednormalizedunits", "DOUBLE");
           ("reservation/totalreservedunits", "DOUBLE");
           ("reservation/unitsperreservation", "DOUBLE") ] ∅;
     skipCols := ∅ |}.

Definition with_fileConcurrency (c : CurConvert) (n : Z) : CurConvert :=
  {| sourceBucket := sourceBucket c; sourceObject := sourceObject c;
     destBucket := destBucket c; destObject := destObject c;
     destKMSKey := destKMSKey c; sourceArn := sourceArn c;
     sourceExternalID := sourceExternalID c; destArn := destArn c;
     destExternalID := destExternalID c; tempDir := tempDir c;
     concurrency := concurrency c; fileConcurrency := n;
     CurColumns := CurColumns c; CurFiles := CurFiles c;
     CurParqetFiles := CurParqetFiles c; CurColumnTypes := CurColumnTypes c;
     skipCols := skipCols c |}.

(** The receiver after the call, and the error returned. *)
Definition SetFileConcurrency (c : CurConvert) (concurrency : Z) : CurConvert * option error :=
  if bool_decide (concurrency < 1 ∨ concurrency > 1000)%Z
  then (c, Some "File Concurrency must be between 1-1000")
  else (with_fileConcurrency c concurrency, None).

(** *** The column loop of [ParseCur]

    The manifest reaches the loop decoded from JSON, so its strings are
    valid UTF-8 and are taken here as their sequences of runes;
    [strings.ToLower] and [strings.Map] both work rune by rune. *)

Record column : Type := { category : list rune; name : list rune }.

Definition strings_ToLower `{Unicode} (s : list rune) : list rune :=
  map unicode_ToLower s.

(** The function literal [r] given to [strings.Map]. *)
Definition r (r : rune) : rune :=
  if bool_decide (97 ≤ r ∧ r ≤ 122)%Z then r
  else if bool_decide (48 ≤ r ∧ r ≤ 57)%Z then r
  else if bool_decide (r = 47)%Z then r
  else 95%Z.

(** [strings.Map]; no rune is dropped, as [mapping] is never negative
    here. *)
Definition strings_Map (mapping : rune → rune) (s : list rune) : list rune :=
  map mapping s.

(** The bytes of a string whose runes are all below 128. *)
Definition string_of_runes (s : list rune) : string :=
  string_of_list_ascii (map (λ c, ascii_of_N (Z.to_N c)) s).

(** [columnName] as it stands after [strings.Map]. *)
Definition columnName `{Unicode} (t : column) : string :=
  string_of_runes (strings_Map r (strings_ToLower (category t ++ [47%Z] ++ name t))).

Definition schemaLine (columnName colType : string) : string :=
  "name=" +:+ columnName +:+ ", type=" +:+ colType +:+ ", encoding=PLAIN_DICTIONARY".

(** The loop [for column := range cols], from the state before an
    iteration: [i], [seen], [c.skipCols] and [c.CurColumns]. *)
Fixpoint columnsLoop `{Unicode} (types : gmap string string) (cols : list column)
    (i : Z) (seen : gmap string bool) (skip : gmap Z bool) (columns : list string)
    : gmap Z bool * list string :=
  match cols with
  | [] => (skip, columns)
  | t :: rest =>
      let i := (i + 1)%Z in
      let columnName := columnName t in
      match seen !! columnName with
      | Some _ => columnsLoop types rest i seen (<[i := true]> skip) columns
      | None =>
          let colType := default "UTF8" (types !! columnName) in
          columnsLoop types rest i (<[columnName := true]> seen) skip
            (columns ++ [schemaLine columnName colType])
      end
  end.

(** [ParseCur] once the manifest is downloaded and decoded: [cols] is
    [j["columns"]] and [reportKeys] is [j["reportKeys"]]. *)
Definition ParseCur `{Unicode} (c : CurConvert) (cols : list column)
    (reportKeys : list string) : CurConvert :=
  let '(skip, columns) := columnsLoop (CurColumnTypes c) cols (-1) ∅ ∅ (CurColumns c) in
  {| sourceBucket := sourceBucket c; sourceObject := sourceObject c;
     destBucket := destBucket c; destObject := destObject c;
     destKMSKey := destKMSKey c; sourceArn := sourceArn c;
     sourceExternalID := sourceExternalID c; destArn := destArn c;
     destExternalID := destExternalID c; tempDir := tempDir c;
     concurrency := concurrency c; fileConcurrency := fileConcurrency c;
     CurColumns := columns; CurFiles := CurFiles c ++ reportKeys;
     CurParqetFiles := CurParqetFiles c; CurColumnTypes := CurColumnTypes c;
     skipCols := skip |}.


Record CurColumn : Type := {
  CurColumn_Name : string;
  CurColumn_Type : string
}.

(** *** The other setters

    Each returns the receiver after the call and the error returned. *)

Definition with_sourceRole (c : CurConvert) (arn externalID : string) : CurConvert :=
  {| sourceBucket := sourceBucket c; sourceObject := sourceObject c;
     destBucket := destBucket c; destObject := destObject c;
     destKMSKey := destKMSKey c; sourceArn := arn;
     sourceExternalID := externalID; destArn := destArn c;
     destExternalID := destExternalID c; tempDir := tempDir c;
     concurrency := concurrency c; fileConcurrency := fileConcurrency c;
     CurColumns := CurColumns c; CurFiles := CurFiles c;
     CurParqetFiles := CurParqetFiles c; CurColumnTypes := CurColumnTypes c;
     skipCols := skipCols c |}.

Definition with_destRole (c : CurConvert) (arn externalID : string) : CurConvert :=
  {| sourceBucket := sourceBucket c; sourceObject := sourceObject c;
     destBucket := destBucket c; destObject := destObject c;
     destKMSKey := destKMSKey c; sourceArn := sourceArn c;
     sourceExternalID := sourceExternalID c; destArn := arn;
     destExternalID := externalID; tempDir := tempDir c;
     concurrency := concurrency c; fileConcurrency := fileConcurrency c;
     CurColumns := CurColumns c; CurFiles := CurFiles c;
     CurParqetFiles := CurParqetFiles c; CurColumnTypes := CurColumnTypes c;
     skipCols := skipCols c |}.

Definition with_sourceObject (c : CurConvert) (manifest : string) : CurConvert :=
  {| sourceBucket := sourceBucket c; sourceObject := manifest;
     destBucket := destBucket c; destObject := destObject c;
     destKMSKey := destKMSKey c; sourceArn := sourceArn c;
     sourceExternalID := sourceExternalID c; destArn := destArn c;
     destExternalID := destExternalID c; tempDir := tempDir c;
     concurrency := concurrency c; fileConcurrency := fileConcurrency c;
     CurColumns := CurColumns c; CurFiles := CurFiles c;
     CurParqetFiles := CurParqetFiles c; CurColumnTypes := CurColumnTypes c;
     skipCols := skipCols c |}.

Definition with_destObject (c : CurConvert) (path : string) : CurConvert :=
  {| sourceBucket := sourceBucket c; sourceObject := sourceObject c;
     destBucket := destBucket c; destObject := path;
     destKMSKey := destKMSKey c; sourceArn := sourceArn c;
     sourceExternalID := sourceExternalID c; destArn := destArn c;
     destExternalID := destExternalID c; tempDir := tempDir c;
     concurrency := concurrency c; fileConcurrency := fileConcurrency c;
     CurColumns := CurColumns c; CurFiles := CurFiles c;
     CurParqetFiles := CurParqetFiles c; CurColumnTypes := CurColumnTypes c;
     skipCols := skipCols c |}.

Definition with_destKMSKey (c : CurConvert) (key : string) : CurConvert :=
  {| sourceBucket := sourceBucket c; sourceObject := sourceObject c;
     destBucket := destBucket c; destObject := destObject c;
     destKMSKey := key; sourceArn := sourceArn c;
     sourceExternalID := sourceExternalID c; destArn := destArn c;
     destExternalID := destExternalID c; tempDir := tempDir c;
     concurrency := concurrency c; fileConcurrency := fileConcurrency c;
     CurColumns := CurColumns c; CurFiles := CurFiles c;
     CurParqetFiles := CurParqetFiles c; CurColumnTypes := CurColumnTypes c;
     skipCols := skipCols c |}.

Definition with_tempDir (c : CurConvert) (path : string) : CurConvert :=
  {| sourceBucket := sourceBucket c; sourceObject := sourceObject c;
     destBucket := destBucket c; destObject := destObject c;
     destKMSKey := destKMSKey c; sourceArn := sourceArn c;
     sourceExternalID := sourceExternalID c; destArn := destArn c;
     destExternalID := destExternalID c; tempDir := path;
     concurrency := concurrency c; fileConcurrency := fileConcurrency c;
     CurColumns := CurColumns c; CurFiles := CurFiles c;
     CurParqetFiles := CurParqetFiles c; CurColumnTypes := CurColumnTypes c;
     skipCols := skipCols c |}.

Definition with_CurParqetFiles (c : CurConvert) (files : gmap string bool) : CurConvert :=
  {| sourceBucket := sourceBucket c; sourceObject := sourceObject c;
     destBucket := destBucket c; destObject := destObject c;
     destKMSKey := destKMSKey c; sourceArn := sourceArn c;
     sourceExternalID := sourceExternalID c; destArn := destArn c;
     destExternalID := destExternalID c; tempDir := tempDir c;
     concurrency := concurrency c; fileConcurrency := fileConcurrency c;
     CurColumns := CurColumns c; CurFiles := CurFiles c;
     CurParqetFiles := files; CurColumnTypes := CurColumnTypes c;
     skipCols := skipCols c |}.

Definition SetSourceRole (c : CurConvert) (arn externalID : string) : CurConvert * option error :=
  if bool_decide (len arn < 1)%Z then (c, Some "Must supply a Role ARN")
  else (with_sourceRole c arn externalID, None).

Definition SetDestRole (c : CurConvert) (arn externalID : string) : CurConvert * option error :=
  if bool_decide (len arn < 1)%Z then (c, Some "Must supply a Role ARN")
  else (with_destRole c arn externalID, None).

Definition SetSourceManifest (c : CurConvert) (manifest : string) : CurConvert * option error :=
  if bool_decide (len manifest < 1)%Z then (c, Some "Must supply a Manifest")
  else (with_sourceObject c manifest, None).

Definition SetDestPath (c : CurConvert) (path : string) : CurConvert * option error :=
  if bool_decide (len path < 1)%Z then (c, Some "Must supply a Path")
  else (with_destObject c path, None).

Definition SetDestKMSKey (c : CurConvert) (key : string) : CurConvert * option error :=
  if bool_decide (len key < 1)%Z then (c, Some "Must supply a Key ARN")
  else (with_destKMSKey c key, None).

Definition SetTmpLocation `{Regexp, !CompileError} (c : CurConvert) (path : string)
    : CurConvert * option error :=
  match regexp_Compile "^/[A-Z,a-z,0-9,_,-,/]+[^/]$" with
  | None =>
      (c, Some ("Failed to set TempLocation, regexp error: "
                +:+ regexp_Error "^/[A-Z,a-z,0-9,_,-,/]+[^/]$"))
  | Some r =>
      if bool_decide (len path < 1)%Z || negb (MatchString r path)
      then (c, Some "Must supply a valid path that starts with '/' and is not terminated with '/'")
      else (with_tempDir c path, None)
  end.

(** *** The conversion of one report file

    How a call ends: it returns, it panics, or it ends the process with
    [log.Fatal]. *)
Inductive ending (A : Type) : Type :=
| Return (a : A)
| Panic
| Fatal.
Arguments Return {A} a.
Arguments Panic {A}.
Arguments Fatal {A}.

(** [s[strings.LastIndex(s, "/")+1:]]. *)
Definition afterLastSlash (s : string) : option string :=
  slice s (strings_LastIndex s "/" + 1) (len s).

(** What [DownloadCur] meets: the results of [os.Create], of
    [initS3Downloader] and of the download. *)
Record Download : Type := {
  os_Create : string → option error;
  initS3Downloader : option error;
  s3dl_Download : option error
}.

Definition DownloadCur (c : CurConvert) (w : Download) (curObject : string)
    : ending (result string) :=
  match afterLastSlash curObject with
  | None => Panic
  | Some base =>
      let localFile := tempDir c +:+ "/" +:+ base in
      match os_Create w localFile with
      | Some err => Return (Error err)
      | None =>
          match initS3Downloader w with
          | Some err => Return (Error err)
          | None =>
              match s3dl_Download w with
              | Some err =>
                  Return (Error ("failed to download CUR object, bucket: " +:+ sourceBucket c
                                 +:+ ", object: " +:+ curObject +:+ ", error: " +:+ err))
              | None => Return (Ok localFile)
              end
          end
      end
  end.

(** The inner loop [for k := range rec] of [ParquetCur]: the fields whose
    position [c.skipCols] does not hold. *)
Fixpoint recParquet_from (skip : gmap Z bool) (k : Z) (rec : list string) : list string :=
  match rec with
  | [] => []
  | field :: rest =>
      match skip !! k with
      | Some _ => recParquet_from skip (k + 1) rest
      | None => field :: recParquet_from skip (k + 1) rest
      end
  end.

Definition recParquet (skip : gmap Z bool) (rec : list string) : list string :=
  recParquet_from skip 0 rec.

(** What [ParquetCur] meets: the results of opening the input, of
    [gzip.NewReader], of reading the header record, of creating the
    parquet file and its writer; then the records that [cr.Read] yields
    before it reports [io.EOF] ([None]) or another error. *)
Record Conversion : Type := {
  os_Open : string → option error;
  gzip_NewReader : option error;
  cr_header : option error;
  NewLocalFileWriter : string → option error;
  NewCSVWriter : option error;
  cr_records : list (list string);
  cr_last : option error
}.

(** The calls on the parquet writer [ph] and on its file [f]. *)
Inductive call : Type :=
| WriteString (rec : list string)
| Flush
| WriteStop
| Close.

(** The loop [for { ... }] from the top of an iteration with counter [i];
    it ends with the counter at the [break], or with the error of
    [cr.Read]. *)
Fixpoint readLoop (skip : gmap Z bool) (records : list (list string)) (last : option error)
    (i : Z) : list call * result Z :=
  let '(flush, i) := if bool_decide (Z.rem i 5000 = 0)%Z then ([Flush], 1%Z) else ([], i) in
  match records with
  | [] =>
      match last with
      | None => (flush, Ok i)
      | Some err => (flush, Error err)
      end
  | rec :: rest =>
      let '(calls, res) := readLoop skip rest last (i + 1) in
      (flush ++ WriteString (recParquet skip rec) :: calls, res)
  end.

Definition ParquetCur (c : CurConvert) (w : Conversion) (inputFile : string)
    : list call * ending (result string) :=
  match os_Open w inputFile with
  | Some err => ([], Return (Error err))
  | None =>
  match gzip_NewReader w with
  | Some _ => ([], Fatal)
  | None =>
  match cr_header w with
  | Some _ => ([], Fatal)
  | None =>
  match slice inputFile (strings_LastIndex inputFile "/" + 1) (strings_Index inputFile ".") with
  | None => ([], Panic)
  | Some stem =>
  let localParquetFile := tempDir c +:+ "/" +:+ stem +:+ ".parquet" in
  match NewLocalFileWriter w localParquetFile with
  | Some err =>
      ([], Return (Error ("failed to create parquet file " +:+ localParquetFile
                          +:+ ", error: " +:+ err)))
  | None =>
  match NewCSVWriter w with
  | Some err => ([], Return (Error err))
  | None =>
  let '(calls, res) := readLoop (skipCols c) (cr_records w) (cr_last w) 1 in
  match res with
  | Error err => (calls, Return (Error err))
  | Ok i =>
      (calls ++ (if bool_decide (i > 1)%Z then [Flush] else []) ++ [WriteStop; Close],
       Return (Ok localParquetFile))
  end
  end end end end end end.

(** What [UploadCur] meets: the results of [os.Open] and of the two ways
    to upload, given the destination key. *)
Record Upload : Type := {
  upload_os_Open : string → option error;
  uploadCUR : string → option error;
  uploadEncryptedCUR : string → option error
}.

Definition UploadCur (c : CurConvert) (w : Upload) (parquetFile : string)
    : ending (CurConvert * option error) :=
  match afterLastSlash parquetFile with
  | None => Panic
  | Some base =>
      let destObject := destObject c +:+ "/" +:+ base in
      match upload_os_Open w parquetFile with
      | Some err => Return (c, Some err)
      | None =>
          match (if bool_decide (len (destKMSKey c) > 0)%Z
                 then uploadEncryptedCUR w destObject else uploadCUR w destObject) with
          | Some err => Return (c, Some err)
          | None =>
              Return (with_CurParqetFiles c (<[destObject := true]> (CurParqetFiles c)), None)
          end
      end
  end.

(** What [CleanCur] meets: the result of [initS3Uploader], the keys of
    the objects that [ListObjectsV2] returns, each behind a pointer, and
    the result of the batch delete. *)
Record Cleaning : Type := {
  initS3Uploader : option error;
  ListObjectsV2 : result (list (option string));
  batcher_Delete : list string → option error
}.

Inductive s3call : Type :=
| CallListObjectsV2 (bucket prefix : string) (maxKeys : Z)
| CallDelete (bucket : string) (keys : list string).

(** The loop that builds [deleteObjects]; [None] is the panic of
    [*result.Contents[object].Key] on a nil pointer. *)
Fixpoint deleteObjects (files : gmap string bool) (contents : list (option string))
    (acc : list string) : option (list string) :=
  match contents with
  | [] => Some acc
  | None :: _ => None
  | Some key :: rest =>
      match files !! key with
      | Some _ => deleteObjects files rest acc
      | None => deleteObjects files rest (acc ++ [key])
      end
  end.

Definition CleanCur (c : CurConvert) (w : Cleaning) : list s3call * ending (option error) :=
  match initS3Uploader w with
  | Some err => ([], Return (Some err))
  | None =>
      let listing := CallListObjectsV2 (destBucket c) (destObject c +:+ "/") 500 in
      match ListObjectsV2 w with
      | Error err =>
          ([listing], Return (Some ("Error listing oject list when cleaning CUR: " +:+ err)))
      | Ok contents =>
          match deleteObjects (CurParqetFiles c) contents [] with
          | None => ([listing], Panic)
          | Some keys =>
              ([listing; CallDelete (destBucket c) keys],
               Return (match batcher_Delete w keys with
                       | Some err =>
                           Some ("Error deleting objects when cleaning CUR: " +:+ err)
                       | None => None
                       end))
          end
      end
  end.

End Curconvert.

(** ** analyzeCUR

    The program that converts the report and makes the Athena table has a
    [sendQuery] of its own, on the same Athena client. *)

Module Analyzecur.
Import Costcli Curconvert.

Local Instance io_bind : MBind io := λ A B k m, bind m k.

(** [for sub, value := range params]; [range] is the order in which Go
    yields the entries of the map, which it leaves unspecified. *)
Definition substituteParams `{Replace} (range : gmap string string → list (string * string))
    (sql : string) (params : gmap string string) : string :=
  fold_left (λ sql entry, strings_Replace sql entry.1 entry.2) (range params) sql.

(** [s[j]] on a slice, which panics out of range. *)
Definition at_index {A} (s : list A) (j : nat) : io A :=
  match s !! j with
  | Some a => ret a
  | None => ([], Panics)
  end.

(** The loop [for i := range Data] on a later row:
    [result[colNames[i]] = *Data[i].VarCharValue]. *)
Fixpoint fillFrom (colNames : list string) (j : nat) (data : list Datum)
    (result : gmap string string) : io (gmap string string) :=
  match data with
  | [] => ret result
  | d :: rest =>
      label ← at_index colNames j;
      v ← deref (VarCharValue d);
      fillFrom colNames (S j) rest (<[label := v]> result)
  end.

(** The loop [for row := range page.ResultSet.Rows] of the callback, from
    the row counter [i] on; [i] and [colNames] are the callback's own. *)
Fixpoint pageRows (i : nat) (colNames : list string) (rows : list Row)
    (results : list (gmap string string)) : io (list (gmap string string)) :=
  match rows with
  | [] => ret results
  | row :: rest =>
      if bool_decide (i < 1) then
        colNames' ← appendNames colNames row;
        pageRows (S i) colNames' rest results
      else
        result ← fillFrom colNames 0 row ∅;
        pageRows (S i) colNames rest (results ++ [result])
  end.

(** The callback, page after page, on the captured [results.Rows]. *)
Fixpoint pagesLoop (pages : list Page) (results : list (gmap string string))
    : io (list (gmap string string)) :=
  match pages with
  | [] => ret results
  | page :: rest => results' ← pageRows 0 [] page results; pagesLoop rest results'
  end.

Definition sendQuery (svc : Athena) (db sql account region : string)
    : io (AthenaResponse * option error) :=
  let s := {| QueryString := sql;
              QueryExecutionContext_Database := db;
              OutputLocation :=
                "s3://aws-athena-query-results-" +:+ account +:+ "-" +:+ region +:+ "/" |} in
  emit (CallStartQueryExecution s) ;;
  match StartQueryExecution svc with
  | Error err =>
      ret ({| Rows := [] |}, Some ("Error Querying Athena, StartQueryExecution: " +:+ err))
  | Ok QueryExecutionId =>
      id ← deref QueryExecutionId;
      polled ← pollLoop id (GetQueryExecution svc);
      match polled with
      | Error err => ret ({| Rows := [] |}, Some err)
      | Ok qrop =>
          state ← deref (State qrop);
          if bool_decide (state ≠ "SUCCEEDED") then
            ret ({| Rows := [] |},
                 Some ("Error Querying Athena, completion state is NOT SUCCEEDED, state is: "
                       +:+ state))
          else
            emit (CallGetQueryResultsPages id) ;;
            rows ← pagesLoop (GetQueryResultsPages svc).1 [];
            match (GetQueryResultsPages svc).2 with
            | Some err =>
                ret ({| Rows := rows |},
                     Some ("Error Querying Athena, GetQueryResultsPages: " +:+ err))
            | None => ret ({| Rows := rows |}, None)
            end
      end
  end.

(** The loop over [columns] of [createAthenaTable] and the slice
    expression [cols[:strings.LastIndex(cols, ",")]], whose panic is
    [None]. *)
Definition columnList (columns : list CurColumn) : option string :=
  let cols :=
    fold_left (λ cols col,
                 cols +:+ ("`" +:+ CurColumn_Name col +:+ "` " +:+ CurColumn_Type col
                           +:+ "," +:+ newline))
              columns "" in
  slice cols 0 (strings_LastIndex cols ",").

(** The error that [createAthenaTable] returns. *)
Definition createAthenaTable `{Replace} (range : gmap string string → list (string * string))
    (svcAthena : Athena) (dbName tablePrefix sql : string) (columns : list CurColumn)
    (s3Path date region account : string) : io (option error) :=
  cols ← deref (columnList columns);
  let sql := substituteParams range sql
               (<["**DBNAME**" := dbName]>
                  (<["**PREFIX**" := tablePrefix]>
                     (<["**DATE**" := date]>
                        (<["**COLUMNS**" := cols]> (<["**S3**" := s3Path]> ∅))))) in
  answer ← sendQuery svcAthena dbName sql region account;
  ret answer.2.

(** *** [sendMetric]

    What it takes from the Go library and from CloudWatch: [time.Parse]
    and [strconv.ParseFloat] as the values they return, the errors being
    ignored; [strings.Split] and [strings.Contains]; the answer of
    [PutMetricData] to the call number [n]. *)
Class Library (T F : Type) : Type := {
  time_Parse : string → string → T;
  ParseFloat_value : string → F;
  strings_Split : string → string → list string;
  strings_Contains : string → string → bool
}.

Record Dimension : Type := {
  Dimension_Name : string;
  Dimension_Value : string
}.

Record MetricDatum (T F : Type) : Type := {
  MetricName : string;
  Timestamp : T;
  Unit : string;
  MetricValue : F;
  Dimensions : list Dimension
}.
Arguments MetricName {T F} m.
Arguments Timestamp {T F} m.
Arguments Unit {T F} m.
Arguments MetricValue {T F} m.
Arguments Dimensions {T F} m.

Record PutMetricDataInput (T F : Type) : Type := {
  Namespace : string;
  MetricData : list (MetricDatum T F)
}.
Arguments Namespace {T F} p.
Arguments MetricData {T F} p.

Section Metrics.
Context {T F : Type} `{Library T F}.

(** The loop [for i := range d] over the parts of the dimension; [None]
    is the panic of [dTuple[0]] or [dTuple[1]] out of range. *)
Fixpoint dimensionsLoop (cwDimensionName : string) (d : list string) (dimensions : list Dimension)
    : option (list Dimension) :=
  match d with
  | [] => Some dimensions
  | part :: rest =>
      if strings_Contains part "=" then
        let dTuple := strings_Split part "=" in
        match dTuple !! 0, dTuple !! 1 with
        | Some dname, Some dvalue =>
            dimensionsLoop cwDimensionName rest
              (dimensions ++ [{| Dimension_Name := dname; Dimension_Value := dvalue |}])
        | _, _ => None
        end
      else
        dimensionsLoop cwDimensionName rest
          (dimensions ++ [{| Dimension_Name := cwDimensionName; Dimension_Value := part |}])
  end.

(** The [metric] of a row. *)
Definition metricOf (cwName cwType cwDimensionName interval : string)
    (row : gmap string string) : option (MetricDatum T F) :=
  let t := if bool_decide (interval = "hourly")
           then time_Parse "2006-01-02T15" (index "" row "date")
           else time_Parse "2006-01-02" (index "" row "date") in
  let v := ParseFloat_value (index "" row "value") in
  match dimensionsLoop cwDimensionName (strings_Split (index "" row "dimension") ",") [] with
  | None => None
  | Some dimensions =>
      Some {| MetricName := cwName; Timestamp := t; Unit := cwType; MetricValue := v;
              Dimensions := dimensions ++ [{| Dimension_Name := "interval";
                                              Dimension_Value := interval |}] |}
  end.

(** The loop [for row := range data.Rows], from [input.MetricData], [i]
    and the calls made so far: it ends with [input.MetricData], or with
    the error that [sendMetric] returns. *)
Fixpoint metricsLoop (PutMetricData : nat → option error)
    (cwNameSpace cwName cwType cwDimensionName interval : string)
    (rows : list (gmap string string)) (data : list (MetricDatum T F)) (i : Z)
    (calls : list (PutMetricDataInput T F))
    : list (PutMetricDataInput T F) * outcome (result (list (MetricDatum T F))) :=
  match rows with
  | [] => (calls, Returns (Ok data))
  | row :: rest =>
      if bool_decide (len (index "" row "dimension") < 1)%Z
         || bool_decide (len (index "" row "value") < 1)%Z
      then metricsLoop PutMetricData cwNameSpace cwName cwType cwDimensionName interval
             rest data i calls
      else
        let input := {| Namespace := cwNameSpace; MetricData := data |} in
        let sent := bool_decide (i >= 20)%Z in
        match (if sent then PutMetricData (length calls) else None) with
        | Some err =>
            (calls ++ [input], Returns (Error ("Could sending CW Metric: " +:+ err)))
        | None =>
            let calls := if sent then calls ++ [input] else calls in
            let data := if sent then [] else data in
            let i := if sent then 0%Z else i in
            match metricOf cwName cwType cwDimensionName interval row with
            | None => (calls, Panics)
            | Some metric =>
                metricsLoop PutMetricData cwNameSpace cwName cwType cwDimensionName interval
                  rest (data ++ [metric]) (i + 1) calls
            end
        end
  end.

Definition sendMetric (PutMetricData : nat → option error) (data : AthenaResponse)
    (cwNameSpace cwName cwType cwDimensionName interval : string)
    : list (PutMetricDataInput T F) * outcome (option error) :=
  match metricsLoop PutMetricData cwNameSpace cwName cwType cwDimensionName interval
          (Rows data) [] 0 [] with
  | (calls, Returns (Ok metrics)) =>
      if bool_decide (0 < length metrics) then
        let input := {| Namespace := cwNameSpace; MetricData := metrics |} in
        (calls ++ [input],
         Returns (match PutMetricData (length calls) with
                  | Some err => Some ("Could sending CW Metric: " +:+ err)
                  | None => None
                  end))
      else (calls, Returns None)
  | (calls, Returns (Error err)) => (calls, Returns (Some err))
  | (calls, Panics) => (calls, Panics)
  | (calls, Polling) => (calls, Polling)
  end.

End Metrics.

End Analyzecur.

(** ** Reference instances

    Two readings of the float64 interface: Rocq's binary64 floats, which are
    Go's float64, and the rationals, which are what the float operations
    approximate.  The library functions are given on the part of their
    domain the examples need and follow Go's documentation there. *)

Module Ref.

(** *** Plain decimal literals: sign, digits, at most one point

    The two reference parsers read these literals, of any length, as
    strconv does; the other literals that strconv accepts (with an
    exponent, hexadecimal, Inf, NaN) are not needed to run the examples
    and are refused here. *)

Definition digit (c : ascii) : option N :=
  let n := N_of_ascii c in
  if ((48 <=? n) && (n <=? 57))%N then Some (n - 48)%N else None.

(** The longest prefix of digits: its value on top of [acc], its length on
    top of [n], and what follows it. *)
Fixpoint digits (s : string) (acc : N) (n : nat) : N * nat * string :=
  match s with
  | String c s' =>
      match digit c with
      | Some d => digits s' (10 * acc + d)%N (S n)
      | None => (acc, n, s)
      end
  | EmptyString => (acc, n, s)
  end.

(** [Some (neg, m, k)] stands for [(-1)^neg * m / 10^k]. *)
Definition decimal (s : string) : option (bool * N * nat) :=
  let '(neg, s) :=
    match s with
    | String "-"%char s' => (true, s')
    | String "+"%char s' => (false, s')
    | _ => (false, s)
    end in
  let '(ip, n1, rest) := digits s 0%N 0%nat in
  match rest with
  | EmptyString => if bool_decide (n1 = 0%nat) then None else Some (neg, ip, 0%nat)
  | String "."%char rest' =>
      let '(m, n2, rest'') := digits rest' ip 0%nat in
      match rest'' with
      | EmptyString =>
          if bool_decide ((n1 + n2)%nat = 0%nat) then None else Some (neg, m, n2)
      | _ => None
      end
  | _ => None
  end.

(** Two decimals of a non-negative rational, rounded to nearest, ties to
    even, with the sign printed in front. *)
Definition cents (a : Q) : Z :=
  let x := Qmult a (inject_Z 100) in
  let f := Qfloor x in
  match Qcompare (Qminus x (inject_Z f)) (1 # 2) with
  | Lt => f
  | Gt => (f + 1)%Z
  | Eq => if Z.even f then f else (f + 1)%Z
  end.

Definition fixed2 (neg : bool) (a : Q) : string :=
  let c := cents a in
  let frac := (c mod 100)%Z in
  (if neg then "-" else "") +:+ pretty (c / 100)%Z +:+ "."
  +:+ pretty (frac / 10)%Z +:+ pretty (frac mod 10)%Z.

(** *** float64 *)

#[export] Instance float64 : Float64 float := {|
  f_zero := 0%float;
  f_cent := 0x1.47ae147ae147bp-7%float;
  f_add := PrimFloat.add;
  f_mul := PrimFloat.mul;
  f_div := PrimFloat.div;
  f_gt := λ x y, PrimFloat.ltb y x
|}.

(** The float64 nearest to [p / q], for [p] and [q] positive, ties going
    to the even mantissa; [None] beyond the largest finite float, where
    strconv reports a range error.  [e] is the binary exponent of [p / q],
    [m] its quotient by [2 ^ s] rounded to an integer of at most 53 bits. *)
Definition nearest_float (p q : Z) : option float :=
  let e0 := (Z.log2 p - Z.log2 q)%Z in
  let below := if (0 <=? e0)%Z then (p <? q * 2 ^ e0)%Z else (p * 2 ^ (- e0) <? q)%Z in
  let e := if below then (e0 - 1)%Z else e0 in
  let s := Z.max (e - 52) (-1074) in
  let num := if (0 <=? s)%Z then p else (p * 2 ^ (- s))%Z in
  let den := if (0 <=? s)%Z then (q * 2 ^ s)%Z else q in
  let m := (num / den)%Z in
  let m := match (2 * (num mod den) ?= den)%Z with
           | Lt => m
           | Gt => (m + 1)%Z
           | Eq => if Z.even m then m else (m + 1)%Z
           end in
  let v := Z.ldexp (PrimFloat.of_uint63 (Uint63.of_Z m)) s in
  if PrimFloat.is_infinity v then None else Some v.

(** A plain decimal literal of any length, correctly rounded. *)
#[export] Instance ParseFloat_float : ParseFloat float := λ s,
  match decimal s with
  | Some (neg, m, k) =>
      match (if bool_decide (m = 0%N) then Some 0%float
             else nearest_float (Z.of_N m) (10 ^ Z.of_nat k)) with
      | Some v => Some (if neg then PrimFloat.opp v else v)
      | None => None
      end
  | None => None
  end.

Definition two52 : float := 4503599627370496%float.

(** Nearest integer, halves away from zero; integers, infinities and NaN
    are returned as they are. *)
#[export] Instance Round_float : MathRound float := λ x,
  let a := PrimFloat.abs x in
  if PrimFloat.ltb a two52 then
    let y := PrimFloat.sub (PrimFloat.add a two52) two52 in
    let t := if PrimFloat.ltb a y then PrimFloat.sub y 1 else y in
    let n := if PrimFloat.leb 0.5 (PrimFloat.sub a t) then PrimFloat.add t 1 else t in
    if PrimFloat.get_sign x then PrimFloat.opp n else n
  else x.

#[export] Instance Fmt_float : Fmt float := λ x,
  match Prim2SF x with
  | S754_zero s => fixed2 s 0
  | S754_infinity s => if s then "-Inf" else "+Inf"
  | S754_nan => "NaN"
  | S754_finite s m e =>
      fixed2 s (match e with
                | Z.neg p => Z.pos m # 2 ^ p
                | _ => inject_Z (Z.pos m * 2 ^ e)
                end)
  end.

(** *** Exact arithmetic *)

#[export] Instance exact : Float64 Qc := {|
  f_zero := Q2Qc 0;
  f_cent := Q2Qc (1 # 100);
  f_add := Qcplus;
  f_mul := Qcmult;
  f_div := Qcdiv;
  f_gt := λ x y, bool_decide (Qclt y x)
|}.

#[export] Instance ParseFloat_exact : ParseFloat Qc := λ s,
  match decimal s with
  | Some (neg, m, k) =>
      let v := Q2Qc (Z.of_N m # Z.to_pos (10 ^ Z.of_nat k)) in
      Some (if neg then Qcopp v else v)
  | None => None
  end.

#[export] Instance Round_exact : MathRound Qc := λ x,
  if bool_decide (Qclt x (Q2Qc 0))
  then Q2Qc (inject_Z (- Qfloor (Qplus (Qopp x) (1 # 2))))
  else Q2Qc (inject_Z (Qfloor (Qplus x (1 # 2)))).

#[export] Instance Fmt_exact : Fmt Qc := λ x,
  fixed2 (bool_decide (Qclt x (Q2Qc 0))) (Qabs x).

(** *** regexp, on the patterns of the examples

    A pattern [^lit] matches the values that start with [lit], a pattern
    [lit.*] those that contain [lit], and a pattern without
    metacharacters those that contain it; every other pattern is refused,
    which [findRegex] treats as a pattern that matches nothing. *)

Inductive pattern : Type :=
| StartsWith (lit : string)
| Contains (lit : string).

Definition plain (c : ascii) : bool :=
  negb (bool_decide (c ∈ list_ascii_of_string "\.+*?()|[]{}^$")).

Definition all_plain (s : string) : bool := forallb plain (list_ascii_of_string s).

Fixpoint contains (lit s : string) : bool :=
  String.prefix lit s ||
  match s with
  | EmptyString => false
  | String _ s' => contains lit s'
  end.

Definition strip_dot_star (s : string) : string :=
  let n := String.length s in
  if bool_decide (String.substring (n - 2) 2 s = ".*") then String.substring 0 (n - 2) s else s.

#[export] Instance regexp : Regexp := {|
  Regex_t := pattern;
  regexp_Compile := λ p,
    match p with
    | String "^"%char lit => if all_plain lit then Some (StartsWith lit) else None
    | _ => let lit := strip_dot_star p in
           if all_plain lit then Some (Contains lit) else None
    end;
  MatchString := λ re s,
    match re with
    | StartsWith lit => String.prefix lit s
    | Contains lit => contains lit s
    end
|}.

(** *** unicode.ToLower on ASCII *)
#[export] Instance ascii_lower : Unicode := λ c,
  if bool_decide (65 ≤ c ∧ c ≤ 90)%Z then (c + 32)%Z else c.

Definition runes (s : string) : list rune :=
  map (λ c, Z.of_N (N_of_ascii c)) (list_ascii_of_string s).

End Ref.

Import Costcli Curconvert.

(** * Properties *)

(** ** The tag resolver *)

Section Resolver.
Context `{Regexp}.

(** [v] is in the match list of the rule. *)
Definition exact_rule (v : string) (object : Map) : Prop := v ∈ Match object.

(** One of the patterns of [list] compiles and matches [v]. *)
Definition some_regex (v : string) (list : list string) : Prop :=
  ∃ p re, p ∈ list ∧ regexp_Compile p = Some re ∧ MatchString re v = true.

Definition regex_rule (v : string) (object : Map) : Prop := some_regex v (Regex object).

(** [v] matches a blacklist pattern of the column [tag]. *)
Definition blacklisted (v tag : string) (blacklist : gmap string (list string)) : Prop :=
  ∃ tagblacklist, blacklist !! tag = Some tagblacklist ∧ some_regex v tagblacklist.

(** [x] is the first element of [l] with the property [P]. *)
Definition first_such {A : Type} (P : A → Prop) (l : list A) (x : A) : Prop :=
  ∃ pre post, l = pre ++ x :: post ∧ Forall (λ y, ¬ P y) pre ∧ P x.

Lemma findExact_spec value list : findExact value list = true ↔ value ∈ list.
Proof.
  induction list as [|v rest IH]; simpl.
  - split; [discriminate | intros Hin; inversion Hin].
  - case_bool_decide as Hv.
    + subst v. split; [intros _; left | reflexivity].
    + rewrite IH, elem_of_cons. split; [tauto | intros [->|]; [congruence | assumption]].
Qed.

Lemma findRegex_spec value list : findRegex value list = true ↔ some_regex value list.
Proof.
  unfold some_regex. induction list as [|v rest IH]; simpl.
  - split; [discriminate | intros (p & re & Hin & _); inversion Hin].
  - destruct (regexp_Compile v) as [re0|] eqn:Hc.
    + destruct (MatchString re0 value) eqn:Hm.
      * split; [intros _ | reflexivity]. exists v, re0. split; [left | auto].
      * rewrite IH. split.
        -- intros (p & re & Hin & Hp & Hre). exists p, re. split; [right; exact Hin | auto].
        -- intros (p & re & Hin & Hp & Hre). apply elem_of_cons in Hin as [->|Hin].
           ++ congruence.
           ++ exists p, re. auto.
    + rewrite IH. split.
      * intros (p & re & Hin & Hp & Hre). exists p, re. split; [right; exact Hin | auto].
      * intros (p & re & Hin & Hp & Hre). apply elem_of_cons in Hin as [->|Hin].
        -- congruence.
        -- exists p, re. auto.
Qed.

Lemma exactPass_first v m object :
  first_such (exact_rule v) m object → exactPass v m = Some (Value object).
Proof.
  intros (pre & post & -> & Hpre & Hx).
  induction Hpre as [|y pre Hy _ IH]; simpl.
  - apply findExact_spec in Hx. rewrite Hx. reflexivity.
  - destruct (findExact v (Match y)) eqn:Hf; [|exact IH].
    apply findExact_spec in Hf. contradiction.
Qed.

Lemma exactPass_none v m :
  Forall (λ object, ¬ exact_rule v object) m → exactPass v m = None.
Proof.
  induction 1 as [|y m Hy _ IH]; simpl; [reflexivity|].
  destruct (findExact v (Match y)) eqn:Hf; [|exact IH].
  apply findExact_spec in Hf. contradiction.
Qed.

Lemma regexPass_first v m object :
  first_such (regex_rule v) m object → regexPass v m = Some (Value object).
Proof.
  intros (pre & post & -> & Hpre & Hx).
  induction Hpre as [|y pre Hy _ IH]; simpl.
  - apply findRegex_spec in Hx. rewrite Hx. reflexivity.
  - destruct (findRegex v (Regex y)) eqn:Hf; [|exact IH].
    apply findRegex_spec in Hf. contradiction.
Qed.

Lemma regexPass_none v m :
  Forall (λ object, ¬ regex_rule v object) m → regexPass v m = None.
Proof.
  induction 1 as [|y m Hy _ IH]; simpl; [reflexivity|].
  destruct (findRegex v (Regex y)) eqn:Hf; [|exact IH].
  apply findRegex_spec in Hf. contradiction.
Qed.

Lemma blacklisted_spec v tag blacklist :
  match blacklist !! tag with
  | Some tagblacklist => findRegex v tagblacklist
  | None => false
  end = true ↔ blacklisted v tag blacklist.
Proof.
  unfold blacklisted. destruct (blacklist !! tag) as [l|].
  - rewrite findRegex_spec. split.
    + intros Hl. exists l. auto.
    + intros (l' & [= <-] & Hl). exact Hl.
  - split; [discriminate | intros (l' & [=] & _)].
Qed.

(** The only error of the resolver is NO_MATCH. *)
Lemma findTagMatch_error v m tag blacklist err :
  findTagMatch v m tag blacklist = Error err → err = NoMatch.
Proof.
  unfold findTagMatch.
  destruct (exactPass v m); [discriminate|].
  destruct (regexPass v m); [discriminate|].
  destruct (match blacklist !! tag with Some l => findRegex v l | None => false end);
    [congruence|].
  case_bool_decide; congruence.
Qed.

(** C1. The resolver returns the value of the first rule whose match list
    contains the cell; failing that, the value of the first rule one of
    whose patterns matches it, so an exact match in any rule wins over a
    regex match in any rule, and earlier rules win within a pass.  With no
    rule matching, a cell that matches a blacklist pattern of its column
    is NO_MATCH, empty or not; otherwise a non-empty cell is returned as
    it is and the empty cell is NO_MATCH. *)
Theorem findTagMatch_priority (v : string) (m : list Map) (tag : string)
    (blacklist : gmap string (list string)) :
  (∀ object, first_such (exact_rule v) m object →
     findTagMatch v m tag blacklist = Ok (Value object)) ∧
  (Forall (λ object, ¬ exact_rule v object) m →
     ∀ object, first_such (regex_rule v) m object →
       findTagMatch v m tag blacklist = Ok (Value object)) ∧
  (Forall (λ object, ¬ exact_rule v object) m →
   Forall (λ object, ¬ regex_rule v object) m →
     (blacklisted v tag blacklist → findTagMatch v m tag blacklist = Error NoMatch) ∧
     (¬ blacklisted v tag blacklist → v ≠ "" → findTagMatch v m tag blacklist = Ok v) ∧
     (v = "" → findTagMatch v m tag blacklist = Error NoMatch)).
Proof.
  unfold findTagMatch. split; [|split].
  - intros object Hfirst. rewrite (exactPass_first _ _ _ Hfirst). reflexivity.
  - intros Hno object Hfirst.
    rewrite (exactPass_none _ _ Hno), (regexPass_first _ _ _ Hfirst). reflexivity.
  - intros Hno Hnor. rewrite (exactPass_none _ _ Hno), (regexPass_none _ _ Hnor).
    pose proof (blacklisted_spec v tag blacklist) as Hb.
    destruct (match blacklist !! tag with Some l => findRegex v l | None => false end).
    + split; [reflexivity|]. split.
      * intros Hnb. exfalso. apply Hnb, Hb. reflexivity.
      * intros ->. reflexivity.
    + split; [|split].
      * intros Hbl. apply Hb in Hbl. discriminate.
      * intros _ Hne. rewrite bool_decide_eq_true_2; [reflexivity|].
        destruct v; [congruence | simpl; lia].
      * intros ->. reflexivity.
Qed.

End Resolver.

(** ** The aggregator *)

Section Aggregator.
Context `{Regexp}.

(** The cell of the column [tag] resolves to NO_MATCH. *)
Definition no_match (row : gmap string string) (m : list Map)
    (blacklist : gmap string (list string)) (tag : string) : Prop :=
  findTagMatch (index "" row tag) m tag blacklist = Error NoMatch.

Lemma firstTag_first row m blacklist tags pre tag post match_ :
  tags = pre ++ tag :: post →
  Forall (no_match row m blacklist) pre →
  findTagMatch (index "" row tag) m tag blacklist = Ok match_ →
  firstTag row m blacklist tags = Some match_.
Proof.
  intros -> Hpre Hok. induction Hpre as [|t pre Ht _ IH]; simpl.
  - rewrite Hok. reflexivity.
  - unfold no_match in Ht. rewrite Ht. exact IH.
Qed.

Lemma firstTag_none row m blacklist tags :
  Forall (no_match row m blacklist) tags → firstTag row m blacklist tags = None.
Proof.
  induction 1 as [|t tags Ht _ IH]; simpl; [reflexivity|].
  unfold no_match in Ht. rewrite Ht. exact IH.
Qed.

(** C8. For a row and a tag axis, the candidate columns are tried in the
    order of [Tags] and the first whose cell does not resolve to NO_MATCH
    gives the label; when all of them resolve to NO_MATCH the label is
    ["Untagged"].  The labels of the axes, in the order of the
    configuration and after the service, make up the composite key under
    which the cost of the row is added. *)
Theorem processResults_axis `{Float64 F, ParseFloat F}
    (row : gmap string string) (c : Config) :
  (∀ tm pre tag post match_,
     Tags tm = pre ++ tag :: post →
     Forall (no_match row (TagMap_Map tm) (Config_TagBlacklist c)) pre →
     findTagMatch (index "" row tag) (TagMap_Map tm) tag (Config_TagBlacklist c) = Ok match_ →
     axisTag row (Config_TagBlacklist c) tm = match_) ∧
  (∀ tm,
     Forall (no_match row (TagMap_Map tm) (Config_TagBlacklist c)) (Tags tm) →
     axisTag row (Config_TagBlacklist c) tm = "Untagged") ∧
  (∀ (r : Results F) f,
     strconv_ParseFloat (index "" row "cost") = Some f →
     let key := strings_Join
                  (index "" row "service"
                   :: map (axisTag row (Config_TagBlacklist c)) (Config_TagMap c)) "," in
     tagCosts (processRow c r row) !! key = Some (f_add (index f_zero (tagCosts r) key) f) ∧
     ∀ k, k ≠ key → tagCosts (processRow c r row) !! k = tagCosts r !! k).
Proof.
  split; [|split].
  - intros tm pre tag post match_ Htags Hpre Hok. unfold axisTag.
    rewrite (firstTag_first _ _ _ _ _ _ _ _ Htags Hpre Hok). reflexivity.
  - intros tm Hall. unfold axisTag. rewrite (firstTag_none _ _ _ _ Hall). reflexivity.
  - intros r f Hf key. unfold processRow. rewrite Hf. simpl. fold key. split.
    + apply lookup_insert_eq.
    + intros k Hk. apply lookup_insert_ne. intros Heq. apply Hk. symmetry. exact Heq.
Qed.

End Aggregator.

(** ** curconvert: the file concurrency *)

(** C9. A new converter processes 30 files at a time.  [SetFileConcurrency]
    accepts the values from 1 to 1000 and no other: inside the range it
    stores the value and returns no error, outside it returns an error and
    leaves the converter as it was. *)
Theorem SetFileConcurrency_range (c : CurConvert) (concurrency : Z) :
  (∀ sBucket sObject dBucket dObject,
     fileConcurrency (NewCurConvert sBucket sObject dBucket dObject) = 30%Z) ∧
  ((1 ≤ concurrency ≤ 1000)%Z →
     (SetFileConcurrency c concurrency).2 = None ∧
     fileConcurrency (SetFileConcurrency c concurrency).1 = concurrency) ∧
  (¬ (1 ≤ concurrency ≤ 1000)%Z →
     (∃ err, (SetFileConcurrency c concurrency).2 = Some err) ∧
     (SetFileConcurrency c concurrency).1 = c).
Proof.
  unfold SetFileConcurrency. split; [reflexivity|].
  case_bool_decide as Hout; simpl; split; intros Hin.
  - lia.
  - split; [eexists; reflexivity | reflexivity].
  - split; reflexivity.
  - lia.
Qed.

(** ** curconvert: the column loop as a fold *)

Section Manifest.
Context `{Unicode}.

(** The full state of the column loop after an iteration: [i], [seen],
    [c.skipCols], [c.CurColumns]. *)
Definition columnStep (types : gmap string string)
    (st : Z * gmap string bool * gmap Z bool * list string) (t : column)
    : Z * gmap string bool * gmap Z bool * list string :=
  let '(i, seen, skip, columns) := st in
  let i := (i + 1)%Z in
  match seen !! columnName t with
  | Some _ => (i, seen, <[i := true]> skip, columns)
  | None =>
      (i, <[columnName t := true]> seen, skip,
       columns ++ [schemaLine (columnName t) (default "UTF8" (types !! columnName t))])
  end.

Lemma columnsLoop_fold types cols i seen skip columns :
  columnsLoop types cols i seen skip columns =
  let st := fold_left (columnStep types) cols (i, seen, skip, columns) in (st.1.2, st.2).
Proof.
  revert i seen skip columns. induction cols as [|t rest IH]; intros; simpl; [reflexivity|].
  destruct (seen !! columnName t); apply IH.
Qed.

(** An earlier position carries the same canonical name. *)
Definition duplicate_at (names : list string) (i : nat) : Prop :=
  ∃ j n, j < i ∧ names !! j = Some n ∧ names !! i = Some n.

(** The names at the positions that [skip] does not hold, in order. *)
Definition emitted (skip : gmap Z bool) (names : list string) : list string :=
  omap (λ jn, match skip !! Z.of_nat jn.1 with Some _ => None | None => Some jn.2 end)
       (imap pair names).

Lemma emitted_snoc skip names n :
  emitted skip (names ++ [n]) =
  emitted skip names ++
  match skip !! Z.of_nat (length names) with Some _ => [] | None => [n] end.
Proof.
  unfold emitted. rewrite imap_app, omap_app. f_equal. simpl.
  rewrite Nat.add_0_r. destruct (skip !! Z.of_nat (length names)); reflexivity.
Qed.

Lemma emitted_insert_ge skip names (k : nat) b :
  length names ≤ k → emitted (<[Z.of_nat k := b]> skip) names = emitted skip names.
Proof.
  intros Hk. unfold emitted. apply list_omap_ext.
  apply Forall2_same_length_lookup. split; [reflexivity|].
  intros j x y Hx Hy. rewrite Hx in Hy. injection Hy as <-.
  apply list_lookup_imap_Some in Hx as (n & Hn & ->). simpl.
  apply lookup_lt_Some in Hn.
  rewrite lookup_insert_ne by lia. reflexivity.
Qed.

Lemma duplicate_at_lt names n i :
  i < length names → duplicate_at (names ++ [n]) i ↔ duplicate_at names i.
Proof.
  intros Hi. unfold duplicate_at. split; intros (j & x & Hj & H1 & H2); exists j, x.
  - rewrite lookup_app_l in H1 by lia. rewrite lookup_app_l in H2 by lia. auto.
  - rewrite !lookup_app_l by lia. auto.
Qed.

Lemma duplicate_at_last names n :
  duplicate_at (names ++ [n]) (length names) ↔ n ∈ names.
Proof.
  unfold duplicate_at. split.
  - intros (j & x & Hj & H1 & H2). rewrite lookup_app_l in H1 by lia.
    rewrite list_lookup_middle in H2 by reflexivity. injection H2 as <-.
    apply list_elem_of_lookup. eauto.
  - intros Hin. apply list_elem_of_lookup in Hin as (j & Hj).
    exists j, n. pose proof (lookup_lt_Some _ _ _ Hj).
    rewrite lookup_app_l by lia. rewrite list_lookup_middle by reflexivity. auto.
Qed.

Lemma duplicate_at_bound names i : duplicate_at names i → i < length names.
Proof. intros (j & x & _ & _ & Hi). eapply lookup_lt_Some, Hi. Qed.

(** What holds of the state after the loop has run over [cols], started on
    no names seen, nothing skipped and the columns [columns0]. *)
Record loop_inv (columns0 : list string) (types : gmap string string) (names : list string)
    (st : Z * gmap string bool * gmap Z bool * list string) : Prop := {
  inv_i : st.1.1.1 = (Z.of_nat (length names) - 1)%Z;
  inv_seen : ∀ n, is_Some (st.1.1.2 !! n) ↔ n ∈ names;
  inv_skip : ∀ z b, st.1.2 !! z = Some b ↔
               b = true ∧ ∃ i, z = Z.of_nat i ∧ duplicate_at names i;
  inv_columns : st.2 = columns0 ++
      map (λ n, schemaLine n (default "UTF8" (types !! n))) (emitted st.1.2 names);
  inv_nodup : NoDup (emitted st.1.2 names);
  inv_all : ∀ n, n ∈ emitted st.1.2 names ↔ n ∈ names
}.

Lemma columnStep_inv columns0 types cols :
  loop_inv columns0 types (map columnName cols)
    (fold_left (columnStep types) cols ((-1)%Z, ∅, ∅, columns0)).
Proof.
  induction cols as [|t cols IH] using rev_ind.
  - simpl. constructor; simpl.
    + reflexivity.
    + intros n. rewrite lookup_empty. split; [intros [x Hx]; discriminate | intros Hin; inversion Hin].
    + intros z b. rewrite lookup_empty. split; [discriminate|].
      intros (_ & i & _ & Hd). apply duplicate_at_bound in Hd. simpl in Hd. lia.
    + rewrite app_nil_r. reflexivity.
    + constructor.
    + reflexivity.
  - rewrite fold_left_app, map_app. simpl.
    destruct (fold_left (columnStep types) cols ((-1)%Z, ∅, ∅, columns0))
      as [[[i seen] skip] columns].
    destruct IH as [Hi Hseen Hskip Hcols Hnd Hall]. simpl in *.
    set (names := map columnName cols) in *.
    assert (Hlen : (i + 1)%Z = Z.of_nat (length names)) by lia.
    destruct (seen !! columnName t) as [b|] eqn:Hs.
    + assert (Hin : columnName t ∈ names) by (apply Hseen; eauto).
      assert (Hem : emitted (<[(i + 1)%Z := true]> skip) (names ++ [columnName t])
                    = emitted skip names).
      { rewrite emitted_snoc, Hlen, lookup_insert_eq, app_nil_r.
        apply emitted_insert_ge. lia. }
      constructor; simpl.
      * rewrite length_app. simpl. lia.
      * intros n. rewrite Hseen, elem_of_app, list_elem_of_singleton.
        split; [auto | intros [ | -> ]; auto].
      * intros z b'. rewrite Hlen. destruct (decide (z = Z.of_nat (length names))) as [->|Hz].
        -- rewrite lookup_insert_eq. split.
           ++ intros [= <-]. split; [reflexivity|]. eexists. split; [reflexivity|].
              apply duplicate_at_last. exact Hin.
           ++ intros [-> _]. reflexivity.
        -- rewrite lookup_insert_ne by congruence. rewrite Hskip. split.
           ++ intros (-> & k & -> & Hd). split; [reflexivity|]. exists k. split; [reflexivity|].
              apply duplicate_at_lt; [eapply duplicate_at_bound, Hd | exact Hd].
           ++ intros (-> & k & -> & Hd). split; [reflexivity|]. exists k. split; [reflexivity|].
              pose proof (duplicate_at_bound _ _ Hd) as Hb. rewrite length_app in Hb. simpl in Hb.
              assert (k ≠ length names) by congruence.
              apply (duplicate_at_lt names (columnName t) k); [lia | exact Hd].
      * rewrite Hem. exact Hcols.
      * rewrite Hem. exact Hnd.
      * intros n. rewrite Hem, Hall, elem_of_app, list_elem_of_singleton.
        split; [auto | intros [ | -> ]; auto].
    + assert (Hnin : columnName t ∉ names).
      { intros Hin. apply Hseen in Hin as [? Hin]. congruence. }
      assert (Hnone : skip !! Z.of_nat (length names) = None).
      { destruct (skip !! Z.of_nat (length names)) as [b|] eqn:Hk; [|reflexivity].
        apply Hskip in Hk as (_ & k & Hk & Hd). apply duplicate_at_bound in Hd. lia. }
      assert (Hem : emitted skip (names ++ [columnName t])
                    = emitted skip names ++ [columnName t]).
      { rewrite emitted_snoc, Hnone. reflexivity. }
      constructor; simpl.
      * rewrite length_app. simpl. lia.
      * intros n. rewrite elem_of_app, list_elem_of_singleton, <- Hseen.
        destruct (decide (n = columnName t)) as [->|Hn].
        -- rewrite lookup_insert_eq. split; [auto | eauto].
        -- rewrite lookup_insert_ne by congruence. split; [auto | intros [ | ]; [auto | contradiction]].
      * intros z b'. rewrite Hskip. split.
        -- intros (-> & k & -> & Hd). split; [reflexivity|]. exists k. split; [reflexivity|].
           apply duplicate_at_lt; [eapply duplicate_at_bound, Hd | exact Hd].
        -- intros (-> & k & -> & Hd). split; [reflexivity|]. exists k. split; [reflexivity|].
           pose proof (duplicate_at_bound _ _ Hd) as Hb. rewrite length_app in Hb. simpl in Hb.
           destruct (decide (k = length names)) as [->|Hk].
           ++ apply duplicate_at_last in Hd. contradiction.
           ++ apply (duplicate_at_lt names (columnName t) k); [lia | exact Hd].
      * rewrite Hem, map_app, Hcols, <- app_assoc. reflexivity.
      * rewrite Hem. apply NoDup_app. split; [exact Hnd|]. split; [|apply NoDup_singleton].
        intros n Hn Hn'. apply list_elem_of_singleton in Hn'. subst n.
        apply Hall in Hn. contradiction.
      * intros n. rewrite Hem, !elem_of_app, Hall. reflexivity.
Qed.

End Manifest.

(** ** curconvert: the manifest columns *)

Section Canonical.
Context `{Unicode}.

(** [c] is one of [a-z0-9/]. *)
Definition allowed (c : rune) : Prop := (97 ≤ c ≤ 122 ∨ 48 ≤ c ≤ 57 ∨ c = 47)%Z.

#[local] Instance allowed_dec c : Decision (allowed c).
Proof. unfold allowed. apply _. Defined.

(** Lowercase, then an underscore for what is not allowed. *)
Definition canonical_rune (c : rune) : rune :=
  let l := unicode_ToLower c in if decide (allowed l) then l else 95%Z.

Definition alphabet : list ascii :=
  list_ascii_of_string "abcdefghijklmnopqrstuvwxyz0123456789/_".

Lemma r_allowed c : r c = if decide (allowed c) then c else 95%Z.
Proof.
  unfold r, allowed. repeat case_bool_decide; destruct (decide _) as [Ha|Hn]; try reflexivity; lia.
Qed.

Lemma below_128 (P : Z → bool) :
  forallb P (map Z.of_nat (seq 0 128)) = true → ∀ c, (0 ≤ c < 128)%Z → P c = true.
Proof.
  intros Hall c Hc. rewrite forallb_forall in Hall. apply Hall.
  apply in_map_iff. exists (Z.to_nat c). split; [lia|]. apply in_seq. lia.
Qed.

Lemma r_alphabet c : ascii_of_N (Z.to_N (r c)) ∈ alphabet.
Proof.
  assert (Hr : (0 ≤ r c < 128)%Z) by (unfold r; repeat case_bool_decide; lia).
  pose proof (below_128 (λ x, bool_decide (r x = x → ascii_of_N (Z.to_N x) ∈ alphabet))) as Hb.
  specialize (Hb ltac:(vm_compute; reflexivity) (r c) Hr). simpl in Hb.
  apply bool_decide_eq_true_1 in Hb. apply Hb.
  unfold r. repeat case_bool_decide; try reflexivity; lia.
Qed.

Lemma columnName_canonical t :
  columnName t = string_of_runes (map canonical_rune (category t ++ [47%Z] ++ name t)).
Proof.
  unfold columnName, strings_Map, strings_ToLower. rewrite map_map. f_equal.
  apply map_ext. intros c. apply r_allowed.
Qed.

Lemma columnName_alphabet t :
  Forall (λ a, a ∈ alphabet) (list_ascii_of_string (columnName t)).
Proof.
  unfold columnName, string_of_runes. rewrite list_ascii_of_string_of_list_ascii.
  unfold strings_Map. rewrite map_map. apply Forall_forall. intros a Ha.
  apply list_elem_of_In, in_map_iff in Ha as (c & <- & _). apply r_alphabet.
Qed.

(** The skip set and the schema after [ParseCur]. *)
Lemma ParseCur_spec (c : CurConvert) (cols : list column) (reportKeys : list string) :
  let names := map columnName cols in
  let c' := ParseCur c cols reportKeys in
  (∀ z b, skipCols c' !! z = Some b ↔
          b = true ∧ ∃ i, z = Z.of_nat i ∧ duplicate_at names i) ∧
  CurColumns c' =
    CurColumns c ++
    map (λ n, schemaLine n (default "UTF8" (CurColumnTypes c !! n)))
        (emitted (skipCols c') names) ∧
  NoDup (emitted (skipCols c') names) ∧
  (∀ n, n ∈ emitted (skipCols c') names ↔ n ∈ names).
Proof.
  intros names c'. subst c'. unfold ParseCur. rewrite columnsLoop_fold.
  pose proof (columnStep_inv (CurColumns c) (CurColumnTypes c) cols) as Hinv.
  destruct (fold_left (columnStep (CurColumnTypes c)) cols ((-1)%Z, ∅, ∅, CurColumns c))
    as [[[i seen] skip] columns].
  destruct Hinv as [_ _ Hskip Hcols Hnd Hall]. simpl in *. auto.
Qed.

(** C3. Each column name [category/name] is lowercased and every character
    outside [a-z0-9/] becomes an underscore.  A position whose canonical
    name already occurred at an earlier position is recorded in the skip
    set, and no other position is; the schema grows by one entry for each
    position that is not skipped, in manifest order, so every canonical
    name of the manifest is emitted once, at its first occurrence. *)
Theorem ParseCur_columns (c : CurConvert) (cols : list column) (reportKeys : list string) :
  let names := map columnName cols in
  let c' := ParseCur c cols reportKeys in
  (∀ t, columnName t = string_of_runes (map canonical_rune (category t ++ [47%Z] ++ name t)) ∧
        Forall (λ a, a ∈ alphabet) (list_ascii_of_string (columnName t))) ∧
  (∀ z b, skipCols c' !! z = Some b ↔
          b = true ∧ ∃ i, z = Z.of_nat i ∧ duplicate_at names i) ∧
  CurColumns c' =
    CurColumns c ++
    map (λ n, schemaLine n (default "UTF8" (CurColumnTypes c !! n)))
        (emitted (skipCols c') names) ∧
  NoDup (emitted (skipCols c') names) ∧
  (∀ n, n ∈ emitted (skipCols c') names ↔ n ∈ names).
Proof.
  intros names c'.
  split; [intros t; split; [apply columnName_canonical | apply columnName_alphabet]|].
  apply ParseCur_spec.
Qed.

End Canonical.

(** The thirteen columns typed DOUBLE. *)
Definition double_columns : list string :=
  [ "lineitem/usageamount"; "lineitem/normalizationfactor";
    "lineitem/normalizedusageamount"; "lineitem/unblendedrate";
    "lineitem/unblendedcost"; "lineitem/blendedrate"; "lineitem/blendedcost";
    "pricing/publicondemandcost"; "pricing/publicondemandrate";
    "reservation/normalizedunitsperreservation";
    "reservation/totalreservednormalizedunits"; "reservation/totalreservedunits";
    "reservation/unitsperreservation" ].

Lemma assign_all_lookup {V : Type} (kvs : list (string * V)) (m : gmap string V) k v :
  Forall (λ kv, kv.2 = v) kvs →
  assign_all kvs m !! k = if decide (k ∈ kvs.*1) then Some v else m !! k.
Proof.
  intros Hall. revert m. unfold assign_all.
  induction Hall as [|kv kvs Hkv _ IH]; intros m; cbn [fold_left fmap list_fmap].
  - rewrite decide_False; [reflexivity | intros Hin; inversion Hin].
  - rewrite IH. destruct (decide (k ∈ kvs.*1)) as [Hin|Hnin].
    + rewrite decide_True by (right; exact Hin). reflexivity.
    + destruct (decide (k = kv.1)) as [->|Hne].
      * rewrite lookup_insert_eq, decide_True by left. congruence.
      * rewrite lookup_insert_ne by congruence.
        rewrite decide_False; [reflexivity|].
        intros Hin. apply elem_of_cons in Hin as [|]; contradiction.
Qed.

(** C4. In a converter made by [NewCurConvert], the override table holds
    DOUBLE for thirteen column names and nothing else, and [ParseCur] types
    every emitted column DOUBLE when its canonical name is one of the
    thirteen and UTF8 when it is not. *)
Theorem ParseCur_types `{Unicode} (sBucket sObject dBucket dObject : string)
    (cols : list column) (reportKeys : list string) :
  let c := NewCurConvert sBucket sObject dBucket dObject in
  let c' := ParseCur c cols reportKeys in
  length double_columns = 13 ∧
  NoDup double_columns ∧
  (∀ n, CurColumnTypes c !! n = if decide (n ∈ double_columns) then Some "DOUBLE" else None) ∧
  CurColumns c' =
    map (λ n, schemaLine n (if decide (n ∈ double_columns) then "DOUBLE" else "UTF8"))
        (emitted (skipCols c') (map columnName cols)).
Proof.
  intros c c'.
  assert (Htable : ∀ n, CurColumnTypes c !! n
                        = if decide (n ∈ double_columns) then Some "DOUBLE" else None).
  { intros n.
    assert (Ht : CurColumnTypes c
                 = assign_all ((λ n, (n, "DOUBLE")) <$> double_columns) ∅) by reflexivity.
    rewrite Ht, (assign_all_lookup _ _ n "DOUBLE") by (repeat constructor).
    rewrite lookup_empty. reflexivity. }
  split; [reflexivity|]. split; [apply (bool_decide_unpack _); vm_compute; exact I|].
  split; [exact Htable|].
  destruct (ParseCur_spec c cols reportKeys) as (_ & Hcols & _).
  fold c' in Hcols. rewrite Hcols. simpl. apply map_ext. intros n.
  rewrite Htable. destruct (decide _); reflexivity.
Qed.

(** ** The report *)

Section Report.
Context {F : Type} `{Float64 F, MathRound F}.

(** The sum of a list, added up from the left. *)
Definition f_sum (l : list F) : F := fold_left f_add l f_zero.

Lemma sort_Strings_sorted keys : Sorted String.le (sort_Strings keys).
Proof. apply (Sorted_merge_sort String.le). Qed.

Lemma sort_Strings_perm keys : sort_Strings keys ≡ₚ keys.
Proof. apply merge_sort_Permutation. Qed.

(** Sorting forgets the order in which the keys were visited. *)
Lemma sort_Strings_range keys keys' : keys ≡ₚ keys' → sort_Strings keys = sort_Strings keys'.
Proof.
  intros Hp. apply (Sorted_unique String.le); try apply sort_Strings_sorted.
  rewrite !sort_Strings_perm. exact Hp.
Qed.

Lemma range_of_NoDup (m : gmap string F) visit : range_of m visit → NoDup visit.
Proof. intros Hp. unfold range_of in Hp. rewrite Hp. apply NoDup_fst_map_to_list. Qed.

Lemma range_of_elem (m : gmap string F) visit k :
  range_of m visit → k ∈ visit ↔ is_Some (m !! k).
Proof.
  intros Hp. unfold range_of in Hp. rewrite Hp, list_elem_of_fmap. split.
  - intros ([k' v] & -> & Hin). apply elem_of_map_to_list in Hin. eauto.
  - intros [v Hv]. exists (k, v). split; [reflexivity|]. apply elem_of_map_to_list. exact Hv.
Qed.

Lemma sort_Strings_strict keys :
  NoDup keys → StronglySorted (strict String.le) (sort_Strings keys).
Proof.
  intros Hnd.
  assert (Hnd' : NoDup (sort_Strings keys)) by (rewrite sort_Strings_perm; exact Hnd).
  pose proof (Sorted_StronglySorted _ _ (sort_Strings_sorted keys)) as Hs.
  induction Hs as [|k l Hl IH Hk]; [constructor|].
  apply NoDup_cons in Hnd' as [Hnin Hnd']. constructor; [apply IH, Hnd'|].
  apply Forall_forall. intros k' Hin. rewrite Forall_forall in Hk.
  split; [apply Hk, Hin|]. intros Hle.
  assert (k = k') by (apply (anti_symm String.le); [apply Hk, Hin | exact Hle]).
  subst k'. contradiction.
Qed.

Lemma bodyRows_elem (r : Results F) keys k a :
  (k, a) ∈ bodyRows r keys ↔
  k ∈ keys ∧ a = round2 (index f_zero (tagCosts r) k) ∧ f_gt a f_cent = true.
Proof.
  unfold bodyRows. rewrite list_elem_of_omap. split.
  - intros (k' & Hin & Hk). simpl in Hk.
    destruct (f_gt (round2 (index f_zero (tagCosts r) k')) f_cent) eqn:Hgt; [|discriminate].
    injection Hk as -> <-. auto.
  - intros (Hin & -> & Hgt). exists k. split; [exact Hin|]. simpl. rewrite Hgt. reflexivity.
Qed.

Lemma bodyRows_keys (R : relation string) (r : Results F) keys :
  StronglySorted R keys → StronglySorted R (bodyRows r keys).*1.
Proof.
  induction 1 as [|k l Hl IH Hk]; [constructor|].
  unfold bodyRows. simpl. fold (bodyRows r l).
  destruct (f_gt (round2 (index f_zero (tagCosts r) k)) f_cent); [|exact IH].
  simpl. constructor; [exact IH|].
  apply Forall_forall. intros k' Hin. rewrite Forall_forall in Hk. apply Hk.
  apply list_elem_of_fmap in Hin as ([k'' a] & -> & Hin). apply bodyRows_elem in Hin. tauto.
Qed.

(** The body of the report, for a visiting order of the map. *)
Lemma printResults_order `{Fmt F} (r : Results F) (c : Config) (visit : list string) :
  range_of (tagCosts r) visit →
  let body := bodyRows r (sort_Strings visit) in
  StronglySorted (strict String.le) body.*1 ∧
  (∀ k a, (k, a) ∈ body ↔
          ∃ x, tagCosts r !! k = Some x ∧ a = round2 x ∧ f_gt a f_cent = true) ∧
  printResults visit r c =
    Println (quote +:+ "service" +:+ quote +:+ "," +:+ tagNames c
             +:+ quote +:+ "amount" +:+ quote)
    +:+ String.concat "" (map bodyLine body)
    +:+ Println "---------------------"
    +:+ ("Total: " +:+ fmt_2f (round2 (total r))) ∧
  (∀ visit', range_of (tagCosts r) visit' → printResults visit' r c = printResults visit r c).
Proof.
  intros Hrange body. split; [|split; [|split]].
  - apply bodyRows_keys, sort_Strings_strict. eapply range_of_NoDup, Hrange.
  - intros k a. subst body. rewrite bodyRows_elem, sort_Strings_perm.
    rewrite (range_of_elem _ _ _ Hrange). unfold index. split.
    + intros ([x Hx] & Ha & Hgt). rewrite Hx in Ha. simpl in Ha. eauto.
    + intros (x & Hx & Ha & Hgt). rewrite Hx. simpl. eauto.
  - reflexivity.
  - intros visit' Hrange'. unfold printResults.
    rewrite (sort_Strings_range visit' visit); [reflexivity|].
    unfold range_of in *. rewrite Hrange, Hrange'. reflexivity.
Qed.

Lemma processResults_total `{ParseFloat F, Regexp} (c : Config) rows (r : Results F) :
  total (fold_left (processRow c) rows r) =
  fold_left f_add (omap (λ row, strconv_ParseFloat (index "" row "cost")) rows) (total r).
Proof.
  revert r. induction rows as [|row rows IH]; intros r; simpl; [reflexivity|].
  rewrite IH. unfold processRow.
  destruct (strconv_ParseFloat (index "" row "cost")); reflexivity.
Qed.

End Report.

Import Ref.

(** Over the rationals, [round2] is [math.Round(x*100)/100]. *)
Lemma round2_exact (x : Qc) :
  round2 x = Qcdiv (math_Round (Qcmult x (Q2Qc 100))) (Q2Qc 100).
Proof.
  unfold round2. simpl.
  replace (Qcdiv x (Q2Qc (1 # 100))) with (Qcmult x (Q2Qc 100)).
  - unfold Qcdiv. f_equal.
  - unfold Qcdiv. f_equal.
Qed.

(** C5, as the code has it.  Whatever the order in which the map is
    visited, the body of the report lists the composite keys in increasing
    lexicographic order, each once, with the amount
    [math.Round(x/0.01)*0.01], computed in float64; a key is listed exactly
    when that amount is greater than 0.01; and the text printed is the same
    for every visiting order.  In exact arithmetic the amount is
    [math.Round(x*100)/100]; in float64 the two can fall on different sides
    of a half cent. *)
Theorem printResults_body :
  (∀ (F : Type) (H1 : Float64 F) (H2 : MathRound F) (H3 : Fmt F)
     (r : Results F) (c : Config) (visit : list string),
     range_of (tagCosts r) visit →
     let body := bodyRows r (sort_Strings visit) in
     StronglySorted (strict String.le) body.*1 ∧
     (∀ k a, (k, a) ∈ body ↔
             ∃ x, tagCosts r !! k = Some x ∧ a = round2 x ∧ f_gt a f_cent = true) ∧
     printResults visit r c =
       Println (quote +:+ "service" +:+ quote +:+ "," +:+ tagNames c
                +:+ quote +:+ "amount" +:+ quote)
       +:+ String.concat "" (map bodyLine body)
       +:+ Println "---------------------"
       +:+ ("Total: " +:+ fmt_2f (round2 (total r))) ∧
     (∀ visit', range_of (tagCosts r) visit' →
                printResults visit' r c = printResults visit r c)) ∧
  (∀ x : Qc, round2 x = Qcdiv (math_Round (Qcmult x (Q2Qc 100))) (Q2Qc 100)).
Proof.
  split.
  - intros F H1 H2 H3 r c visit Hrange. apply printResults_order. exact Hrange.
  - exact round2_exact.
Qed.

(** ** The query driver *)

Section Driver.

(** The script [answers] of the poll loop: the query is [RUNNING] in
    [running] and then reaches [st]. *)
Definition runs_then (running : list QueryExecutionStatus) (st : QueryExecutionStatus)
    (answers : list (result QueryExecutionStatus)) : Prop :=
  ∃ rest, answers = map Ok running ++ Ok st :: rest ∧
          Forall (λ q, State q = Some "RUNNING") running.

(** A poll, and a pause of two seconds, per answer [RUNNING]. *)
Definition polls (id : string) (running : list QueryExecutionStatus) : list event :=
  flat_map (λ _, [CallGetQueryExecution id; Sleep (2 * Second)]) running.

Lemma pollLoop_runs id running st answers state :
  runs_then running st answers →
  State st = Some state → state ≠ "RUNNING" →
  pollLoop id answers = (polls id running ++ [CallGetQueryExecution id], Returns (Ok st)).
Proof.
  intros (rest & -> & Hrun) Hst Hne. induction Hrun as [|q running Hq _ IH].
  - simpl. rewrite Hst. simpl. rewrite bool_decide_eq_true_2 by exact Hne. reflexivity.
  - simpl. rewrite Hq. simpl. rewrite IH. reflexivity.
Qed.

Definition request (db sql account region s3ResultsLocation : string) : StartQueryExecutionInput :=
  {| QueryString := sql;
     QueryExecutionContext_Database := db;
     OutputLocation :=
       if bool_decide (1 < String.length s3ResultsLocation) then s3ResultsLocation
       else "s3://aws-athena-query-results-" +:+ account +:+ "-" +:+ region +:+ "/" |}.

(** C6. Once the query is started, its status is asked for again after a
    pause of two seconds for as long as the answer is RUNNING.  When the
    first other state is not SUCCEEDED, [sendQuery] asks the engine nothing
    more: with a StateChangeReason in the status, it returns no rows and
    an error made of that state and of the reason; with none, it
    dereferences the nil pointer and panics. *)
Theorem sendQuery_failed (svc : Athena) (db sql account region s3ResultsLocation : string)
    (id : string) (running : list QueryExecutionStatus) (st : QueryExecutionStatus)
    (state : string) :
  StartQueryExecution svc = Ok (Some id) →
  runs_then running st (GetQueryExecution svc) →
  State st = Some state →
  state ≠ "RUNNING" →
  state ≠ "SUCCEEDED" →
  sendQuery svc db sql account region s3ResultsLocation =
    (CallStartQueryExecution (request db sql account region s3ResultsLocation)
       :: polls id running ++ [CallGetQueryExecution id],
     match StateChangeReason st with
     | Some reason =>
         Returns ({| Rows := [] |},
                  Some ("Error Querying Athena, query state is: " +:+ state
                        +:+ ", detailed error " +:+ reason))
     | None => Panics
     end).
Proof.
  intros Hstart Hruns Hst Hnr Hns. unfold sendQuery. rewrite Hstart. simpl.
  rewrite (pollLoop_runs _ _ _ _ _ Hruns Hst Hnr). simpl. rewrite Hst. simpl.
  rewrite bool_decide_eq_true_2 by exact Hns.
  destruct (StateChangeReason st) as [reason|]; simpl; rewrite app_nil_r; reflexivity.
Qed.

End Driver.

Section Pages.

(** The values of the fields, when none is nil. *)
Definition values (data : list Datum) : option (list string) := mapM VarCharValue data.

(** [result[label] = value], position by position. *)
Definition labelled (labels : list string) (vs : list string) (result : gmap string string)
    : gmap string string :=
  fold_left (λ m lv, <[lv.1 := lv.2]> m) (zip labels vs) result.

(** A later row under the header [colNames]: the fields beyond the width
    of the header are not looked at; the row is dropped when one of the
    others is nil, or when there is none. *)
Definition decodeRow (colNames : list string) (row : Row) : option (gmap string string) :=
  match values (take (length colNames) row) with
  | Some [] => None
  | Some vs => Some (labelled colNames vs ∅)
  | None => None
  end.

Lemma appendNames_values colNames data names :
  values data = Some names → appendNames colNames data = ret (colNames ++ names).
Proof.
  unfold values. revert colNames names. induction data as [|d data IH]; intros colNames names.
  - intros [= <-]. simpl. rewrite app_nil_r. reflexivity.
  - simpl. destruct (VarCharValue d) as [v|]; [|discriminate]. simpl.
    destruct (mapM VarCharValue data) as [vs|] eqn:Hvs; [|discriminate].
    intros [= <-]. simpl. rewrite (IH _ vs eq_refl), <- app_assoc. reflexivity.
Qed.

Lemma labelled_size labels vs result :
  0 < size result → 0 < size (labelled labels vs result).
Proof.
  unfold labelled. generalize (zip labels vs). intros l. revert result.
  induction l as [|lv l IH]; intros result Hs; simpl; [exact Hs|].
  apply IH. destruct (result !! lv.1) eqn:Hl.
  - rewrite map_size_insert_Some by eauto. exact Hs.
  - rewrite map_size_insert_None by exact Hl. lia.
Qed.

Lemma decodeFrom_spec colNames data j result :
  decodeFrom colNames j data result =
  match values (take (length colNames - j) data) with
  | Some vs => (labelled (drop j colNames) vs result, false)
  | None => ((decodeFrom colNames j data result).1, true)
  end.
Proof.
  unfold values. revert j result. induction data as [|d data IH]; intros j result.
  - simpl. rewrite take_nil. simpl. unfold labelled. rewrite zip_with_nil_r. reflexivity.
  - simpl. case_bool_decide as Hj.
    + destruct (length colNames - j) as [|n] eqn:Hn; [lia|]. simpl.
      destruct (VarCharValue d) as [v|]; [|reflexivity]. simpl.
      rewrite IH. replace (length colNames - S j) with n by lia.
      destruct (mapM VarCharValue (take n data)) as [vs|]; [|reflexivity]. simpl.
      destruct (lookup_lt_is_Some_2 colNames j Hj) as [c Hc].
      rewrite (drop_S _ _ _ Hc). simpl.
      rewrite (list_lookup_total_correct _ _ _ Hc). reflexivity.
    + replace (length colNames - j) with 0 by lia. simpl.
      rewrite IH. replace (length colNames - S j) with 0 by lia. simpl.
      unfold labelled. rewrite !zip_with_nil_r. reflexivity.
Qed.

Lemma rowStep_decode colNames rows row :
  colNames ≠ [] →
  rowStep (colNames, rows) row =
  ret (colNames, rows ++ match decodeRow colNames row with Some m => [m] | None => [] end).
Proof.
  intros Hne. unfold rowStep.
  rewrite bool_decide_eq_false_2 by (destruct colNames; [congruence | simpl; lia]).
  rewrite decodeFrom_spec, Nat.sub_0_r. unfold decodeRow. rewrite drop_0.
  destruct (values (take (length colNames) row)) as [vs|] eqn:Hvs.
  - destruct vs as [|v vs].
    + unfold labelled. rewrite zip_with_nil_r. simpl. rewrite app_nil_r. reflexivity.
    + destruct colNames as [|c colNames]; [congruence|].
      rewrite bool_decide_eq_true_2; [reflexivity|].
      unfold labelled. simpl. apply (labelled_size _ _ (<[c:=v]> ∅)).
      rewrite map_size_insert_None by apply lookup_empty. lia.
  - rewrite andb_false_r, app_nil_r. reflexivity.
Qed.

Lemma rowsLoop_decode colNames rows data :
  colNames ≠ [] →
  rowsLoop (colNames, rows) data = ret (colNames, rows ++ omap (decodeRow colNames) data).
Proof.
  intros Hne. revert rows. induction data as [|row data IH]; intros rows.
  - simpl. rewrite app_nil_r. reflexivity.
  - change (rowsLoop (colNames, rows) (row :: data))
      with (bind (rowStep (colNames, rows) row) (λ st', rowsLoop st' data)).
    rewrite (rowStep_decode _ _ _ Hne). unfold bind, ret. rewrite IH. unfold ret. simpl.
    destruct (decodeRow colNames row); simpl; rewrite <- ?app_assoc, ?app_nil_r; reflexivity.
Qed.

Lemma bind_ret_l {A B} (a : A) (k : A → io B) : bind (ret a) k = k a.
Proof. unfold bind, ret. destruct (k a). reflexivity. Qed.

Lemma bind_assoc {A B C} (m : io A) (k : A → io B) (k' : B → io C) :
  bind (bind m k) k' = bind m (λ a, bind (k a) k').
Proof.
  destruct m as [t [a| |]]; simpl; try reflexivity.
  destruct (k a) as [t1 [b| |]]; simpl; try (rewrite ?app_nil_r; reflexivity).
  destruct (k' b) as [t2 o]. rewrite app_assoc. reflexivity.
Qed.

Lemma bind_ext {A B} (m : io A) (k k' : A → io B) :
  (∀ a, k a = k' a) → bind m k = bind m k'.
Proof. intros Hk. destruct m as [t [a| |]]; simpl; [rewrite Hk|  |]; reflexivity. Qed.

Lemma rowsLoop_app st data data' :
  rowsLoop st (data ++ data') = bind (rowsLoop st data) (λ st', rowsLoop st' data').
Proof.
  revert st. induction data as [|row data IH]; intros st.
  - exact (eq_sym (bind_ret_l st (λ st', rowsLoop st' data'))).
  - change (bind (rowStep st row) (λ st', rowsLoop st' (data ++ data')) =
            bind (bind (rowStep st row) (λ st', rowsLoop st' data))
                 (λ st', rowsLoop st' data')).
    rewrite bind_assoc. apply bind_ext. exact IH.
Qed.

(** The callback does not see where one page ends and the next begins. *)
Lemma pagesLoop_concat st pages : pagesLoop st pages = rowsLoop st (concat pages).
Proof.
  revert st. induction pages as [|page pages IH]; intros st; [reflexivity|].
  simpl concat. rewrite rowsLoop_app.
  change (pagesLoop st (page :: pages))
    with (bind (rowsLoop st page) (λ st', pagesLoop st' pages)).
  apply bind_ext. exact IH.
Qed.

(** Before a header with labels has been read, rows without fields leave
    the state as it is. *)
Lemma rowsLoop_no_header rows data :
  Forall (λ row : Row, length row ≤ 0) data →
  rowsLoop ([], rows) data = ret ([], rows).
Proof.
  induction 1 as [|row data Hrow _ IH]; [reflexivity|].
  destruct row; [|simpl in Hrow; lia].
  change (rowsLoop ([], rows) ([] :: data))
    with (bind (rowStep ([], rows) []) (λ st', rowsLoop st' data)).
  change (rowStep ([], rows) [])
    with (ret (A := list string * list (gmap string string)) ([], rows)).
  rewrite bind_ret_l. exact IH.
Qed.

(** The rows of a result set are no wider than its header. *)
Lemma rowsLoop_narrow colNames rows data :
  Forall (λ row : Row, length row ≤ length colNames) data →
  rowsLoop (colNames, rows) data = ret (colNames, rows ++ omap (decodeRow colNames) data).
Proof.
  intros Hdata. destruct colNames as [|c colNames]; [|apply rowsLoop_decode; discriminate].
  rewrite (rowsLoop_no_header _ _ Hdata).
  assert (Hnone : omap (decodeRow []) data = []).
  { clear. induction data as [|row data IH]; [reflexivity|]. exact IH. }
  rewrite Hnone, app_nil_r. reflexivity.
Qed.

Lemma decodeRow_narrow colNames row :
  length row ≤ length colNames →
  (decodeRow colNames row = None ↔ row = [] ∨ {| VarCharValue := None |} ∈ row) ∧
  (∀ m, decodeRow colNames row = Some m →
        ∃ vs, values row = Some vs ∧ m = labelled colNames vs ∅).
Proof.
  intros Hlen. unfold decodeRow. rewrite take_ge by exact Hlen. unfold values.
  destruct (mapM VarCharValue row) as [vs|] eqn:Hvs.
  - apply mapM_Some in Hvs. destruct vs as [|v vs].
    + apply Forall2_nil_inv_r in Hvs as ->. split; [split; auto | discriminate].
    + split.
      * split; [discriminate|]. intros [->|Hin]; [inversion Hvs|].
        apply list_elem_of_lookup in Hin as [j Hj].
        destruct (Forall2_lookup_l _ _ _ _ _ Hvs Hj) as (y & _ & Hy). discriminate.
      * intros m [= <-]. eauto.
  - split; [|discriminate]. split; [intros _ | reflexivity]. right.
    apply mapM_None in Hvs. apply Exists_exists in Hvs as (d & Hin & Hd).
    destruct d as [[v|]]; simpl in Hd; [discriminate | exact Hin].
Qed.

(** C7. On the result set of a query that has succeeded, whose first row
    holds the labels and whose later rows are no wider than the first, the
    first row is the header and every later row is decoded position by
    position under the labels of the header.  A row with a nil field is
    dropped, without an error, and so is a row without fields; every other
    row is returned, as the map of its values under the labels. *)
Theorem sendQuery_rows (svc : Athena) (db sql account region s3ResultsLocation : string)
    (id : string) (running : list QueryExecutionStatus) (st : QueryExecutionStatus)
    (pages : list Page) (head : Row) (colNames : list string) (data : list Row) :
  StartQueryExecution svc = Ok (Some id) →
  runs_then running st (GetQueryExecution svc) →
  State st = Some "SUCCEEDED" →
  GetQueryResultsPages svc = (pages, None) →
  concat pages = head :: data →
  values head = Some colNames →
  Forall (λ row : Row, length row ≤ length colNames) data →
  (sendQuery svc db sql account region s3ResultsLocation).2 =
    Returns ({| Rows := omap (decodeRow colNames) data |}, None) ∧
  (∀ row, row ∈ data →
     (decodeRow colNames row = None ↔ row = [] ∨ {| VarCharValue := None |} ∈ row) ∧
     (∀ m, decodeRow colNames row = Some m →
           ∃ vs, values row = Some vs ∧ m = labelled colNames vs ∅)).
Proof.
  intros Hstart Hruns Hst Hpages Hconcat Hnames Hwidth. split.
  - unfold sendQuery. rewrite Hstart. simpl.
    rewrite (pollLoop_runs _ _ _ _ "SUCCEEDED" Hruns Hst) by discriminate. simpl.
    rewrite Hst. simpl. rewrite Hpages. simpl.
    rewrite pagesLoop_concat, Hconcat.
    change (rowsLoop ([], []) (head :: data))
      with (bind (rowStep ([], []) head) (λ st', rowsLoop st' data)).
    unfold rowStep. simpl. rewrite (appendNames_values _ _ _ Hnames). simpl.
    rewrite (rowsLoop_narrow _ _ _ Hwidth). reflexivity.
  - intros row Hin. apply decodeRow_narrow.
    rewrite Forall_forall in Hwidth. apply Hwidth. exact Hin.
Qed.

End Pages.

(** ** The RI allocator *)

Section Allocator.
Context {F : Type} `{Float64 F, ParseFloat F}.

(** The usage figure of a riusage row: its normalized amount if that
    parses and is positive, else its amount under the same test. *)
Definition rowUsage (row : gmap string string) : option F :=
  let positive (field : string) :=
    match strconv_ParseFloat (index "" row field) with
    | Some f => if f_gt f f_zero then Some f else None
    | None => None
    end in
  match positive "normalized_amount" with
  | Some f => Some f
  | None => positive "amount"
  end.

Definition service (row : gmap string string) : string := index "" row "service".

(** The riusage rows of the service [s]. *)
Definition rows_of (s : string) (rows : list (gmap string string)) : list (gmap string string) :=
  filter (λ row, service row = s) rows.

Lemma riUsageStep_rowUsage m row :
  riUsageStep m row =
  match rowUsage row with
  | Some f => <[service row := f_add (index f_zero m (service row)) f]> m
  | None => m
  end.
Proof.
  unfold riUsageStep, rowUsage, service.
  destruct (strconv_ParseFloat (index "" row "normalized_amount")) as [f|];
    [destruct (f_gt f f_zero); [reflexivity|]|];
    (destruct (strconv_ParseFloat (index "" row "amount")) as [g|];
      [destruct (f_gt g f_zero)|]; reflexivity).
Qed.

Lemma riRowCost_rowUsage usage cost row :
  riRowCost usage cost row =
  (λ f, f_mul (f_div f (index f_zero usage (service row))) (index f_zero cost (service row)))
    <$> rowUsage row.
Proof.
  unfold riRowCost, rowUsage, service.
  destruct (strconv_ParseFloat (index "" row "normalized_amount")) as [f|];
    [destruct (f_gt f f_zero); [reflexivity|]|];
    (destruct (strconv_ParseFloat (index "" row "amount")) as [g|];
      [destruct (f_gt g f_zero)|]; reflexivity).
Qed.

Lemma rowUsage_positive row f : rowUsage row = Some f → f_gt f f_zero = true.
Proof.
  unfold rowUsage.
  destruct (strconv_ParseFloat (index "" row "normalized_amount")) as [g|];
    [destruct (f_gt g f_zero) eqn:Hg; [intros [= <-]; exact Hg|]|];
    (destruct (strconv_ParseFloat (index "" row "amount")) as [h|];
      [destruct (f_gt h f_zero) eqn:Hh|]; [intros [= <-]; exact Hh | discriminate..]).
Qed.

Lemma index_insert_eq {V : Type} (z v : V) (m : gmap string V) k :
  index z (<[k := v]> m) k = v.
Proof. unfold index. rewrite lookup_insert_eq. reflexivity. Qed.

Lemma index_insert_ne {V : Type} (z v : V) (m : gmap string V) k k' :
  k ≠ k' → index z (<[k := v]> m) k' = index z m k'.
Proof. intros Hne. unfold index. rewrite lookup_insert_ne by exact Hne. reflexivity. Qed.

(** The usage total of a service is the sum of the usage figures of its
    rows, added up in the order of the rows. *)
Lemma riUsagePerService_fold rows m s :
  index f_zero (fold_left riUsageStep rows m) s =
  fold_left f_add (omap rowUsage (rows_of s rows)) (index f_zero m s).
Proof.
  revert m. induction rows as [|row rows IH]; intros m; [reflexivity|].
  simpl. rewrite IH, riUsageStep_rowUsage. unfold rows_of. rewrite filter_cons.
  destruct (decide (service row = s)) as [<-|Hne].
  - simpl. destruct (rowUsage row) as [f|]; [|reflexivity].
    rewrite index_insert_eq. reflexivity.
  - destruct (rowUsage row) as [f|]; [|reflexivity].
    rewrite index_insert_ne by exact Hne. reflexivity.
Qed.

Lemma riUsagePerService_sum rows s :
  index f_zero (riUsagePerService rows) s = f_sum (omap rowUsage (rows_of s rows)).
Proof. unfold riUsagePerService. rewrite riUsagePerService_fold. reflexivity. Qed.

(** The synthetic costs of the rows of a service are the shares of their
    usage figures in its usage total, times its fee. *)
Lemma riRowCost_shares usage cost rows s :
  omap (riRowCost usage cost) (rows_of s rows) =
  map (λ f, f_mul (f_div f (index f_zero usage s)) (index f_zero cost s))
      (omap rowUsage (rows_of s rows)).
Proof.
  unfold rows_of. induction rows as [|row rows IH]; [reflexivity|].
  rewrite filter_cons. destruct (decide (service row = s)) as [Hrow|Hrow]; [|exact IH].
  simpl. rewrite riRowCost_rowUsage, Hrow.
  destruct (rowUsage row) as [f|]; simpl; [f_equal|]; exact IH.
Qed.

(** The fee of a service is the cost of its last ricost row that parses. *)
Lemma riCostPerService_last rows pre row post f :
  rows = pre ++ row :: post →
  strconv_ParseFloat (index "" row "cost") = Some f →
  Forall (λ row', service row' = service row →
                  strconv_ParseFloat (index "" row' "cost") = None) post →
  riCostPerService rows !! service row = Some f.
Proof.
  intros -> Hf Hpost. unfold riCostPerService. rewrite fold_left_app. simpl.
  generalize (fold_left riCostStep pre ∅). intros m.
  unfold riCostStep at 2. rewrite Hf. fold (service row).
  assert (Hm : <[service row := f]> m !! service row = Some f) by apply lookup_insert_eq.
  revert Hm. generalize (<[service row := f]> m). clear m.
  induction Hpost as [|row' post Hrow' _ IH]; intros m Hm; [exact Hm|].
  simpl. apply IH. unfold riCostStep.
  destruct (strconv_ParseFloat (index "" row' "cost")) as [g|] eqn:Hg; [|exact Hm].
  fold (service row'). destruct (decide (service row' = service row)) as [Heq|Hne].
  - specialize (Hrow' Heq). congruence.
  - rewrite lookup_insert_ne by exact Hne. exact Hm.
Qed.

(** The rows that [processRIUsage] hands on: those it was given, then the
    riusage rows, each with its synthetic cost formatted into [cost] when
    it has one, and as it came otherwise. *)
Lemma processRIUsage_rows `{FormatFloat F} riCost riUsage tagCost :
  processRIUsage (Ok riCost) (Ok riUsage) tagCost =
  ({| Rows := Rows tagCost ++
        map (λ row, match riRowCost (riUsagePerService (Rows riUsage))
                                    (riCostPerService (Rows riCost)) row with
                    | Some c => <["cost" := strconv_FormatFloat c]> row
                    | None => row
                    end) (Rows riUsage) |}, None).
Proof. reflexivity. Qed.

End Allocator.

Section Exact.
Context `{ParseFloat Qc}.

Lemma fold_left_Qcplus (l : list Qc) (a : Qc) :
  fold_left Qcplus l a = (a + fold_left Qcplus l (Q2Qc 0))%Qc.
Proof.
  revert a. induction l as [|x l IH]; intros a; simpl.
  - ring.
  - rewrite (IH (a + x)%Qc), (IH (Q2Qc 0 + x)%Qc). ring.
Qed.

Lemma f_sum_cons (x : Qc) (l : list Qc) : f_sum (x :: l) = (x + f_sum l)%Qc.
Proof. unfold f_sum. simpl. rewrite fold_left_Qcplus. ring. Qed.

Lemma f_sum_nonneg (l : list Qc) :
  Forall (λ x, (Q2Qc 0 < x)%Qc) l → (Q2Qc 0 <= f_sum l)%Qc.
Proof.
  induction 1 as [|x l Hx _ IH]; [apply Qcle_refl|].
  rewrite f_sum_cons. replace (Q2Qc 0) with (Q2Qc 0 + Q2Qc 0)%Qc by ring.
  apply Qcplus_le_compat; [apply Qclt_le_weak, Hx | exact IH].
Qed.

Lemma f_sum_positive (l : list Qc) :
  Forall (λ x, (Q2Qc 0 < x)%Qc) l → l ≠ [] → (Q2Qc 0 < f_sum l)%Qc.
Proof.
  intros Hall Hne. destruct Hall as [|x l Hx Hl]; [congruence|].
  rewrite f_sum_cons. apply Qclt_le_trans with x; [exact Hx|].
  replace x with (x + Q2Qc 0)%Qc at 1 by ring.
  apply Qcplus_le_compat; [apply Qcle_refl | apply f_sum_nonneg, Hl].
Qed.

(** Shares of a total add up to the whole. *)
Lemma f_sum_shares (l : list Qc) (u c : Qc) :
  u ≠ Q2Qc 0 → f_sum (map (λ f, f / u * c)%Qc l) = (f_sum l / u * c)%Qc.
Proof.
  intros Hu. induction l as [|x l IH].
  - unfold f_sum. simpl. field. exact Hu.
  - simpl. rewrite !f_sum_cons, IH. field. exact Hu.
Qed.

(** In exact arithmetic, for a service with at least one riusage row
    whose normalized amount, or else amount, is positive, the synthetic
    costs of its rows add up to the fee that the ricost rows give it. *)
Lemma riRowCost_sum (riCost riUsage : list (gmap string string)) (s : string) :
  let cost := riCostPerService riCost in
  let usage := riUsagePerService riUsage in
  (∃ row, row ∈ riUsage ∧ service row = s ∧ is_Some (rowUsage row)) →
  f_sum (omap (riRowCost usage cost) (rows_of s riUsage)) = index f_zero cost s.
Proof.
  intros cost usage (row0 & Hin & Hs & [f0 Hf0]).
  set (us := omap rowUsage (rows_of s riUsage)).
  assert (Hus : index f_zero usage s = f_sum us) by apply riUsagePerService_sum.
  assert (Hpos : (Q2Qc 0 < f_sum us)%Qc).
  { apply f_sum_positive.
    - apply Forall_forall. intros f Hf. apply list_elem_of_omap in Hf as (row & _ & Hrow).
      apply rowUsage_positive in Hrow. simpl in Hrow.
      apply bool_decide_eq_true_1 in Hrow. exact Hrow.
    - assert (Hf : f0 ∈ us).
      { apply list_elem_of_omap. exists row0. split; [|exact Hf0].
        apply list_elem_of_filter. auto. }
      intros Hnil. rewrite Hnil in Hf. inversion Hf. }
  assert (Hcosts : omap (riRowCost usage cost) (rows_of s riUsage)
                   = map (λ f, f / index f_zero usage s * index f_zero cost s)%Qc us)
    by exact (riRowCost_shares usage cost riUsage s).
  rewrite Hcosts, f_sum_shares, Hus.
  - field. apply not_eq_sym, Qclt_not_eq, Hpos.
  - rewrite Hus. apply not_eq_sym, Qclt_not_eq, Hpos.
Qed.

End Exact.

(** A service none of whose rows has a usage figure gets no synthetic
    cost. *)
Lemma riRowCost_idle {F : Type} `{Float64 F, ParseFloat F}
    (usage cost : gmap string F) (rows : list (gmap string string)) (s : string) :
  (∀ row, row ∈ rows → service row = s → rowUsage row = None) →
  omap (riRowCost usage cost) (rows_of s rows) = [].
Proof.
  intros Hidle. unfold rows_of. induction rows as [|row rows IH]; [reflexivity|].
  assert (IH' : omap (riRowCost usage cost) (filter (λ row, service row = s) rows) = []).
  { apply IH. intros row' Hin. apply Hidle. right. exact Hin. }
  rewrite filter_cons. destruct (decide (service row = s)) as [Hs|Hs]; [|exact IH'].
  cbn [omap list_omap]. rewrite riRowCost_rowUsage, (Hidle row (list_elem_of_here _ _) Hs).
  exact IH'.
Qed.




(** ** The total of the report *)

Lemma append_assoc (a b c : string) : (a +:+ b) +:+ c = a +:+ (b +:+ c).
Proof.
  induction a as [|x a IH]; [reflexivity|].
  change (String x ((a +:+ b) +:+ c) = String x (a +:+ (b +:+ c))). rewrite IH. reflexivity.
Qed.

(** Two groups of less than half a cent each. *)
Definition elided_rows : AthenaResponse :=
  {| Rows := [ {[ "service" := "a"; "cost" := "0.004" ]};
               {[ "service" := "b"; "cost" := "0.004" ]} ] |}.

Definition no_axes : Config :=
  {| Config_TagMap := []; Config_TagBlacklist := ∅; Config_Sql := ∅;
     Config_Tags := ""; Database := ""; Table := ""; Account := "" |}.

(** C10. The total of the results is the sum of the costs of all the rows
    whose cost parses, whatever becomes of their groups in the body, and
    the report ends with that total, rounded.  On two rows of 0.004 under
    different services, both groups are in the results, the body is empty,
    and the total printed is 0.01: the amounts of the body add up to less
    than the total. *)
Theorem printResults_total :
  (∀ (F : Type) (H1 : Float64 F) (H2 : ParseFloat F) (H3 : MathRound F) (H4 : Fmt F)
     (H5 : Regexp) (resp : AthenaResponse) (c : Config) (visit : list string),
     let r := processResults resp c in
     total r = f_sum (omap (λ row, strconv_ParseFloat (index "" row "cost")) (Rows resp)) ∧
     ∃ report, printResults visit r c
               = report +:+ ("Total: " +:+ fmt_2f (round2 (total r)))) ∧
  (let r := processResults (F := float) elided_rows no_axes in
   let visit := (map_to_list (tagCosts r)).*1 in
   range_of (tagCosts r) visit ∧
   is_Some (tagCosts r !! "a") ∧
   is_Some (tagCosts r !! "b") ∧
   bodyRows r (sort_Strings visit) = [] ∧
   fmt_2f (round2 (total r)) = "0.01" ∧
   f_gt (round2 (total r)) (f_sum (bodyRows r (sort_Strings visit)).*2) = true).
Proof.
  split.
  - intros F H1 H2 H3 H4 H5 resp c visit r. split.
    + subst r. unfold processResults. rewrite processResults_total. reflexivity.
    + unfold printResults. eexists. rewrite <- !append_assoc. reflexivity.
  - split; [unfold range_of; reflexivity|].
    split; [eexists; vm_compute; reflexivity|].
    split; [eexists; vm_compute; reflexivity|].
    split; [vm_compute; reflexivity|].
    split; vm_compute; reflexivity.
Qed.

(** ** The statements at work *)

Definition rule_P : Map := {| Value := "P"; Match := []; Regex := ["alpha.*"] |}.
Definition rule_Q : Map := {| Value := "Q"; Match := ["alphabet"]; Regex := [] |}.
Definition instance_ids : gmap string (list string) := {[ "resourceid" := ["^i-"] ]}.

Example resolver_precedence : findTagMatch "alphabet" [rule_P; rule_Q] "tag" ∅ = Ok "Q".
Proof. vm_compute. reflexivity. Qed.

Example resolver_regex : findTagMatch "alphabets" [rule_P; rule_Q] "tag" ∅ = Ok "P".
Proof. vm_compute. reflexivity. Qed.

Example resolver_blacklist :
  findTagMatch "i-abc" [] "resourceid" instance_ids = Error NoMatch ∧
  findTagMatch "vol-abc" [] "resourceid" instance_ids = Ok "vol-abc" ∧
  findTagMatch "" [] "resourceid" instance_ids = Error NoMatch.
Proof. vm_compute. auto. Qed.

Lemma findTagMatch_priority_witness :
  findTagMatch "alphabet" [rule_P; rule_Q] "tag" ∅ = Ok "Q" ∧
  findTagMatch "alphabets" [rule_P; rule_Q] "tag" ∅ = Ok "P" ∧
  findTagMatch "i-abc" [] "resourceid" instance_ids = Error NoMatch.
Proof.
  split; [|split].
  - apply (proj1 (findTagMatch_priority "alphabet" [rule_P; rule_Q] "tag" ∅) rule_Q).
    exists [rule_P], []. split; [reflexivity|]. split.
    + constructor; [apply not_elem_of_nil | constructor].
    + left.
  - refine (proj1 (proj2 (findTagMatch_priority "alphabets" [rule_P; rule_Q] "tag" ∅))
              _ rule_P _).
    + constructor; [apply not_elem_of_nil|]. constructor; [|constructor].
      unfold exact_rule. simpl. apply (bool_decide_unpack _). vm_compute. exact I.
    + exists [], [rule_Q]. split; [reflexivity|]. split; [constructor|].
      exists "alpha.*", (Contains "alpha"). split; [left|]. split; reflexivity.
  - refine (proj1 (proj2 (proj2 (findTagMatch_priority "i-abc" [] "resourceid" instance_ids))
                     _ _) _); [constructor | constructor |].
    exists ["^i-"]. split; [reflexivity|].
    exists "^i-", (StartsWith "i-"). split; [left|]. split; reflexivity.
Defined.

(** A row without a value in either candidate column of the axis. *)
Definition untagged_row : gmap string string := {[ "service" := "AmazonEC2"; "cost" := "1.5" ]}.
Definition team_axis : TagMap :=
  {| Tags := ["resourcetags/user_team"; "lineitem/resourceid"];
     TagMap_Map := [rule_P; rule_Q]; Name := "team" |}.
Definition team_config : Config :=
  {| Config_TagMap := [team_axis]; Config_TagBlacklist := instance_ids; Config_Sql := ∅;
     Config_Tags := ""; Database := "cur"; Table := "t"; Account := "" |}.

Lemma processResults_axis_witness :
  axisTag untagged_row instance_ids team_axis = "Untagged" ∧
  axisTag (<["lineitem/resourceid" := "alphabet"]> untagged_row) instance_ids team_axis = "Q".
Proof.
  split.
  - apply (proj1 (proj2 (processResults_axis (F := float) untagged_row team_config)) team_axis).
    repeat constructor.
  - apply (proj1 (processResults_axis (F := float)
                    (<["lineitem/resourceid" := "alphabet"]> untagged_row) team_config)
             team_axis ["resourcetags/user_team"] "lineitem/resourceid" []).
    + reflexivity.
    + repeat constructor.
    + vm_compute. reflexivity.
Defined.

Example untagged_key :
  tagCosts (processResults (F := float) {| Rows := [untagged_row] |} team_config)
  = {[ "AmazonEC2,Untagged" := 1.5%float ]}.
Proof. vm_compute. reflexivity. Qed.

Lemma SetFileConcurrency_range_witness :
  fileConcurrency (SetFileConcurrency (NewCurConvert "src" "manifest" "dst" "cur") 1000).1
    = 1000%Z ∧
  (SetFileConcurrency (NewCurConvert "src" "manifest" "dst" "cur") 1001).1
    = NewCurConvert "src" "manifest" "dst" "cur".
Proof.
  split.
  - apply (proj1 (proj2 (SetFileConcurrency_range
                           (NewCurConvert "src" "manifest" "dst" "cur") 1000))). lia.
  - apply (proj2 (proj2 (SetFileConcurrency_range
                           (NewCurConvert "src" "manifest" "dst" "cur") 1001))). lia.
Defined.

(** Two groups, visited in the order that sorting has to undo. *)
Definition two_groups : Results float :=
  {| tagCosts := <["b" := 1.25%float]> (<["a" := 2.5%float]> ∅); total := 3.75%float |}.

Lemma two_groups_range : range_of (tagCosts two_groups) ["b"; "a"].
Proof.
  unfold range_of. simpl.
  rewrite map_to_list_insert by reflexivity.
  rewrite map_to_list_insert by reflexivity.
  rewrite map_to_list_empty. reflexivity.
Qed.

Lemma printResults_body_witness :
  StronglySorted (strict String.le) (bodyRows two_groups (sort_Strings ["b"; "a"])).*1 ∧
  printResults ["a"; "b"] two_groups no_axes = printResults ["b"; "a"] two_groups no_axes.
Proof.
  pose proof (proj1 printResults_body float _ _ _ two_groups no_axes ["b"; "a"]
                two_groups_range) as Hbody.
  split; [apply Hbody|]. apply Hbody.
  unfold range_of. rewrite <- two_groups_range. apply perm_swap.
Defined.

Example printResults_text :
  printResults ["b"; "a"] two_groups no_axes
  = quote +:+ "service" +:+ quote +:+ "," +:+ quote +:+ "amount" +:+ quote +:+ newline
    +:+ "a,2.50" +:+ newline
    +:+ "b,1.25" +:+ newline
    +:+ "---------------------" +:+ newline
    +:+ "Total: 3.75".
Proof. vm_compute. reflexivity. Qed.

(** A group of 0.235: the code prints 0.23, [math.Round(x*100)/100]
    prints 0.24.  The float nearest to 0.235 is [0x1.e147ae147ae14p-3],
    just below it. *)
Definition half_cent_row : gmap string string := {[ "service" := "S3"; "cost" := "0.235" ]}.

Lemma printResults_half_cent :
  tagCosts (processResults (F := float) {| Rows := [half_cent_row] |} no_axes)
    = {[ "S3" := 0x1.e147ae147ae14p-3%float ]} ∧
  fmt_2f (round2 0x1.e147ae147ae14p-3%float) = "0.23" ∧
  fmt_2f (f_div (math_Round (f_mul 0x1.e147ae147ae14p-3%float 100%float)) 100%float)
    = "0.24" ∧
  printResults ["S3"] (processResults (F := float) {| Rows := [half_cent_row] |} no_axes)
               no_axes
  = quote +:+ "service" +:+ quote +:+ "," +:+ quote +:+ "amount" +:+ quote +:+ newline
    +:+ "S3,0.23" +:+ newline
    +:+ "---------------------" +:+ newline
    +:+ "Total: 0.23".
Proof. vm_compute. auto. Qed.

(** A query that fails at the third poll. *)
Definition failing : Athena :=
  {| StartQueryExecution := Ok (Some "q-1");
     GetQueryExecution :=
       [ Ok {| State := Some "RUNNING"; StateChangeReason := None |};
         Ok {| State := Some "RUNNING"; StateChangeReason := None |};
         Ok {| State := Some "FAILED"; StateChangeReason := Some "SYNTAX_ERROR" |} ];
     GetQueryResultsPages := ([], None) |}.

(** A query that is cancelled, and says no more. *)
Definition cancelled : Athena :=
  {| StartQueryExecution := Ok (Some "q-1");
     GetQueryExecution :=
       [ Ok {| State := Some "RUNNING"; StateChangeReason := None |};
         Ok {| State := Some "CANCELLED"; StateChangeReason := None |} ];
     GetQueryResultsPages := ([], None) |}.

Lemma sendQuery_failed_witness :
  sendQuery failing "cur" "select 1" "123456789012" "us-east-1" "" =
    ([ CallStartQueryExecution
         {| QueryString := "select 1";
            QueryExecutionContext_Database := "cur";
            OutputLocation := "s3://aws-athena-query-results-123456789012-us-east-1/" |};
       CallGetQueryExecution "q-1"; Sleep 2000000000;
       CallGetQueryExecution "q-1"; Sleep 2000000000;
       CallGetQueryExecution "q-1" ],
     Returns ({| Rows := [] |},
              Some "Error Querying Athena, query state is: FAILED, detailed error SYNTAX_ERROR")) ∧
  sendQuery cancelled "cur" "select 1" "123456789012" "us-east-1" "" =
    ([ CallStartQueryExecution
         {| QueryString := "select 1";
            QueryExecutionContext_Database := "cur";
            OutputLocation := "s3://aws-athena-query-results-123456789012-us-east-1/" |};
       CallGetQueryExecution "q-1"; Sleep 2000000000;
       CallGetQueryExecution "q-1" ],
     Panics).
Proof.
  split.
  - apply (sendQuery_failed failing "cur" "select 1" "123456789012" "us-east-1" "" "q-1"
             [ {| State := Some "RUNNING"; StateChangeReason := None |};
               {| State := Some "RUNNING"; StateChangeReason := None |} ]
             {| State := Some "FAILED"; StateChangeReason := Some "SYNTAX_ERROR" |} "FAILED").
    + reflexivity.
    + exists []. split; [reflexivity | repeat constructor].
    + reflexivity.
    + discriminate.
    + discriminate.
  - apply (sendQuery_failed cancelled "cur" "select 1" "123456789012" "us-east-1" "" "q-1"
             [ {| State := Some "RUNNING"; StateChangeReason := None |} ]
             {| State := Some "CANCELLED"; StateChangeReason := None |} "CANCELLED").
    + reflexivity.
    + exists []. split; [reflexivity | repeat constructor].
    + reflexivity.
    + discriminate.
    + discriminate.
Defined.

(** A query that is still queued at the first poll has left no reason
    either: the loop takes QUEUED for the end of the run, and reading the
    reason panics. *)
Example sendQuery_no_reason :
  (sendQuery {| StartQueryExecution := Ok (Some "q-1");
                GetQueryExecution := [Ok {| State := Some "QUEUED";
                                            StateChangeReason := None |}];
                GetQueryResultsPages := ([], None) |}
             "cur" "select 1" "123456789012" "us-east-1" "").2 = Panics.
Proof. reflexivity. Qed.

Definition datum (v : string) : Datum := {| VarCharValue := Some v |}.
Definition absent : Datum := {| VarCharValue := None |}.

Definition succeeded (pages : list Page) : Athena :=
  {| StartQueryExecution := Ok (Some "q-2");
     GetQueryExecution := [ Ok {| State := Some "SUCCEEDED"; StateChangeReason := None |} ];
     GetQueryResultsPages := (pages, None) |}.

(** Two pages; the third row has a nil field under the header. *)
Definition two_pages : list Page :=
  [ [ [datum "service"; datum "cost"]; [datum "EC2"; datum "1.5"] ];
    [ [datum "S3"; absent]; [datum "RDS"; datum "2"] ] ].

Lemma sendQuery_rows_witness :
  (sendQuery (succeeded two_pages) "cur" "select 1" "123456789012" "us-east-1" "").2 =
    Returns ({| Rows := [ {[ "service" := "EC2"; "cost" := "1.5" ]};
                          {[ "service" := "RDS"; "cost" := "2" ]} ] |}, None).
Proof.
  refine (eq_trans
    (proj1 (sendQuery_rows (succeeded two_pages) "cur" "select 1" "123456789012" "us-east-1" ""
              "q-2" [] {| State := Some "SUCCEEDED"; StateChangeReason := None |}
              two_pages [datum "service"; datum "cost"] ["service"; "cost"]
              [ [datum "EC2"; datum "1.5"]; [datum "S3"; absent]; [datum "RDS"; datum "2"] ]
              _ _ _ _ _ _ _)) _).
  - reflexivity.
  - exists []. split; [reflexivity | constructor].
  - reflexivity.
  - reflexivity.
  - reflexivity.
  - reflexivity.
  - repeat constructor.
  - vm_compute. reflexivity.
Defined.

(** What no result set of Athena holds, a row wider than the header: the
    loop does not look beyond the width of the header. *)
Definition wide_row : Row := [datum "EC2"; absent].

Example sendQuery_keeps_wide_row :
  absent ∈ wide_row ∧
  (sendQuery (succeeded [ [ [datum "service"]; wide_row ] ])
             "cur" "select 1" "123456789012" "us-east-1" "").2 =
    Returns ({| Rows := [ {[ "service" := "EC2" ]} ] |}, None).
Proof. split; [right; left | vm_compute; reflexivity]. Qed.

(** The fee of a service and its usage, as the two queries return them. *)
Definition fee_rows : list (gmap string string) :=
  [ {[ "service" := "AmazonEC2RIFee"; "cost" := "100" ]} ].

Definition usage_rows : list (gmap string string) :=
  [ {[ "service" := "AmazonEC2RIFee"; "team" := "x";
       "normalized_amount" := "30"; "amount" := "3" ]};
    {[ "service" := "AmazonEC2RIFee"; "team" := "y";
       "normalized_amount" := "70"; "amount" := "7" ]} ].

(** A fee without usage to carry it. *)
Definition idle_rows : list (gmap string string) :=
  [ {[ "service" := "AmazonEC2RIFee"; "team" := "x";
       "normalized_amount" := "0"; "amount" := "0" ]} ].


(** The figures of that fee: 100, in shares of 30 and 70. *)
Example riUsage_exact :
  index f_zero (riCostPerService (F := Qc) fee_rows) "AmazonEC2RIFee" = Q2Qc 100 ∧
  map Qcanon.this
      (omap (riRowCost (F := Qc) (riUsagePerService usage_rows) (riCostPerService fee_rows))
            (rows_of "AmazonEC2RIFee" usage_rows)) = [inject_Z 30; inject_Z 70].
Proof. split; vm_compute; reflexivity. Qed.

(** Usage figures of 1e308, the float [0x1.1ccf385ebc8ap+1023]: their
    total overflows. *)
Definition huge : string := "1" +:+ string_of_list_ascii (repeat "0"%char 308).

Definition overflow_rows : list (gmap string string) :=
  [ {[ "service" := "AmazonEC2RIFee"; "team" := "x"; "normalized_amount" := huge ]};
    {[ "service" := "AmazonEC2RIFee"; "team" := "y"; "normalized_amount" := huge ]} ].


Example riUsage_floats :
  omap (riRowCost (F := float) (riUsagePerService usage_rows) (riCostPerService fee_rows))
       usage_rows = [30%float; 70%float].
Proof. vm_compute. reflexivity. Qed.

(** Manifests. *)
Definition col (category name : string) : column :=
  {| category := runes category; name := runes name |}.

Example manifest_types :
  CurColumns (ParseCur (NewCurConvert "src" "manifest" "dst" "cur")
                [col "lineitem" "usageamount"; col "lineitem" "productcode"] ["a.csv.gz"])
  = [ "name=lineitem/usageamount, type=DOUBLE, encoding=PLAIN_DICTIONARY";
      "name=lineitem/productcode, type=UTF8, encoding=PLAIN_DICTIONARY" ].
Proof. vm_compute. reflexivity. Qed.

Example manifest_collision :
  let c := ParseCur (NewCurConvert "src" "manifest" "dst" "cur")
             [col "a" "B"; col "a" "b"; col "resourceTags" "user:Name"] [] in
  CurColumns c = [ "name=a/b, type=UTF8, encoding=PLAIN_DICTIONARY";
                   "name=resourcetags/user_name, type=UTF8, encoding=PLAIN_DICTIONARY" ] ∧
  skipCols c = {[ 1%Z := true ]}.
Proof. vm_compute. auto. Qed.


(** * More of costcli *)

(** ** The resolver, from the result back to the rules *)

Section ResolverMore.
Context `{Regexp}.

Lemma exactPass_Some v m value :
  exactPass v m = Some value → ∃ object, object ∈ m ∧ Value object = value ∧ exact_rule v object.
Proof.
  induction m as [|object m IH]; simpl; [discriminate|].
  destruct (findExact v (Match object)) eqn:Hf.
  - intros [= <-]. exists object. split; [left|]. split; [reflexivity|].
    apply findExact_spec. exact Hf.
  - intros Hm. destruct (IH Hm) as (o & Hin & Ho). exists o. split; [right; exact Hin | exact Ho].
Qed.

Lemma exactPass_None v m :
  exactPass v m = None → Forall (λ object, ¬ exact_rule v object) m.
Proof.
  induction m as [|object m IH]; simpl; [constructor|].
  destruct (findExact v (Match object)) eqn:Hf; [discriminate|].
  intros Hm. constructor; [|exact (IH Hm)].
  intros Hx. apply findExact_spec in Hx. congruence.
Qed.

Lemma regexPass_Some v m value :
  regexPass v m = Some value → ∃ object, object ∈ m ∧ Value object = value ∧ regex_rule v object.
Proof.
  induction m as [|object m IH]; simpl; [discriminate|].
  destruct (findRegex v (Regex object)) eqn:Hf.
  - intros [= <-]. exists object. split; [left|]. split; [reflexivity|].
    apply findRegex_spec. exact Hf.
  - intros Hm. destruct (IH Hm) as (o & Hin & Ho). exists o. split; [right; exact Hin | exact Ho].
Qed.

Lemma regexPass_None v m :
  regexPass v m = None → Forall (λ object, ¬ regex_rule v object) m.
Proof.
  induction m as [|object m IH]; simpl; [constructor|].
  destruct (findRegex v (Regex object)) eqn:Hf; [discriminate|].
  intros Hm. constructor; [|exact (IH Hm)].
  intros Hx. apply findRegex_spec in Hx. congruence.
Qed.

(** X1. A pattern that does not compile is inert, and the order of the
    patterns of a list does not matter: [findRegex] gives the same answer
    on the list without its malformed patterns, and on any rearrangement of
    the list. *)
Theorem findRegex_inert (value : string) (list : list string) :
  findRegex value list = findRegex value (filter (λ p, is_Some (regexp_Compile p)) list) ∧
  (∀ list', list ≡ₚ list' → findRegex value list = findRegex value list').
Proof.
  split.
  - induction list as [|p list IH]; [reflexivity|].
    rewrite filter_cons. simpl. destruct (regexp_Compile p) as [re|] eqn:Hc.
    + rewrite decide_True by eauto. simpl. rewrite Hc, IH. reflexivity.
    + rewrite decide_False by (intros [? [=]]). exact IH.
  - intros list' Hp.
    destruct (findRegex value list) eqn:H1; destruct (findRegex value list') eqn:H2;
      try reflexivity; exfalso.
    + apply findRegex_spec in H1 as (p & re & Hin & Hc & Hm). rewrite Hp in Hin.
      assert (findRegex value list' = true) by (apply findRegex_spec; exists p, re; auto).
      congruence.
    + apply findRegex_spec in H2 as (p & re & Hin & Hc & Hm). rewrite <- Hp in Hin.
      assert (findRegex value list = true) by (apply findRegex_spec; exists p, re; auto).
      congruence.
Qed.

(** X2. The resolver answers NO_MATCH exactly when no rule matches the
    cell, exactly or by a pattern, and the cell is empty or matches a
    blacklist pattern of its column. *)
Theorem findTagMatch_no_match_iff (v : string) (m : list Map) (tag : string)
    (blacklist : gmap string (list string)) :
  (∃ err, findTagMatch v m tag blacklist = Error err) ↔
  Forall (λ object, ¬ exact_rule v object) m ∧
  Forall (λ object, ¬ regex_rule v object) m ∧
  (blacklisted v tag blacklist ∨ v = "").
Proof.
  unfold findTagMatch. split.
  - intros [err Herr].
    destruct (exactPass v m) eqn:He; [discriminate|].
    destruct (regexPass v m) eqn:Hr; [discriminate|].
    split; [apply exactPass_None, He|]. split; [apply regexPass_None, Hr|].
    pose proof (blacklisted_spec v tag blacklist) as Hb.
    destruct (match blacklist !! tag with Some l => findRegex v l | None => false end).
    + left. apply Hb. reflexivity.
    + right. case_bool_decide as Hlen; [discriminate|].
      destruct v; [reflexivity | simpl in Hlen; lia].
  - intros (He & Hr & Hcase).
    rewrite (exactPass_none _ _ He), (regexPass_none _ _ Hr).
    pose proof (blacklisted_spec v tag blacklist) as Hb.
    destruct (match blacklist !! tag with Some l => findRegex v l | None => false end).
    + eexists. reflexivity.
    + destruct Hcase as [Hbl| ->].
      * apply Hb in Hbl. discriminate.
      * eexists. reflexivity.
Qed.

(** X3. A label that the resolver returns is the value of a rule of the
    axis that matches the cell, or it is the cell itself, which is then not
    empty and matches no blacklist pattern of its column. *)
Theorem findTagMatch_label (v : string) (m : list Map) (tag : string)
    (blacklist : gmap string (list string)) (label : string) :
  findTagMatch v m tag blacklist = Ok label →
  (∃ object, object ∈ m ∧ Value object = label ∧ (exact_rule v object ∨ regex_rule v object)) ∨
  (label = v ∧ v ≠ "" ∧ ¬ blacklisted v tag blacklist).
Proof.
  unfold findTagMatch.
  destruct (exactPass v m) as [value|] eqn:He.
  { intros [= <-]. left. apply exactPass_Some in He as (o & Hin & Hv & Hx). eauto. }
  destruct (regexPass v m) as [value|] eqn:Hr.
  { intros [= <-]. left. apply regexPass_Some in Hr as (o & Hin & Hv & Hx). eauto. }
  pose proof (blacklisted_spec v tag blacklist) as Hb.
  destruct (match blacklist !! tag with Some l => findRegex v l | None => false end);
    [discriminate|].
  case_bool_decide as Hlen; [|discriminate].
  intros [= <-]. right. split; [reflexivity|]. split.
  - intros ->. simpl in Hlen. lia.
  - intros Hbl. apply Hb in Hbl. discriminate.
Qed.

(** ** The aggregator, group by group *)

Context {F : Type} `{Float64 F, ParseFloat F}.

(** The composite key of a row, and its cost when that parses. *)
Definition rowKey (c : Config) (row : gmap string string) : string :=
  strings_Join (rowTags row c) ",".

Definition rowCost (row : gmap string string) : option F :=
  strconv_ParseFloat (index "" row "cost").

(** The costs of the rows of the group [k], in the order of the rows. *)
Definition groupCosts (c : Config) (k : string) (rows : list (gmap string string)) : list F :=
  omap (λ row, if decide (rowKey c row = k) then rowCost row else None) rows.

Lemma processRow_fold (c : Config) (k : string) rows (r : Results F) :
  tagCosts (fold_left (processRow c) rows r) !! k =
  match groupCosts c k rows with
  | [] => tagCosts r !! k
  | costs => Some (fold_left f_add costs (index f_zero (tagCosts r) k))
  end.
Proof.
  revert r. induction rows as [|row rows IH]; intros r; [reflexivity|].
  simpl fold_left. rewrite IH. unfold groupCosts. cbn [omap list_omap].
  fold (groupCosts c k rows). unfold processRow, rowCost. fold (rowKey c row).
  destruct (strconv_ParseFloat (index "" row "cost")) as [f|] eqn:Hf.
  - destruct (decide (rowKey c row = k)) as [->|Hne]; simpl tagCosts.
    + rewrite index_insert_eq, lookup_insert_eq.
      destruct (groupCosts c _ rows); reflexivity.
    + rewrite index_insert_ne, lookup_insert_ne by exact Hne. reflexivity.
  - destruct (decide (rowKey c row = k)); reflexivity.
Qed.

(** X4. A group is in the results exactly when one of its rows has a cost
    that parses, and its amount is then the sum of those costs, added one
    by one onto zero in the order of the rows; rows whose cost does not
    parse change nothing. *)
Theorem processResults_groups (resp : AthenaResponse) (c : Config) (k : string) :
  tagCosts (processResults resp c) !! k =
  match groupCosts c k (Rows resp) with
  | [] => None
  | costs => Some (fold_left f_add costs f_zero)
  end.
Proof.
  unfold processResults. rewrite processRow_fold. simpl.
  destruct (groupCosts c k (Rows resp)); reflexivity.
Qed.

(** X5. The composite key of a row depends on nothing but its service and
    the candidate columns of the axes: two rows that agree on those get the
    same key, whatever else they hold. *)
Theorem rowTags_frame (c : Config) (row row' : gmap string string) :
  index "" row "service" = index "" row' "service" →
  Forall (λ tm, Forall (λ tag, index "" row tag = index "" row' tag) (Tags tm))
         (Config_TagMap c) →
  rowTags row c = rowTags row' c.
Proof.
  intros Hs Hall. unfold rowTags. rewrite Hs. f_equal.
  induction Hall as [|tm tms Htm _ IH]; [reflexivity|].
  simpl. rewrite IH. f_equal. unfold axisTag.
  assert (Hfirst : firstTag row (TagMap_Map tm) (Config_TagBlacklist c) (Tags tm)
                   = firstTag row' (TagMap_Map tm) (Config_TagBlacklist c) (Tags tm)).
  { induction Htm as [|tag tags Htag _ IHt]; [reflexivity|].
    simpl. rewrite Htag, IHt. reflexivity. }
  rewrite Hfirst. reflexivity.
Qed.

End ResolverMore.


(** ** The query driver, on any script *)

Section DriverMore.

(** One turn of the poll loop. *)
Lemma pollLoop_cons id answer rest :
  pollLoop id (answer :: rest) =
  match answer with
  | Error err =>
      ([CallGetQueryExecution id],
       Returns (Error ("Error Querying Athena, GetQueryExecution: " +:+ err)))
  | Ok qrop =>
      match State qrop with
      | None => ([CallGetQueryExecution id], Panics)
      | Some state =>
          if bool_decide (state ≠ "RUNNING") then ([CallGetQueryExecution id], Returns (Ok qrop))
          else (CallGetQueryExecution id :: Sleep duration :: (pollLoop id rest).1,
                (pollLoop id rest).2)
      end
  end.
Proof.
  simpl. destruct answer as [qrop|err]; [|reflexivity]. simpl.
  destruct (State qrop) as [state|]; [|reflexivity]. simpl.
  case_bool_decide; [reflexivity|]. simpl.
  destruct (pollLoop id rest) as [t [a| |]]; reflexivity.
Qed.

(** What the poll loop does on any script of answers: it calls nothing
    but [GetQueryExecution] and [Sleep], and the status it breaks with is
    the first that is not RUNNING. *)
Lemma pollLoop_inv id answers :
  Forall (λ e, e = CallGetQueryExecution id ∨ e = Sleep duration) (pollLoop id answers).1 ∧
  ∀ st, (pollLoop id answers).2 = Returns (Ok st) →
        ∃ running state, runs_then running st answers ∧
                         State st = Some state ∧ state ≠ "RUNNING".
Proof.
  induction answers as [|answer rest [IHt IHo]].
  - split; [constructor | discriminate].
  - rewrite pollLoop_cons. destruct answer as [qrop|err].
    2: { split; [repeat constructor; auto | discriminate]. }
    destruct (State qrop) as [state|] eqn:Hstate.
    2: { split; [repeat constructor; auto | discriminate]. }
    case_bool_decide as Hrun.
    + split; [repeat constructor; auto|]. simpl. intros st [= <-].
      exists [], state. split; [|auto]. exists rest. split; [reflexivity | constructor].
    + assert (state = "RUNNING") as -> by (destruct (decide (state = "RUNNING")); tauto).
      simpl. split; [constructor; [auto|]; constructor; [auto | exact IHt]|]. intros st Hst.
      destruct (IHo st Hst) as (running & state' & (rest' & -> & Hrun') & Hs & Hne).
      exists (qrop :: running), state'. split; [|auto].
      exists rest'. split; [reflexivity | constructor; assumption].
Qed.

(** Decoding pages calls nothing. *)
Lemma appendNames_silent colNames data : (appendNames colNames data).1 = [].
Proof.
  revert colNames. induction data as [|d data IH]; intros colNames; [reflexivity|].
  simpl. destruct (VarCharValue d) as [v|]; [|reflexivity]. simpl.
  specialize (IH (colNames ++ [v])). destruct (appendNames (colNames ++ [v]) data) as [t o].
  simpl in IH. subst t. destruct o; reflexivity.
Qed.

Lemma rowStep_silent st row : (rowStep st row).1 = [].
Proof.
  unfold rowStep. destruct st as [colNames rows]. case_bool_decide.
  - pose proof (appendNames_silent colNames row) as Hs.
    simpl. destruct (appendNames colNames row) as [t o]. simpl in Hs. subst t.
    destruct o; reflexivity.
  - destruct (decodeFrom colNames 0 row ∅) as [result skip].
    destruct (bool_decide (0 < size result) && negb skip); reflexivity.
Qed.

Lemma rowsLoop_silent st rows : (rowsLoop st rows).1 = [].
Proof.
  revert st. induction rows as [|row rows IH]; intros st; [reflexivity|].
  simpl. pose proof (rowStep_silent st row) as Hs.
  destruct (rowStep st row) as [t o]. simpl in Hs. subst t.
  destruct o as [st'| |]; [|reflexivity..]. simpl.
  specialize (IH st'). destruct (rowsLoop st' rows) as [t' o']. exact IH.
Qed.

(** [sendQuery], case by case. *)
Lemma sendQuery_cases (svc : Athena) (db sql account region s3ResultsLocation : string) :
  sendQuery svc db sql account region s3ResultsLocation =
  let start := CallStartQueryExecution (request db sql account region s3ResultsLocation) in
  match StartQueryExecution svc with
  | Error err =>
      ([start],
       Returns ({| Rows := [] |}, Some ("Error Querying Athena, StartQueryExecution: " +:+ err)))
  | Ok None => ([start], Panics)
  | Ok (Some id) =>
      let polled := pollLoop id (GetQueryExecution svc) in
      match polled.2 with
      | Panics => (start :: polled.1, Panics)
      | Polling => (start :: polled.1, Polling)
      | Returns (Error err) => (start :: polled.1, Returns ({| Rows := [] |}, Some err))
      | Returns (Ok qrop) =>
          match State qrop with
          | None => (start :: polled.1, Panics)
          | Some state =>
              if bool_decide (state ≠ "SUCCEEDED") then
                match StateChangeReason qrop with
                | None => (start :: polled.1, Panics)
                | Some reason =>
                    (start :: polled.1,
                     Returns ({| Rows := [] |},
                              Some ("Error Querying Athena, query state is: " +:+ state
                                    +:+ ", detailed error " +:+ reason)))
                end
              else
                (start :: polled.1 ++ [CallGetQueryResultsPages id],
                 match (rowsLoop ([], []) (concat (GetQueryResultsPages svc).1)).2 with
                 | Returns st =>
                     Returns ({| Rows := st.2 |},
                              match (GetQueryResultsPages svc).2 with
                              | Some err =>
                                  Some ("Error Querying Athena, GetQueryResultsPages: " +:+ err)
                              | None => None
                              end)
                 | Panics => Panics
                 | Polling => Polling
                 end)
          end
      end
  end.
Proof.
  unfold sendQuery. fold (request db sql account region s3ResultsLocation).
  destruct (StartQueryExecution svc) as [[id|]|err]; try reflexivity. simpl.
  destruct (pollLoop id (GetQueryExecution svc)) as [t [[qrop|err]| |]]; simpl;
    rewrite ?app_nil_r; try reflexivity.
  destruct (State qrop) as [state|]; simpl; rewrite ?app_nil_r; try reflexivity.
  case_bool_decide; simpl.
  - destruct (StateChangeReason qrop); simpl; rewrite ?app_nil_r; reflexivity.
  - rewrite pagesLoop_concat.
    pose proof (rowsLoop_silent ([], []) (concat (GetQueryResultsPages svc).1)) as Hs.
    destruct (rowsLoop ([], []) (concat (GetQueryResultsPages svc).1)) as [t' o'].
    simpl in Hs. subst t'. destruct o' as [st| |]; simpl.
    + destruct (GetQueryResultsPages svc).2; simpl; rewrite ?app_nil_r; reflexivity.
    + reflexivity.
    + reflexivity.
Qed.

(** X6. [sendQuery] asks for the results of a query only when the engine
    has answered SUCCEEDED after nothing but RUNNING, and it returns
    without an error only in that case and when the paging reported no
    error either. *)
Theorem sendQuery_success_only (svc : Athena) (db sql account region s3ResultsLocation : string) :
  (∀ id, CallGetQueryResultsPages id ∈ (sendQuery svc db sql account region s3ResultsLocation).1 →
     StartQueryExecution svc = Ok (Some id) ∧
     ∃ running st, runs_then running st (GetQueryExecution svc) ∧
                   State st = Some "SUCCEEDED") ∧
  (∀ resp, (sendQuery svc db sql account region s3ResultsLocation).2 = Returns (resp, None) →
     (GetQueryResultsPages svc).2 = None ∧
     ∃ id running st, StartQueryExecution svc = Ok (Some id) ∧
                      runs_then running st (GetQueryExecution svc) ∧
                      State st = Some "SUCCEEDED").
Proof.
  rewrite sendQuery_cases. cbv zeta.
  assert (Hstart : ∀ id' (t : list event),
            Forall (λ e, ∃ id, e = CallGetQueryExecution id ∨ e = Sleep duration) t →
            CallGetQueryResultsPages id'
              ∈ CallStartQueryExecution (request db sql account region s3ResultsLocation) :: t →
            False).
  { intros id' t Ht Hin. apply elem_of_cons in Hin as [[=]|Hin].
    rewrite Forall_forall in Ht. destruct (Ht _ Hin) as (? & [|]); discriminate. }
  destruct (StartQueryExecution svc) as [[id|]|err] eqn:Hs.
  2, 3: split; [intros id' Hin; destruct (Hstart id' [] ltac:(constructor) Hin) | discriminate].
  destruct (pollLoop_inv id (GetQueryExecution svc)) as [Ht Ho].
  assert (Ht' : Forall (λ e, ∃ id, e = CallGetQueryExecution id ∨ e = Sleep duration)
                  (pollLoop id (GetQueryExecution svc)).1).
  { eapply Forall_impl; [exact Ht|]. intros e He. exists id. exact He. }
  cbv zeta. destruct (pollLoop id (GetQueryExecution svc)) as [t o]. simpl in *.
  destruct o as [[qrop|err]| |].
  2, 3, 4: split; [intros id' Hin; destruct (Hstart id' t Ht' Hin) | discriminate].
  destruct (Ho qrop eq_refl) as (running & state & Hruns & Hstate & Hne).
  rewrite Hstate. case_bool_decide as Hsucc.
  { destruct (StateChangeReason qrop);
      (split; [intros id' Hin; destruct (Hstart id' t Ht' Hin) | discriminate]). }
  assert (state = "SUCCEEDED") as -> by (destruct (decide (state = "SUCCEEDED")); tauto).
  split.
  - intros id' Hin. simpl in Hin. rewrite app_comm_cons in Hin.
    apply elem_of_app in Hin as [Hin|Hin]; [destruct (Hstart id' t Ht' Hin)|].
    apply list_elem_of_singleton in Hin. injection Hin as ->.
    split; [reflexivity | eauto].
  - intros resp. simpl.
    destruct (rowsLoop ([], []) (concat (GetQueryResultsPages svc).1)).2 as [st| |];
      [|discriminate..].
    destruct (GetQueryResultsPages svc).2; [discriminate|]. intros _.
    split; [reflexivity | eauto 6].
Qed.

(** X7. The loop has no deadline: while the engine answers RUNNING,
    [sendQuery] neither returns nor gives up; it has asked once and slept
    two seconds for each answer. *)
Theorem sendQuery_still_running (svc : Athena) (db sql account region s3ResultsLocation : string)
    (id : string) (answers : list QueryExecutionStatus) :
  StartQueryExecution svc = Ok (Some id) →
  GetQueryExecution svc = map Ok answers →
  Forall (λ q, State q = Some "RUNNING") answers →
  sendQuery svc db sql account region s3ResultsLocation =
    (CallStartQueryExecution (request db sql account region s3ResultsLocation)
       :: polls id answers, Polling).
Proof.
  intros Hstart Hanswers Hrun. rewrite sendQuery_cases, Hstart, Hanswers. cbv zeta.
  assert (Hpoll : pollLoop id (map Ok answers) = (polls id answers, Polling)).
  { clear Hanswers. induction Hrun as [|q answers Hq _ IH]; [reflexivity|].
    rewrite map_cons, pollLoop_cons, Hq, IH. reflexivity. }
  rewrite Hpoll. reflexivity.
Qed.

(** The same service, delivering its result set in other pages. *)
Definition with_pages (svc : Athena) (pages : list Page) : Athena :=
  {| StartQueryExecution := StartQueryExecution svc;
     GetQueryExecution := GetQueryExecution svc;
     GetQueryResultsPages := (pages, (GetQueryResultsPages svc).2) |}.

(** X8. Paging is transparent: how the engine cuts the result set into
    pages changes neither what [sendQuery] returns nor what it calls. *)
Theorem sendQuery_paging (svc : Athena) (db sql account region s3ResultsLocation : string)
    (pages pages' : list Page) :
  concat pages = concat pages' →
  sendQuery (with_pages svc pages) db sql account region s3ResultsLocation =
  sendQuery (with_pages svc pages') db sql account region s3ResultsLocation.
Proof.
  intros Hconcat. rewrite !sendQuery_cases. simpl. rewrite Hconcat. reflexivity.
Qed.

Lemma labelled_lookup (labels : list string) :
  NoDup labels →
  ∀ (vs : list string) (m0 : gmap string string),
    (∀ j label, labels !! j = Some label →
       labelled labels vs m0 !! label =
       match vs !! j with Some v => Some v | None => m0 !! label end) ∧
    (∀ label, label ∉ labels → labelled labels vs m0 !! label = m0 !! label).
Proof.
  induction 1 as [|l0 ls Hl0 Hnd IH]; intros vs m0.
  - split; [intros j label Hj; discriminate | reflexivity].
  - destruct vs as [|v0 vs].
    + split; [intros j label _; rewrite lookup_nil; reflexivity | reflexivity].
    + change (labelled (l0 :: ls) (v0 :: vs) m0) with (labelled ls vs (<[l0 := v0]> m0)).
      destruct (IH vs (<[l0 := v0]> m0)) as [IH1 IH2]. split.
      * intros [|j] label Hj; simpl in Hj.
        -- injection Hj as <-. rewrite (IH2 _ Hl0), lookup_insert_eq. reflexivity.
        -- rewrite (IH1 _ _ Hj). simpl.
           assert (l0 ≠ label).
           { intros <-. apply Hl0. apply list_elem_of_lookup. eauto. }
           rewrite lookup_insert_ne by assumption. reflexivity.
      * intros label Hnin. apply not_elem_of_cons in Hnin as [Hne Hnin].
        rewrite (IH2 _ Hnin), lookup_insert_ne by congruence. reflexivity.
Qed.

(** X9. Under a header of distinct labels, a row that is kept reads back
    field by field: the value under a label is the value of the field at
    the position of the label, and the row has no other keys than the
    labels of its fields. *)
Theorem decodeRow_lookup (colNames : list string) (row : Row) (m : gmap string string) :
  NoDup colNames →
  decodeRow colNames row = Some m →
  (∀ j label, colNames !! j = Some label → j < length row →
              ∃ v, row !! j = Some {| VarCharValue := Some v |} ∧ m !! label = Some v) ∧
  (∀ label, is_Some (m !! label) →
            ∃ j, colNames !! j = Some label ∧ j < length row).
Proof.
  intros Hnd Hdec. unfold decodeRow in Hdec.
  destruct (values (take (length colNames) row)) as [vs|] eqn:Hvs; [|discriminate].
  assert (Hm : m = labelled colNames vs ∅) by (destruct vs; [discriminate | congruence]).
  clear Hdec. subst m. apply mapM_Some in Hvs.
  pose proof (Forall2_length _ _ _ Hvs) as Hlen. rewrite length_take in Hlen.
  destruct (labelled_lookup colNames Hnd vs ∅) as [H1 H2]. split.
  - intros j label Hj Hrow. pose proof (lookup_lt_Some _ _ _ Hj) as Hjn.
    destruct (lookup_lt_is_Some_2 vs j ltac:(lia)) as [v Hv].
    destruct (Forall2_lookup_r _ _ _ _ _ Hvs Hv) as (d & Hd & Hdv).
    rewrite lookup_take_lt in Hd by lia.
    exists v. split.
    + destruct d as [o]. simpl in Hdv. subst o. exact Hd.
    + rewrite (H1 _ _ Hj), Hv. reflexivity.
  - intros label [v Hv]. destruct (decide (label ∈ colNames)) as [Hin|Hnin].
    + apply list_elem_of_lookup in Hin as [j Hj]. exists j. split; [exact Hj|].
      rewrite (H1 _ _ Hj) in Hv. destruct (vs !! j) eqn:Hvj.
      * apply lookup_lt_Some in Hvj. lia.
      * rewrite lookup_empty in Hv. discriminate.
    + rewrite (H2 _ Hnin), lookup_empty in Hv. discriminate.
Qed.

End DriverMore.

(** ** The RI allocator, map by map *)

Section AllocatorMore.
Context {F : Type} `{Float64 F, ParseFloat F}.

Lemma riCostPerService_snoc rows row :
  riCostPerService (rows ++ [row]) = riCostStep (riCostPerService rows) row.
Proof. unfold riCostPerService. rewrite fold_left_app. reflexivity. Qed.

(** X10. The fee of a service is the cost of the last row of the ricost
    query that names the service and has a cost that parses; a service
    without such a row has no fee. *)
Theorem riCostPerService_lookup (rows : list (gmap string string)) (s : string) :
  riCostPerService rows !! s =
  last (omap (λ row, if decide (service row = s) then rowCost row else None) rows).
Proof.
  induction rows as [|row rows IH] using rev_ind; [reflexivity|].
  rewrite riCostPerService_snoc, omap_app. cbn [omap list_omap].
  unfold riCostStep, rowCost. fold (service row).
  destruct (strconv_ParseFloat (index "" row "cost")) as [f|].
  - destruct (decide (service row = s)) as [->|Hne].
    + rewrite lookup_insert_eq, last_snoc. reflexivity.
    + rewrite lookup_insert_ne, app_nil_r by exact Hne. exact IH.
  - destruct (decide (service row = s)); rewrite app_nil_r; exact IH.
Qed.

Lemma riUsageStep_keys m row s :
  is_Some (riUsageStep m row !! s) ↔
  is_Some (m !! s) ∨ (service row = s ∧ is_Some (rowUsage row)).
Proof.
  rewrite riUsageStep_rowUsage. destruct (rowUsage row) as [f|].
  - destruct (decide (service row = s)) as [->|Hne].
    + rewrite lookup_insert_eq. split; [eauto | eauto].
    + rewrite lookup_insert_ne by exact Hne. split; [auto | intros [?|[? _]]; [auto | contradiction]].
  - split; [auto | intros [?|[_ [? [=]]]]; auto].
Qed.

Lemma riUsagePerService_fold_keys rows m s :
  is_Some (fold_left riUsageStep rows m !! s) ↔
  is_Some (m !! s) ∨ ∃ row, row ∈ rows ∧ service row = s ∧ is_Some (rowUsage row).
Proof.
  revert m. induction rows as [|row rows IH]; intros m; simpl.
  - split; [auto | intros [?|(row & Hin & _)]; [auto | inversion Hin]].
  - rewrite IH, riUsageStep_keys. split.
    + intros [[?|[Hs Hu]]|(row' & Hin & Hs & Hu)]; [auto|right..].
      * exists row. split; [left | auto].
      * exists row'. split; [right; exact Hin | auto].
    + intros [?|(row' & Hin & Hs & Hu)]; [auto|].
      apply elem_of_cons in Hin as [->|Hin]; [auto|]. right. eauto.
Qed.

(** X11. A service has a usage total exactly when one of its rows has a
    usage figure, and a row gets a synthetic cost exactly when it has a
    usage figure; so the total that a synthetic cost is divided by is an
    entry that the rows of the same query made, never the zero of a
    missing key. *)
Theorem riUsagePerService_keys (rows : list (gmap string string)) (cost : gmap string F) :
  (∀ s, is_Some (riUsagePerService rows !! s) ↔
        ∃ row, row ∈ rows ∧ service row = s ∧ is_Some (rowUsage row)) ∧
  (∀ usage row, is_Some (riRowCost usage cost row) ↔ is_Some (rowUsage row)) ∧
  (∀ row, row ∈ rows → is_Some (riRowCost (riUsagePerService rows) cost row) →
          is_Some (riUsagePerService rows !! service row)).
Proof.
  assert (Hkeys : ∀ s, is_Some (riUsagePerService rows !! s) ↔
                       ∃ row, row ∈ rows ∧ service row = s ∧ is_Some (rowUsage row)).
  { intros s. unfold riUsagePerService. rewrite riUsagePerService_fold_keys, lookup_empty.
    split; [intros [[? [=]]|?]; assumption | auto]. }
  assert (Hcost : ∀ usage row, is_Some (riRowCost usage cost row) ↔ is_Some (rowUsage row)).
  { intros usage row. rewrite riRowCost_rowUsage. apply fmap_is_Some. }
  split; [exact Hkeys|]. split; [exact Hcost|].
  intros row Hin Hc. apply Hkeys. exists row. split; [exact Hin|]. split; [reflexivity|].
  apply (Hcost (riUsagePerService rows)). exact Hc.
Qed.

(** X12. [processRIUsage] hands the rows it was given on as they are: on
    an error of either query it returns them alone, with that error;
    otherwise it appends one row for each row of the usage query, in
    order, which differs from that row in the column [cost] at most, and
    only when the row has a usage figure. *)
Theorem processRIUsage_frame `{FormatFloat F} (tagCost : AthenaResponse) :
  (∀ err riUsage, processRIUsage (Error err) riUsage tagCost = (tagCost, Some err)) ∧
  (∀ riCost err, processRIUsage (Ok riCost) (Error err) tagCost = (tagCost, Some err)) ∧
  (∀ riCost riUsage, ∃ rows,
     processRIUsage (Ok riCost) (Ok riUsage) tagCost
       = ({| Rows := Rows tagCost ++ rows |}, None) ∧
     Forall2 (λ row row', delete "cost" row' = delete "cost" row ∧
                          (rowUsage row = None → row' = row))
             (Rows riUsage) rows).
Proof.
  split; [reflexivity|]. split; [reflexivity|]. intros riCost riUsage.
  eexists. split; [apply processRIUsage_rows|].
  apply Forall2_fmap_r, Forall_Forall2_diag, Forall_forall. intros row _. unfold compose.
  rewrite riRowCost_rowUsage. destruct (rowUsage row) as [f|]; simpl.
  - split; [apply delete_insert_eq | discriminate].
  - split; reflexivity.
Qed.

End AllocatorMore.

(** ** Strings *)

Lemma length_append (s t : string) :
  String.length (s +:+ t) = String.length s + String.length t.
Proof. induction s as [|a s IH]; simpl; [reflexivity | rewrite IH; reflexivity]. Qed.

Lemma len_append (s t : string) : len (s +:+ t) = (len s + len t)%Z.
Proof. unfold len. rewrite length_append. lia. Qed.

Lemma len_nonneg (s : string) : (0 ≤ len s)%Z.
Proof. unfold len. lia. Qed.

Lemma substring_all (s : string) : String.substring 0 (String.length s) s = s.
Proof. induction s as [|a s IH]; simpl; [reflexivity | rewrite IH; reflexivity]. Qed.

Lemma substring_append_l (s t : string) :
  String.substring 0 (String.length s) (s +:+ t) = s.
Proof.
  induction s as [|a s IH]; simpl; [destruct t; reflexivity | rewrite IH; reflexivity].
Qed.

Lemma substring_append_r (s t : string) (n : nat) :
  String.substring (String.length s) n (s +:+ t) = String.substring 0 n t.
Proof. induction s as [|a s IH]; simpl; [reflexivity | exact IH]. Qed.

Lemma append_nil_r (s : string) : s +:+ "" = s.
Proof.
  induction s as [|a s IH]; [reflexivity|].
  change (String a (s +:+ "") = String a s). rewrite IH. reflexivity.
Qed.

(** The slice of the middle of three parts. *)
Lemma slice_middle (s t u : string) :
  slice (s +:+ t +:+ u) (len s) (len s + len t) = Some t.
Proof.
  unfold slice. rewrite !len_append.
  pose proof (len_nonneg s). pose proof (len_nonneg t). pose proof (len_nonneg u).
  rewrite bool_decide_eq_true_2 by lia. f_equal.
  replace (len s + len t - len s)%Z with (len t) by lia. unfold len. rewrite !Nat2Z.id.
  rewrite substring_append_r. apply substring_append_l.
Qed.

Lemma slice_prefix (s t : string) : slice (s +:+ t) 0 (len s) = Some s.
Proof. exact (slice_middle "" s t). Qed.

Lemma slice_suffix (s t : string) : slice (s +:+ t) (len s) (len (s +:+ t)) = Some t.
Proof.
  pose proof (slice_middle s t "") as Hs. rewrite !append_nil_r in Hs.
  rewrite len_append. exact Hs.
Qed.

Lemma concat_cons (x : string) (l : list string) :
  String.concat "" (x :: l) = x +:+ String.concat "" l.
Proof. destruct l as [|y l]; [symmetry; apply append_nil_r | reflexivity]. Qed.

Lemma concat_app (l l' : list string) :
  String.concat "" (l ++ l') = String.concat "" l +:+ String.concat "" l'.
Proof.
  induction l as [|x l IH]; [reflexivity|].
  rewrite <- app_comm_cons, !concat_cons, IH, append_assoc. reflexivity.
Qed.

(** A loop that appends one item for each element. *)
Lemma fold_left_append {A : Type} (item : A → string) (l : list A) (acc : string) :
  fold_left (λ acc x, acc +:+ item x) l acc = acc +:+ String.concat "" (map item l).
Proof.
  revert acc. induction l as [|x l IH]; intros acc; cbn [fold_left map].
  - symmetry. apply append_nil_r.
  - rewrite IH, concat_cons, append_assoc. reflexivity.
Qed.

(** Items that each end in a separator are the items joined by the
    separator, and one more separator. *)
Lemma concat_terminated {A : Type} (item : A → string) (sep : string) (l : list A) :
  l ≠ [] →
  String.concat "" (map (λ x, item x +:+ sep) l) = String.concat sep (map item l) +:+ sep.
Proof.
  induction l as [|x l IH]; [congruence|]. intros _.
  cbn [map]. rewrite concat_cons. destruct l as [|y l]; [apply append_nil_r|].
  rewrite IH by discriminate.
  change (String.concat sep (item x :: map item (y :: l)))
    with (item x +:+ sep +:+ String.concat sep (map item (y :: l))).
  rewrite !append_assoc. reflexivity.
Qed.

(** ** [main]: the column list *)

Section ColumnList.

Definition quoted (tag : string) : string := quote +:+ tag +:+ quote.

Lemma appendTags_concat tags tagmap :
  appendTags tags tagmap =
  tags +:+ String.concat "" (map (λ tag, quoted tag +:+ ",") (concat (map Tags tagmap))).
Proof.
  unfold appendTags. revert tags.
  induction tagmap as [|tm tagmap IH]; intros tags; cbn [fold_left map concat].
  - symmetry. apply append_nil_r.
  - rewrite IH, (fold_left_append (λ tag, quote +:+ tag +:+ quote +:+ ",")).
    rewrite map_app, concat_app, append_assoc. f_equal. f_equal. f_equal.
    apply map_ext. intros tag. unfold quoted. rewrite !append_assoc. reflexivity.
Qed.

(** X13. When the configuration file sets no [Tags], the column list that
    [main] puts into the queries is the candidate columns of all axes, in
    the order of the configuration, each in double quotes, joined by
    commas; with no candidate column at all, computing it panics. *)
Theorem confTags_join (conf : Config) :
  Config_Tags conf = "" →
  confTags conf =
  match concat (map Tags (Config_TagMap conf)) with
  | [] => None
  | tags => Some (strings_Join (map quoted tags) ",")
  end.
Proof.
  intros Hempty. unfold confTags. rewrite appendTags_concat, Hempty.
  destruct (concat (map Tags (Config_TagMap conf))) as [|tag tags] eqn:Hall; [reflexivity|].
  rewrite concat_terminated by discriminate. fold (strings_Join (map quoted (tag :: tags)) ",").
  set (joined := strings_Join (map quoted (tag :: tags)) ",").
  change ("" +:+ joined +:+ ",") with (joined +:+ ",").
  rewrite len_append. change (len ",") with 1%Z.
  replace (len joined + 1 - 1)%Z with (len joined) by lia.
  apply slice_prefix.
Qed.

End ColumnList.

(** * More of curconvert *)

(** ** Paths *)

(** The byte [a] occurs in [s]. *)
Fixpoint occurs (a : ascii) (s : string) : bool :=
  match s with
  | EmptyString => false
  | String b s' => bool_decide (a = b) || occurs a s'
  end.

Lemma occurs_append a s t : occurs a (s +:+ t) = occurs a s || occurs a t.
Proof.
  induction s as [|b s IH]; [reflexivity|].
  change (occurs a (String b (s +:+ t)) = occurs a (String b s) || occurs a t).
  simpl. rewrite IH, orb_assoc. reflexivity.
Qed.

Lemma len_cons a s : len (String a s) = (len s + 1)%Z.
Proof. unfold len. simpl. lia. Qed.

Lemma prefix_single a b s : String.prefix (String a "") (String b s) = bool_decide (a = b).
Proof.
  simpl. destruct (ascii_dec a b) as [->|Hne].
  - rewrite bool_decide_eq_true_2 by reflexivity. destruct s; reflexivity.
  - rewrite bool_decide_eq_false_2 by exact Hne. reflexivity.
Qed.

Lemma strings_Index_cons a b s :
  strings_Index (String b s) (String a "") =
  if bool_decide (a = b) then 0%Z
  else if bool_decide (strings_Index s (String a "") < 0)%Z then (-1)%Z
       else (strings_Index s (String a "") + 1)%Z.
Proof.
  change (strings_Index (String b s) (String a ""))
    with (if String.prefix (String a "") (String b s) then 0%Z
          else if bool_decide (strings_Index s (String a "") < 0)%Z then (-1)%Z
               else (strings_Index s (String a "") + 1)%Z).
  rewrite prefix_single. reflexivity.
Qed.

Lemma strings_LastIndex_cons a b s :
  strings_LastIndex (String b s) (String a "") =
  if bool_decide (0 ≤ strings_LastIndex s (String a ""))%Z
  then (strings_LastIndex s (String a "") + 1)%Z
  else if bool_decide (a = b) then 0%Z else (-1)%Z.
Proof.
  change (strings_LastIndex (String b s) (String a ""))
    with (if bool_decide (0 ≤ strings_LastIndex s (String a ""))%Z
          then (strings_LastIndex s (String a "") + 1)%Z
          else if String.prefix (String a "") (String b s) then 0%Z else (-1)%Z).
  rewrite prefix_single. reflexivity.
Qed.

Lemma occurs_cons_false a b s :
  occurs a (String b s) = false → a ≠ b ∧ occurs a s = false.
Proof.
  simpl. intros Ho. apply orb_false_iff in Ho as [Hb Hs].
  split; [|exact Hs]. intros ->. rewrite bool_decide_eq_true_2 in Hb by reflexivity.
  discriminate.
Qed.

Lemma strings_Index_free a s : occurs a s = false → strings_Index s (String a "") = (-1)%Z.
Proof.
  induction s as [|b s IH]; [reflexivity|]. intros Ho.
  apply occurs_cons_false in Ho as [Hne Hs].
  rewrite strings_Index_cons, bool_decide_eq_false_2, (IH Hs) by exact Hne. reflexivity.
Qed.

Lemma strings_Index_first a s t :
  occurs a s = false → strings_Index (s +:+ String a t) (String a "") = len s.
Proof.
  induction s as [|b s IH]; intros Ho.
  - change ("" +:+ String a t) with (String a t).
    rewrite strings_Index_cons, bool_decide_eq_true_2 by reflexivity. reflexivity.
  - apply occurs_cons_false in Ho as [Hne Hs].
    change (String b s +:+ String a t) with (String b (s +:+ String a t)).
    rewrite strings_Index_cons, bool_decide_eq_false_2, (IH Hs), len_cons by exact Hne.
    pose proof (len_nonneg s). rewrite bool_decide_eq_false_2 by lia. reflexivity.
Qed.

Lemma strings_LastIndex_free a s :
  occurs a s = false → strings_LastIndex s (String a "") = (-1)%Z.
Proof.
  induction s as [|b s IH]; [reflexivity|]. intros Ho.
  apply occurs_cons_false in Ho as [Hne Hs].
  rewrite strings_LastIndex_cons, (IH Hs), (bool_decide_eq_false_2 (a = b)) by exact Hne.
  reflexivity.
Qed.

Lemma strings_LastIndex_last a s t :
  occurs a t = false → strings_LastIndex (s +:+ String a t) (String a "") = len s.
Proof.
  intros Ho. induction s as [|b s IH].
  - change ("" +:+ String a t) with (String a t).
    rewrite strings_LastIndex_cons, (strings_LastIndex_free _ _ Ho).
    rewrite (bool_decide_eq_true_2 (a = a)) by reflexivity. reflexivity.
  - change (String b s +:+ String a t) with (String b (s +:+ String a t)).
    rewrite strings_LastIndex_cons, IH, len_cons.
    pose proof (len_nonneg s). rewrite bool_decide_eq_true_2 by lia. reflexivity.
Qed.

Lemma occurs_split_first a s :
  occurs a s = true → ∃ d t, s = d +:+ String a t ∧ occurs a d = false.
Proof.
  induction s as [|b s IH]; [discriminate|]. simpl. intros Ho.
  destruct (decide (a = b)) as [->|Hne].
  - exists "", s. split; reflexivity.
  - rewrite bool_decide_eq_false_2 in Ho by exact Hne.
    destruct (IH Ho) as (d & t & -> & Hd). exists (String b d), t. split; [reflexivity|].
    simpl. rewrite bool_decide_eq_false_2 by exact Hne. exact Hd.
Qed.

Lemma occurs_split_last a s :
  occurs a s = true → ∃ d t, s = d +:+ String a t ∧ occurs a t = false.
Proof.
  induction s as [|b s IH]; [discriminate|]. simpl. intros Ho.
  destruct (occurs a s) eqn:Hs.
  - destruct (IH eq_refl) as (d & t & -> & Ht). exists (String b d), t. split; [reflexivity|].
    exact Ht.
  - rewrite orb_false_r in Ho. apply bool_decide_eq_true_1 in Ho as ->.
    exists "", s. split; [reflexivity | exact Hs].
Qed.

Lemma append_split (s t s' t' : string) :
  s +:+ t = s' +:+ t' → String.length s ≤ String.length s' →
  ∃ z, s' = s +:+ z ∧ t = z +:+ t'.
Proof.
  revert s'. induction s as [|a s IH]; intros s' Heq Hlen.
  - exists s'. split; [reflexivity | exact Heq].
  - destruct s' as [|a' s']; [simpl in Hlen; lia|].
    change (String a (s +:+ t) = String a' (s' +:+ t')) in Heq. injection Heq as <- Heq.
    simpl in Hlen. destruct (IH s' Heq ltac:(lia)) as (z & -> & ->).
    exists z. split; reflexivity.
Qed.

Lemma split_last_unique a d t d' t' :
  d +:+ String a t = d' +:+ String a t' → occurs a t = false → occurs a t' = false →
  d = d' ∧ t = t'.
Proof.
  intros Heq Ht Ht'.
  assert (Hlen : String.length d = String.length d').
  { pose proof (strings_LastIndex_last a d t Ht) as H1.
    pose proof (strings_LastIndex_last a d' t' Ht') as H2.
    rewrite Heq, H2 in H1. unfold len in H1. lia. }
  destruct (append_split _ _ _ _ Heq ltac:(lia)) as (z & Hd' & Hz).
  assert (z = "") as ->.
  { rewrite Hd', length_append in Hlen. destruct z; [reflexivity | simpl in Hlen; lia]. }
  rewrite append_nil_r in Hd'. change ("" +:+ String a t') with (String a t') in Hz.
  split; congruence.
Qed.

(** A path is a directory part, empty or ending in a slash, and the part
    after the last slash, which [s[strings.LastIndex(s, "/")+1:]] takes. *)
Lemma afterLastSlash_spec (s : string) :
  ∃ dir base, s = dir +:+ base ∧ (dir = "" ∨ ∃ d, dir = d +:+ "/") ∧
              occurs "/" base = false ∧
              strings_LastIndex s "/" = (len dir - 1)%Z ∧
              afterLastSlash s = Some base.
Proof.
  unfold afterLastSlash. destruct (occurs "/" s) eqn:Ho.
  - apply occurs_split_last in Ho as (d & t & -> & Ht).
    exists (d +:+ "/"), t. rewrite append_assoc. split; [reflexivity|].
    split; [right; exists d; reflexivity|]. split; [exact Ht|].
    change ("/" +:+ t) with (String "/" t). rewrite (strings_LastIndex_last _ _ _ Ht).
    rewrite len_append. change (len "/") with 1%Z. split; [lia|].
    pose proof (slice_suffix (d +:+ "/") t) as Hs.
    rewrite append_assoc, len_append in Hs. exact Hs.
  - exists "", s. split; [reflexivity|]. split; [left; reflexivity|]. split; [exact Ho|].
    rewrite (strings_LastIndex_free _ _ Ho). split; [reflexivity|].
    exact (slice_suffix "" s).
Qed.

(** [path] is [dir], empty or ending in a slash, then a file name without
    slashes whose part before its first dot is [stem], with no dot in
    [dir] either. *)
Definition splits (path dir stem rest : string) : Prop :=
  path = dir +:+ stem +:+ "." +:+ rest ∧
  (dir = "" ∨ ∃ d, dir = d +:+ "/") ∧
  occurs "/" (stem +:+ "." +:+ rest) = false ∧
  occurs "." (dir +:+ stem) = false.

(** The slice expression of [ParquetCur] succeeds on the paths that split,
    and on no other. *)
Lemma stem_spec (inputFile stem : string) :
  slice inputFile (strings_LastIndex inputFile "/" + 1) (strings_Index inputFile ".")
    = Some stem
  ↔ ∃ dir rest, splits inputFile dir stem rest.
Proof.
  split.
  - intros Hslice.
    destruct (afterLastSlash_spec inputFile) as (dir & base & Hpath & Hdir & Hbase & Hlast & _).
    rewrite Hlast in Hslice.
    destruct (occurs "." inputFile) eqn:Hdot.
    2: { rewrite (strings_Index_free _ _ Hdot) in Hslice. unfold slice in Hslice.
         pose proof (len_nonneg dir). rewrite bool_decide_eq_false_2 in Hslice by lia.
         discriminate. }
    apply occurs_split_first in Hdot as (A & rest & HA & Hfree).
    assert (Hindex : strings_Index inputFile "." = len A).
    { rewrite HA. apply strings_Index_first, Hfree. }
    rewrite Hindex in Hslice.
    assert (Hle : String.length dir ≤ String.length A).
    { unfold slice in Hslice. case_bool_decide as Hb; [|discriminate]. unfold len in Hb. lia. }
    rewrite Hpath in HA. destruct (append_split _ _ _ _ HA Hle) as (z & -> & Hz).
    exists dir, rest.
    assert (stem = z) as ->.
    { rewrite Hpath, Hz in Hslice.
      replace (len dir - 1 + 1)%Z with (len dir) in Hslice by lia.
      rewrite len_append, slice_middle in Hslice. congruence. }
    split; [rewrite Hpath, Hz; reflexivity|]. split; [exact Hdir|].
    split; [rewrite Hz in Hbase; exact Hbase | exact Hfree].
  - intros (dir & rest & -> & Hdir & Hslash & Hdot).
    assert (Hlast : strings_LastIndex (dir +:+ stem +:+ "." +:+ rest) "/" = (len dir - 1)%Z).
    { destruct Hdir as [->|[d ->]].
      - change ("" +:+ stem +:+ "." +:+ rest) with (stem +:+ "." +:+ rest).
        rewrite (strings_LastIndex_free _ _ Hslash). reflexivity.
      - rewrite append_assoc. change ("/" +:+ stem +:+ "." +:+ rest)
          with (String "/" (stem +:+ "." +:+ rest)).
        rewrite (strings_LastIndex_last _ _ _ Hslash), len_append.
        change (len "/") with 1%Z. lia. }
    assert (Hindex : strings_Index (dir +:+ stem +:+ "." +:+ rest) "." = (len dir + len stem)%Z).
    { rewrite <- append_assoc. change ("." +:+ rest) with (String "." rest).
      rewrite (strings_Index_first _ _ _ Hdot), len_append. reflexivity. }
    rewrite Hlast, Hindex. replace (len dir - 1 + 1)%Z with (len dir) by lia.
    apply slice_middle.
Qed.

Section Naming.

Lemma DownloadCur_Ok (c : CurConvert) (w : Download) (curObject localFile : string) :
  DownloadCur c w curObject = Return (Ok localFile) →
  ∃ dir base, curObject = dir +:+ base ∧ (dir = "" ∨ ∃ d, dir = d +:+ "/") ∧
              occurs "/" base = false ∧ localFile = tempDir c +:+ "/" +:+ base.
Proof.
  destruct (afterLastSlash_spec curObject) as (dir & base & Hpath & Hdir & Hbase & _ & Hafter).
  unfold DownloadCur. rewrite Hafter. intros Hret. exists dir, base.
  split; [exact Hpath|]. split; [exact Hdir|]. split; [exact Hbase|].
  destruct (os_Create w _); [discriminate|].
  destruct (initS3Downloader w); [discriminate|].
  destruct (s3dl_Download w); [discriminate|]. congruence.
Qed.

Lemma ParquetCur_Ok (c : CurConvert) (w : Conversion) (inputFile file : string) :
  (ParquetCur c w inputFile).2 = Return (Ok file) →
  ∃ dir stem rest, splits inputFile dir stem rest ∧
                   file = tempDir c +:+ "/" +:+ stem +:+ ".parquet".
Proof.
  unfold ParquetCur.
  destruct (os_Open w inputFile); [discriminate|].
  destruct (gzip_NewReader w); [discriminate|].
  destruct (cr_header w); [discriminate|].
  pose proof (stem_spec inputFile) as Hstem.
  destruct (slice inputFile (strings_LastIndex inputFile "/" + 1) (strings_Index inputFile "."))
    as [stem|]; [|discriminate].
  destruct (proj1 (Hstem stem) eq_refl) as (dir & rest & Hsplits).
  destruct (NewLocalFileWriter w _); [discriminate|].
  destruct (NewCSVWriter w); [discriminate|].
  destruct (readLoop (skipCols c) (cr_records w) (cr_last w) 1) as [calls [i|err]];
    [|discriminate].
  simpl. intros [= <-]. eauto.
Qed.

(** X14. [DownloadCur] never panics on its slice expression, and the
    local file it returns is the temporary directory, a slash, and the
    part of the object key after its last slash. *)
Theorem DownloadCur_localFile (c : CurConvert) (w : Download) (curObject : string) :
  DownloadCur c w curObject ≠ Panic ∧
  ∃ dir base, curObject = dir +:+ base ∧ (dir = "" ∨ ∃ d, dir = d +:+ "/") ∧
              occurs "/" base = false ∧
              ∀ localFile, DownloadCur c w curObject = Return (Ok localFile) →
                           localFile = tempDir c +:+ "/" +:+ base.
Proof.
  destruct (afterLastSlash_spec curObject) as (dir & base & Hpath & Hdir & Hbase & _ & Hafter).
  split.
  - unfold DownloadCur. rewrite Hafter.
    destruct (os_Create w _); [discriminate|].
    destruct (initS3Downloader w); [discriminate|].
    destruct (s3dl_Download w); discriminate.
  - exists dir, base. split; [exact Hpath|]. split; [exact Hdir|]. split; [exact Hbase|].
    intros localFile Hret. unfold DownloadCur in Hret. rewrite Hafter in Hret.
    destruct (os_Create w _); [discriminate|].
    destruct (initS3Downloader w); [discriminate|].
    destruct (s3dl_Download w); [discriminate|]. congruence.
Qed.

(** X15. Once the input is open and its header read, [ParquetCur] panics
    on every input path that does not split into a directory part without
    a dot and a file name with one; on a path that splits it names the
    parquet file after the part of the file name before its first dot. *)
Theorem ParquetCur_name (c : CurConvert) (w : Conversion) (inputFile : string) :
  os_Open w inputFile = None → gzip_NewReader w = None → cr_header w = None →
  ((ParquetCur c w inputFile).2 = Panic ↔ ¬ ∃ dir stem rest, splits inputFile dir stem rest) ∧
  (∀ file, (ParquetCur c w inputFile).2 = Return (Ok file) →
           ∃ dir stem rest, splits inputFile dir stem rest ∧
                            file = tempDir c +:+ "/" +:+ stem +:+ ".parquet").
Proof.
  intros Hopen Hgzip Hheader. unfold ParquetCur. rewrite Hopen, Hgzip, Hheader.
  pose proof (stem_spec inputFile) as Hstem.
  destruct (slice inputFile (strings_LastIndex inputFile "/" + 1) (strings_Index inputFile "."))
    as [stem|].
  - destruct (proj1 (Hstem stem) eq_refl) as (dir & rest & Hsplits).
    assert (Hno : ∀ (t : list call) (e : ending (result string)),
              e ≠ Panic → (t, e).2 = Panic ↔ ¬ ∃ dir stem rest, splits inputFile dir stem rest).
    { intros t e He. simpl. split; [contradiction|]. intros Hn. destruct Hn. eauto. }
    destruct (NewLocalFileWriter w _).
    { split; [apply Hno; discriminate | discriminate]. }
    destruct (NewCSVWriter w).
    { split; [apply Hno; discriminate | discriminate]. }
    destruct (readLoop (skipCols c) (cr_records w) (cr_last w) 1) as [calls [i|err]].
    + split; [apply Hno; discriminate|]. simpl. intros file [= <-]. eauto.
    + split; [apply Hno; discriminate | discriminate].
  - split.
    + split; [|reflexivity]. intros _ (dir & stem & rest & Hsplits).
      assert (None = Some stem) by (apply Hstem; eauto). discriminate.
    + discriminate.
Qed.

(** X16. The conversion of a report key, whenever its three steps
    succeed: the key is a directory part and a file name with a dot, the
    temporary directory has no dot, and the parquet object is registered
    under the destination path, a slash, the part of the file name before
    its first dot, and [.parquet]. *)
Theorem conversion_key (c c' : CurConvert) (wd : Download) (wp : Conversion) (wu : Upload)
    (curObject gzipFile parquetFile : string) :
  DownloadCur c wd curObject = Return (Ok gzipFile) →
  (ParquetCur c wp gzipFile).2 = Return (Ok parquetFile) →
  UploadCur c wu parquetFile = Return (c', None) →
  ∃ dir stem rest,
    curObject = dir +:+ stem +:+ "." +:+ rest ∧
    (dir = "" ∨ ∃ d, dir = d +:+ "/") ∧
    occurs "/" (stem +:+ "." +:+ rest) = false ∧
    occurs "." stem = false ∧
    occurs "." (tempDir c) = false ∧
    gzipFile = tempDir c +:+ "/" +:+ stem +:+ "." +:+ rest ∧
    parquetFile = tempDir c +:+ "/" +:+ stem +:+ ".parquet" ∧
    CurParqetFiles c' = <[destObject c +:+ "/" +:+ stem +:+ ".parquet" := true]> (CurParqetFiles c).
Proof.
  intros Hdown Hpar Hup.
  destruct (DownloadCur_Ok c wd curObject gzipFile Hdown)
    as (dir & base & Hpath & Hdir & Hbase & Hgz).
  destruct (ParquetCur_Ok c wp gzipFile parquetFile Hpar)
    as (dir' & stem & rest & (Hgz' & Hdir' & Hslash & Hdot) & Hpq).
  assert (Htail : dir' = tempDir c +:+ "/" ∧ base = stem +:+ "." +:+ rest).
  { rewrite Hgz in Hgz'. destruct Hdir' as [->|[d ->]].
    - exfalso. change ("" +:+ stem +:+ "." +:+ rest) with (stem +:+ "." +:+ rest) in Hgz'.
      rewrite <- Hgz', !occurs_append in Hslash. simpl in Hslash.
      rewrite orb_true_r in Hslash. discriminate.
    - rewrite append_assoc in Hgz'.
      change ("/" +:+ base) with (String "/" base) in Hgz'.
      change ("/" +:+ stem +:+ "." +:+ rest) with (String "/" (stem +:+ "." +:+ rest)) in Hgz'.
      destruct (split_last_unique _ _ _ _ _ Hgz' Hbase Hslash) as [<- <-]. auto. }
  destruct Htail as [-> ->].
  exists dir, stem, rest.
  rewrite append_assoc, !occurs_append in Hdot. simpl in Hdot.
  apply orb_false_iff in Hdot as [Htmp Hstem].
  split; [exact Hpath|]. split; [exact Hdir|]. split; [exact Hbase|]. split; [exact Hstem|].
  split; [exact Htmp|]. split; [exact Hgz|]. split; [exact Hpq|].
  unfold UploadCur in Hup.
  destruct (afterLastSlash_spec parquetFile) as (pdir & pbase & Hp & Hpdir & Hpbase & _ & Hafter).
  rewrite Hafter in Hup.
  assert (pbase = stem +:+ ".parquet") as ->.
  { rewrite Hpq in Hp. destruct Hpdir as [->|[d ->]].
    - exfalso. change ("" +:+ pbase) with pbase in Hp.
      rewrite <- Hp, !occurs_append in Hpbase. simpl in Hpbase.
      rewrite orb_true_r in Hpbase. discriminate.
    - rewrite append_assoc in Hp.
      change ("/" +:+ pbase) with (String "/" pbase) in Hp.
      change ("/" +:+ stem +:+ ".parquet") with (String "/" (stem +:+ ".parquet")) in Hp.
      assert (Hfree : occurs "/" (stem +:+ ".parquet") = false).
      { rewrite !occurs_append in Hbase. apply orb_false_iff in Hbase as [Hs _].
        rewrite occurs_append, Hs. reflexivity. }
      destruct (split_last_unique _ _ _ _ _ Hp Hfree Hpbase) as [_ <-]. reflexivity. }
  destruct (upload_os_Open wu parquetFile); [discriminate|].
  destruct (if bool_decide (len (destKMSKey c) > 0)%Z then _ else _); [discriminate|].
  injection Hup as <-. reflexivity.
Qed.

End Naming.

(** ** The setters *)

(** A call of one of the setters. *)
Inductive setter : Type :=
| FileConcurrency (n : Z)
| SourceRole (arn externalID : string)
| DestRole (arn externalID : string)
| SourceManifest (manifest : string)
| DestPath (path : string)
| DestKMSKey (key : string)
| TmpLocation (path : string).

Section Setters.
Context `{Regexp, !CompileError}.

Definition call_setter (c : CurConvert) (s : setter) : CurConvert * option error :=
  match s with
  | FileConcurrency n => SetFileConcurrency c n
  | SourceRole arn externalID => SetSourceRole c arn externalID
  | DestRole arn externalID => SetDestRole c arn externalID
  | SourceManifest manifest => SetSourceManifest c manifest
  | DestPath path => SetDestPath c path
  | DestKMSKey key => SetDestKMSKey c key
  | TmpLocation path => SetTmpLocation c path
  end.

(** The receiver after a series of calls, whatever they returned. *)
Definition configure (c : CurConvert) (calls : list setter) : CurConvert :=
  fold_left (λ c s, (call_setter c s).1) calls c.

(** What no setter changes, and what the checks of the setters keep. *)
Record configured (c0 c : CurConvert) : Prop := {
  kept_sourceBucket : sourceBucket c = sourceBucket c0;
  kept_destBucket : destBucket c = destBucket c0;
  kept_concurrency : concurrency c = concurrency c0;
  kept_CurColumns : CurColumns c = CurColumns c0;
  kept_CurFiles : CurFiles c = CurFiles c0;
  kept_CurParqetFiles : CurParqetFiles c = CurParqetFiles c0;
  kept_CurColumnTypes : CurColumnTypes c = CurColumnTypes c0;
  kept_skipCols : skipCols c = skipCols c0;
  checked_fileConcurrency :
    fileConcurrency c = fileConcurrency c0 ∨ (1 ≤ fileConcurrency c ≤ 1000)%Z;
  checked_sourceArn :
    (sourceArn c = sourceArn c0 ∧ sourceExternalID c = sourceExternalID c0) ∨ sourceArn c ≠ "";
  checked_destArn :
    (destArn c = destArn c0 ∧ destExternalID c = destExternalID c0) ∨ destArn c ≠ "";
  checked_sourceObject : sourceObject c = sourceObject c0 ∨ sourceObject c ≠ "";
  checked_destObject : destObject c = destObject c0 ∨ destObject c ≠ "";
  checked_destKMSKey : destKMSKey c = destKMSKey c0 ∨ destKMSKey c ≠ "";
  checked_tempDir :
    tempDir c = tempDir c0 ∨
    (tempDir c ≠ "" ∧
     ∃ r, regexp_Compile "^/[A-Z,a-z,0-9,_,-,/]+[^/]$" = Some r ∧
          MatchString r (tempDir c) = true)
}.

Lemma len_lt_1 (s : string) : ¬ (len s < 1)%Z → s ≠ "".
Proof. intros Hlen ->. apply Hlen. unfold len. simpl. lia. Qed.

Lemma configured_refl c : configured c c.
Proof. constructor; auto. Qed.

(** Every setter, on both sides of its check. *)
Ltac setter_cases s :=
  destruct s as [n|arn externalID|arn externalID|manifest|path|key|path]; simpl;
  [ unfold SetFileConcurrency | unfold SetSourceRole | unfold SetDestRole
  | unfold SetSourceManifest | unfold SetDestPath | unfold SetDestKMSKey
  | unfold SetTmpLocation;
    destruct (regexp_Compile "^/[A-Z,a-z,0-9,_,-,/]+[^/]$") as [re|] eqn:Hre;
    [destruct (MatchString re path) eqn:Hmatch; simpl negb;
     rewrite ?orb_true_r, ?orb_false_r|] ];
  try case_bool_decide; simpl.

Lemma call_setter_configured c0 c s :
  configured c0 c → configured c0 (call_setter c s).1.
Proof.
  intros [].
  setter_cases s; constructor; simpl; auto;
    first [ rewrite <- Hre in checked_tempDir0; assumption
          | right; first [ lia | apply len_lt_1; assumption
                         | split; [apply len_lt_1; assumption | eauto] ] ].
Qed.

Lemma configure_configured c calls : configured c (configure c calls).
Proof.
  unfold configure. induction calls as [|s calls IH] using rev_ind.
  - apply configured_refl.
  - rewrite fold_left_app. simpl. apply call_setter_configured, IH.
Qed.

(** X17. A setter that returns an error leaves the converter as it was.
    Whatever setters a client calls on a new converter, in whatever order
    and with whatever results, the file concurrency stays between 1 and
    1000, the writer concurrency stays 10, the override table, the
    buckets and the empty schema stay as made, and the temporary
    directory and the two paths are never set to the empty string. *)
Theorem setters_keep (sBucket sObject dBucket dObject : string) (calls : list setter) :
  let c0 := NewCurConvert sBucket sObject dBucket dObject in
  let c := configure c0 calls in
  (∀ c s err, (call_setter c s).2 = Some err → (call_setter c s).1 = c) ∧
  (1 ≤ fileConcurrency c ≤ 1000)%Z ∧ concurrency c = 10%Z ∧
  CurColumnTypes c = CurColumnTypes c0 ∧
  sourceBucket c = sBucket ∧ destBucket c = dBucket ∧
  CurColumns c = [] ∧ CurFiles c = [] ∧ CurParqetFiles c = ∅ ∧ skipCols c = ∅ ∧
  tempDir c ≠ "" ∧
  (sObject ≠ "" → sourceObject c ≠ "") ∧
  (dObject ≠ "" → destObject c ≠ "").
Proof.
  intros c0 c. split.
  { intros c1 s err. setter_cases s; congruence. }
  destruct (configure_configured c0 calls) as [].
  fold c in kept_sourceBucket0, kept_destBucket0, kept_concurrency0, kept_CurColumns0,
    kept_CurFiles0, kept_CurParqetFiles0, kept_CurColumnTypes0, kept_skipCols0,
    checked_fileConcurrency0, checked_sourceObject0, checked_destObject0, checked_tempDir0.
  repeat split; try assumption.
  - destruct checked_fileConcurrency0 as [->|?]; [simpl|]; lia.
  - destruct checked_fileConcurrency0 as [->|?]; [simpl|]; lia.
  - destruct checked_tempDir0 as [->|[? _]]; [discriminate | assumption].
  - intros Hs. destruct checked_sourceObject0 as [->|?]; assumption.
  - intros Hd. destruct checked_destObject0 as [->|?]; assumption.
Qed.

End Setters.

(** ** [ParseCur], called again *)

Section Again.
Context `{Unicode}.

Lemma ParseCur_fields (c : CurConvert) (cols : list column) (reportKeys : list string) :
  CurColumnTypes (ParseCur c cols reportKeys) = CurColumnTypes c ∧
  CurFiles (ParseCur c cols reportKeys) = CurFiles c ++ reportKeys ∧
  CurParqetFiles (ParseCur c cols reportKeys) = CurParqetFiles c.
Proof.
  unfold ParseCur.
  destruct (columnsLoop (CurColumnTypes c) cols (-1) ∅ ∅ (CurColumns c)) as [skip columns].
  auto.
Qed.

Lemma ParseCur_skipCols (c c' : CurConvert) (cols : list column) (keys keys' : list string) :
  skipCols (ParseCur c cols keys) = skipCols (ParseCur c' cols keys').
Proof.
  destruct (ParseCur_spec c cols keys) as (Hskip & _).
  destruct (ParseCur_spec c' cols keys') as (Hskip' & _).
  apply map_eq. intros z. apply option_eq. intros b. rewrite Hskip, Hskip'. reflexivity.
Qed.

(** X18. [ParseCur] adds to what the converter holds: called a second
    time on the same manifest, it leaves the skip set as it was and puts
    the schema and the report keys in a second time. *)
Theorem ParseCur_again (c : CurConvert) (cols : list column) (reportKeys : list string) :
  let c1 := ParseCur c cols reportKeys in
  let c2 := ParseCur c1 cols reportKeys in
  let schema := map (λ n, schemaLine n (default "UTF8" (CurColumnTypes c !! n)))
                    (emitted (skipCols c1) (map columnName cols)) in
  CurColumns c1 = CurColumns c ++ schema ∧
  CurColumns c2 = CurColumns c ++ schema ++ schema ∧
  CurFiles c2 = CurFiles c ++ reportKeys ++ reportKeys ∧
  skipCols c2 = skipCols c1.
Proof.
  intros c1 c2 schema.
  destruct (ParseCur_spec c cols reportKeys) as (_ & Hcols & _).
  destruct (ParseCur_spec c1 cols reportKeys) as (_ & Hcols' & _).
  destruct (ParseCur_fields c cols reportKeys) as (Htypes & Hfiles & _).
  destruct (ParseCur_fields c1 cols reportKeys) as (_ & Hfiles' & _).
  fold c1 in Hcols, Htypes, Hfiles, Hcols', Hfiles'. fold c2 in Hcols', Hfiles'.
  assert (Hskip : skipCols c2 = skipCols c1) by apply ParseCur_skipCols.
  split; [exact Hcols|]. split; [|split; [|exact Hskip]].
  - rewrite Hcols', Hcols, Hskip, Htypes, <- app_assoc. reflexivity.
  - rewrite Hfiles', Hfiles, <- app_assoc. reflexivity.
Qed.

(** ** Records against the schema *)

Lemma recParquet_from_emitted skip (k : nat) rec :
  recParquet_from skip (Z.of_nat k) rec =
  omap (λ jn : nat * string,
          match skip !! Z.of_nat jn.1 with Some _ => None | None => Some jn.2 end)
       (imap (λ j x, (k + j, x)) rec).
Proof.
  revert k. induction rec as [|field rec IH]; intros k; [reflexivity|].
  cbn [recParquet_from imap omap list_omap]. rewrite Nat.add_0_r.
  replace (Z.of_nat k + 1)%Z with (Z.of_nat (S k)) by lia. rewrite IH.
  assert (Himap : imap (λ j x, (S k + j, x)) rec = imap ((λ j x, (k + j, x)) ∘ S) rec).
  { apply imap_ext. intros j x _. simpl. f_equal. lia. }
  rewrite Himap. cbn [fst snd]. destruct (skip !! Z.of_nat k); reflexivity.
Qed.

Lemma recParquet_emitted skip rec : recParquet skip rec = emitted skip rec.
Proof. apply (recParquet_from_emitted skip 0). Qed.

Lemma emitted_aligned skip (xs ys : list string) :
  length xs = length ys →
  Forall2 (λ x y, ∃ i, xs !! i = Some x ∧ ys !! i = Some y) (emitted skip xs) (emitted skip ys).
Proof.
  revert ys. induction xs as [|x xs IH] using rev_ind; intros ys Hlen.
  - destruct ys; [constructor | discriminate].
  - destruct ys as [|y ys _] using rev_ind; [rewrite length_app in Hlen; simpl in Hlen; lia|].
    rewrite !length_app in Hlen. simpl in Hlen.
    assert (Hl : length xs = length ys) by lia.
    rewrite !emitted_snoc, <- Hl. apply Forall2_app.
    + eapply Forall2_impl; [apply (IH ys Hl)|]. intros a b (i & Ha & Hb).
      exists i. split; apply lookup_app_l_Some; assumption.
    + destruct (skip !! Z.of_nat (length xs)); constructor; [|constructor].
      exists (length xs). split; [|rewrite Hl]; apply list_lookup_middle; reflexivity.
Qed.

(** X19. On a converter whose schema was empty before [ParseCur], a
    record with one field for each column of the manifest is written with
    one field for each line of the schema, and each field under the line
    of the column it stood under in the file. *)
Theorem recParquet_schema (c : CurConvert) (cols : list column) (reportKeys : list string)
    (rec : list string) :
  CurColumns c = [] →
  length rec = length cols →
  let c' := ParseCur c cols reportKeys in
  Forall2 (λ line field,
             ∃ i t, cols !! i = Some t ∧ rec !! i = Some field ∧
                    line = schemaLine (columnName t)
                             (default "UTF8" (CurColumnTypes c !! columnName t)))
          (CurColumns c') (recParquet (skipCols c') rec).
Proof.
  intros Hempty Hlen c'.
  destruct (ParseCur_spec c cols reportKeys) as (_ & Hcols & _). fold c' in Hcols.
  rewrite Hcols, Hempty, recParquet_emitted. simpl. apply Forall2_fmap_l.
  eapply Forall2_impl.
  - apply emitted_aligned. rewrite length_map. symmetry. exact Hlen.
  - intros n field (i & Hn & Hfield). simpl.
    apply list_lookup_fmap_Some in Hn as (t & -> & Ht). eauto.
Qed.

End Again.

(** ** The flushes of [ParquetCur] *)

Section Flushing.

(** The writer is flushed after 4999 records. *)
Definition batchSize : nat := 4999.

(** [l] cut into consecutive runs of [n] elements, the last run shorter
    when the length of [l] is no multiple of [n]; [fuel] bounds the number
    of runs. *)
Fixpoint batches {A : Type} (fuel n : nat) (l : list A) : list (list A) :=
  match fuel, l with
  | S fuel, _ :: _ => take n l :: batches fuel n (drop n l)
  | _, _ => []
  end.

Definition written (skip : gmap Z bool) (records : list (list string)) : list call :=
  map (λ rec, WriteString (recParquet skip rec)) records.

Lemma readLoop_nil skip last i :
  readLoop skip [] last i =
  (if bool_decide (Z.rem i 5000 = 0)%Z then [Flush] else [],
   match last with
   | None => Ok (if bool_decide (Z.rem i 5000 = 0)%Z then 1%Z else i)
   | Some err => Error err
   end).
Proof. simpl. case_bool_decide; destruct last; reflexivity. Qed.

Lemma readLoop_cons skip rec rest last i :
  readLoop skip (rec :: rest) last i =
  if bool_decide (Z.rem i 5000 = 0)%Z
  then (Flush :: WriteString (recParquet skip rec) :: (readLoop skip rest last 2).1,
        (readLoop skip rest last 2).2)
  else (WriteString (recParquet skip rec) :: (readLoop skip rest last (i + 1)).1,
        (readLoop skip rest last (i + 1)).2).
Proof.
  cbn [readLoop]. case_bool_decide.
  - change (1 + 1)%Z with 2%Z. destruct (readLoop skip rest last 2). reflexivity.
  - destruct (readLoop skip rest last (i + 1)). reflexivity.
Qed.

Lemma readLoop_full skip records last :
  readLoop skip records last 5000 =
  (Flush :: (readLoop skip records last 1).1, (readLoop skip records last 1).2).
Proof.
  destruct records as [|rec rest].
  - rewrite !readLoop_nil. destruct last; reflexivity.
  - rewrite !readLoop_cons. reflexivity.
Qed.

Lemma readLoop_writes skip first rest last i :
  (1 ≤ i)%Z → (i + Z.of_nat (length first) ≤ 5000)%Z →
  readLoop skip (first ++ rest) last i =
  (written skip first ++ (readLoop skip rest last (i + Z.of_nat (length first))).1,
   (readLoop skip rest last (i + Z.of_nat (length first))).2).
Proof.
  revert i. induction first as [|rec first IH]; intros i Hi Hlen.
  - simpl. rewrite Z.add_0_r. destruct (readLoop skip rest last i). reflexivity.
  - simpl length in *. rewrite <- app_comm_cons, readLoop_cons.
    rewrite bool_decide_eq_false_2 by (rewrite Z.rem_small; lia).
    rewrite IH by lia.
    replace (i + 1 + Z.of_nat (length first))%Z with (i + Z.of_nat (S (length first)))%Z by lia.
    reflexivity.
Qed.

Lemma readLoop_calls skip records last i :
  Forall (λ e, e ≠ WriteStop ∧ e ≠ Close) (readLoop skip records last i).1.
Proof.
  revert i. induction records as [|rec rest IH]; intros i.
  - rewrite readLoop_nil. case_bool_decide; repeat constructor; discriminate.
  - rewrite readLoop_cons. case_bool_decide; simpl;
      repeat (constructor; [split; discriminate|]); apply IH.
Qed.

Lemma readLoop_error skip records err i :
  (readLoop skip records (Some err) i).2 = Error err.
Proof.
  revert i. induction records as [|rec rest IH]; intros i.
  - rewrite readLoop_nil. reflexivity.
  - rewrite readLoop_cons. case_bool_decide; simpl; apply IH.
Qed.

Lemma batches_nil {A : Type} fuel n : batches fuel n (@nil A) = [].
Proof. destruct fuel; reflexivity. Qed.

(** The loop from its start to the flush after it. *)
Lemma readLoop_batches skip fuel records :
  length records ≤ fuel →
  ∃ i, (readLoop skip records None 1).2 = Ok i ∧
       (readLoop skip records None 1).1 ++ (if bool_decide (i > 1)%Z then [Flush] else [])
       = concat (map (λ b, written skip b ++ [Flush]) (batches fuel batchSize records)).
Proof.
  assert (Hsize : Z.of_nat batchSize = 4999%Z) by reflexivity.
  revert records. induction fuel as [|fuel IH]; intros records Hfuel.
  { destruct records; [|simpl in Hfuel; lia]. exists 1%Z. split; reflexivity. }
  destruct records as [|rec records]; [exists 1%Z; split; reflexivity|].
  set (all := rec :: records) in *.
  change (batches (S fuel) batchSize all)
    with (take batchSize all :: batches fuel batchSize (drop batchSize all)).
  cbn [map concat].
  destruct (decide (length all ≤ batchSize)) as [Hshort|Hlong].
  - rewrite take_ge, drop_ge, batches_nil by exact Hshort. cbn [map concat].
    pose proof (readLoop_writes skip all [] None 1 ltac:(lia) ltac:(lia)) as Hw.
    rewrite app_nil_r in Hw. rewrite Hw, readLoop_nil. cbn [fst snd].
    assert (Hpos : 0 < length all) by (subst all; simpl; lia).
    case_bool_decide as Hrem.
    + exists 1%Z. split; [reflexivity|].
      rewrite bool_decide_eq_false_2 by lia. rewrite !app_nil_r. reflexivity.
    + exists (1 + Z.of_nat (length all))%Z. split; [reflexivity|].
      rewrite bool_decide_eq_true_2 by lia. rewrite !app_nil_r. reflexivity.
  - assert (Hlen : length (take batchSize all) = batchSize) by (rewrite length_take; lia).
    destruct (IH (drop batchSize all)) as (i & Hres & Hcalls).
    { rewrite length_drop. lia. }
    pose proof (readLoop_writes skip (take batchSize all) (drop batchSize all) None 1
                  ltac:(lia) ltac:(lia)) as Hw.
    rewrite take_drop, Hlen, Hsize in Hw. change (1 + 4999)%Z with 5000%Z in Hw.
    rewrite readLoop_full in Hw. cbn [fst snd] in Hw.
    exists i. rewrite Hw. cbn [fst snd]. split; [exact Hres|].
    rewrite <- Hcalls, <- !app_assoc. reflexivity.
Qed.

(** X20. Once its files are open, [ParquetCur] writes every record the
    reader yields, in order, and flushes the writer after each run of 4999
    records and after the last run; it then stops the writer and closes the
    file.  When the reader fails it returns the error and neither stops
    the writer nor closes the file. *)
Theorem ParquetCur_flushes (c : CurConvert) (w : Conversion) (inputFile stem : string) :
  os_Open w inputFile = None → gzip_NewReader w = None → cr_header w = None →
  (∃ dir rest, splits inputFile dir stem rest) →
  NewLocalFileWriter w (tempDir c +:+ "/" +:+ stem +:+ ".parquet") = None →
  NewCSVWriter w = None →
  match cr_last w with
  | None =>
      ParquetCur c w inputFile =
      (concat (map (λ b, written (skipCols c) b ++ [Flush])
                   (batches (length (cr_records w)) batchSize (cr_records w)))
       ++ [WriteStop; Close],
       Return (Ok (tempDir c +:+ "/" +:+ stem +:+ ".parquet")))
  | Some err =>
      (ParquetCur c w inputFile).2 = Return (Error err) ∧
      Forall (λ e, e ≠ WriteStop ∧ e ≠ Close) (ParquetCur c w inputFile).1
  end.
Proof.
  intros Hopen Hgzip Hheader Hsplits Hfile Hwriter.
  apply stem_spec in Hsplits.
  unfold ParquetCur. rewrite Hopen, Hgzip, Hheader, Hsplits, Hfile, Hwriter.
  destruct (cr_last w) as [err|] eqn:Hlast.
  - pose proof (readLoop_calls (skipCols c) (cr_records w) (Some err) 1) as Hcalls.
    pose proof (readLoop_error (skipCols c) (cr_records w) err 1) as Hres.
    destruct (readLoop (skipCols c) (cr_records w) (Some err) 1) as [calls res].
    simpl in Hres, Hcalls. subst res. split; [reflexivity | exact Hcalls].
  - destruct (readLoop_batches (skipCols c) (length (cr_records w)) (cr_records w)
                ltac:(reflexivity)) as (i & Hres & Hcalls).
    destruct (readLoop (skipCols c) (cr_records w) None 1) as [calls res].
    simpl in Hres, Hcalls. subst res. rewrite <- Hcalls, <- app_assoc. reflexivity.
Qed.

End Flushing.

(** ** What [CleanCur] deletes *)

Section Cleaning.

(** [c'] is [c] after some calls of [UploadCur]. *)
Inductive uploads : CurConvert → CurConvert → Prop :=
| uploads_refl c : uploads c c
| uploads_step c w parquetFile c' err c'' :
    UploadCur c w parquetFile = Return (c', err) → uploads c' c'' → uploads c c''.

Lemma UploadCur_keeps c w parquetFile c' err :
  UploadCur c w parquetFile = Return (c', err) →
  destObject c' = destObject c ∧ destBucket c' = destBucket c ∧
  ∀ key, is_Some (CurParqetFiles c !! key) → is_Some (CurParqetFiles c' !! key).
Proof.
  unfold UploadCur. destruct (afterLastSlash parquetFile) as [base|]; [|discriminate].
  destruct (upload_os_Open w parquetFile); [intros [= <- <-]; auto|].
  destruct (if bool_decide (len (destKMSKey c) > 0)%Z then _ else _);
    intros [= <- <-]; [auto|].
  split; [reflexivity|]. split; [reflexivity|]. intros key Hkey. simpl.
  destruct (decide (destObject c +:+ "/" +:+ base = key)) as [->|Hne].
  - rewrite lookup_insert_eq. eauto.
  - rewrite lookup_insert_ne by exact Hne. exact Hkey.
Qed.

Lemma uploads_keeps c c' :
  uploads c c' →
  destObject c' = destObject c ∧ destBucket c' = destBucket c ∧
  ∀ key, is_Some (CurParqetFiles c !! key) → is_Some (CurParqetFiles c' !! key).
Proof.
  induction 1 as [c|c w parquetFile c' err c'' Hup _ (Hobj & Hbucket & Hkeys)]; [auto|].
  destruct (UploadCur_keeps _ _ _ _ _ Hup) as (Hobj' & Hbucket' & Hkeys').
  split; [congruence|]. split; [congruence | auto].
Qed.

Lemma deleteObjects_spec files contents acc keys :
  deleteObjects files contents acc = Some keys →
  ∃ listed, contents = map Some listed ∧
            keys = acc ++ filter (λ key, files !! key = None) listed.
Proof.
  revert acc. induction contents as [|[key|] contents IH]; intros acc; simpl.
  - intros [= <-]. exists []. rewrite app_nil_r. split; reflexivity.
  - destruct (files !! key) as [b|] eqn:Hkey; intros Hdel.
    + destruct (IH _ Hdel) as (listed & -> & ->). exists (key :: listed).
      split; [reflexivity|]. rewrite filter_cons_False; [reflexivity|]. congruence.
    + destruct (IH _ Hdel) as (listed & -> & ->). exists (key :: listed).
      split; [reflexivity|]. rewrite filter_cons_True by exact Hkey.
      rewrite <- app_assoc. reflexivity.
  - discriminate.
Qed.

(** X21. [CleanCur] asks for the deletion of the listed keys that the
    converter has not registered, in the order of the listing, and so of
    no object that [UploadCur] has uploaded without error since the
    converter was made. *)
Theorem CleanCur_spares (c c1 c2 : CurConvert) (w : Upload) (cw : Cleaning)
    (parquetFile bucket : string) (keys : list string) :
  UploadCur c w parquetFile = Return (c1, None) →
  uploads c1 c2 →
  CallDelete bucket keys ∈ (CleanCur c2 cw).1 →
  ∃ base listed,
    afterLastSlash parquetFile = Some base ∧
    ListObjectsV2 cw = Ok (map Some listed) ∧
    bucket = destBucket c ∧
    keys = filter (λ key, CurParqetFiles c2 !! key = None) listed ∧
    destObject c +:+ "/" +:+ base ∉ keys.
Proof.
  intros Hup Hlater Hdel.
  destruct (UploadCur_keeps _ _ _ _ _ Hup) as (_ & Hbucket & _).
  destruct (uploads_keeps _ _ Hlater) as (_ & Hbucket' & Hkeys).
  assert (Hreg : ∃ base, afterLastSlash parquetFile = Some base ∧
                         is_Some (CurParqetFiles c1 !! (destObject c +:+ "/" +:+ base))).
  { unfold UploadCur in Hup. destruct (afterLastSlash parquetFile) as [base|]; [|discriminate].
    exists base. split; [reflexivity|].
    destruct (upload_os_Open w parquetFile); [discriminate|].
    destruct (if bool_decide (len (destKMSKey c) > 0)%Z then _ else _); [discriminate|].
    injection Hup as <-. simpl. rewrite lookup_insert_eq. eauto. }
  destruct Hreg as (base & Hbase & Hreg). apply Hkeys in Hreg.
  unfold CleanCur in Hdel. destruct (initS3Uploader cw); [inversion Hdel|].
  destruct (ListObjectsV2 cw) as [contents|err].
  2: { simpl in Hdel. apply list_elem_of_singleton in Hdel. discriminate. }
  destruct (deleteObjects (CurParqetFiles c2) contents []) as [keys'|] eqn:Hobjects.
  2: { simpl in Hdel. apply list_elem_of_singleton in Hdel. discriminate. }
  simpl in Hdel. apply elem_of_cons in Hdel as [[=]|Hdel].
  apply list_elem_of_singleton in Hdel. injection Hdel as -> ->.
  destruct (deleteObjects_spec _ _ _ _ Hobjects) as (listed & -> & ->).
  exists base, listed. split; [exact Hbase|]. split; [reflexivity|].
  split; [congruence|]. split; [reflexivity|].
  simpl. intros Hin. apply list_elem_of_filter in Hin as [Hnone _].
  rewrite Hnone in Hreg. destruct Hreg as [? [=]].
Qed.

End Cleaning.

(** * analyzeCUR *)

Section Analyze.

(** One column of the table definition. *)
Definition columnItem (col : CurColumn) : string :=
  "`" +:+ CurColumn_Name col +:+ "` " +:+ CurColumn_Type col.

Lemma columnList_spec (columns : list CurColumn) :
  Analyzecur.columnList columns =
  match columns with
  | [] => None
  | _ => Some (strings_Join (map columnItem columns) ("," +:+ newline))
  end.
Proof.
  unfold Analyzecur.columnList.
  rewrite (fold_left_append
             (λ col, "`" +:+ CurColumn_Name col +:+ "` " +:+ CurColumn_Type col
                     +:+ "," +:+ newline)).
  destruct columns as [|col columns]; [reflexivity|].
  assert (Hitems : map (λ col, "`" +:+ CurColumn_Name col +:+ "` " +:+ CurColumn_Type col
                               +:+ "," +:+ newline) (col :: columns)
                   = map (λ col, columnItem col +:+ ("," +:+ newline)) (col :: columns)).
  { apply map_ext. intros x. unfold columnItem. rewrite !append_assoc. reflexivity. }
  rewrite Hitems, concat_terminated by discriminate.
  fold (strings_Join (map columnItem (col :: columns)) ("," +:+ newline)).
  set (joined := strings_Join (map columnItem (col :: columns)) ("," +:+ newline)).
  change ("" +:+ joined +:+ "," +:+ newline) with (joined +:+ String "," newline).
  rewrite (strings_LastIndex_last "," joined newline eq_refl).
  apply slice_prefix.
Qed.

Lemma analyze_sendQuery_first (svc : Athena) (db sql account region : string) :
  ∃ calls, (Analyzecur.sendQuery svc db sql account region).1 =
           CallStartQueryExecution
             {| QueryString := sql;
                QueryExecutionContext_Database := db;
                OutputLocation :=
                  "s3://aws-athena-query-results-" +:+ account +:+ "-" +:+ region +:+ "/" |}
           :: calls.
Proof.
  unfold Analyzecur.sendQuery. cbv zeta.
  match goal with
  | |- context [emit ?e ;; ?k] =>
      change (emit e ;; k) with (let '(t, o) := k in (e :: t, o)); destruct k as [t o]
  end.
  exists t. reflexivity.
Qed.

(** X22. [createAthenaTable] panics on an empty column list.  Otherwise
    it starts one query, on the database it was given: the SQL template
    with its parameters substituted, the columns being one
    [`name` type] for each column, joined by a comma and a newline; the
    result location of the query is made of the region and the account in
    this order, as the two are handed to [sendQuery] in each other's
    place. *)
Theorem createAthenaTable_request `{Replace}
    (range : gmap string string → list (string * string)) (svcAthena : Athena)
    (dbName tablePrefix sql : string) (columns : list CurColumn)
    (s3Path date region account : string) :
  match columns with
  | [] =>
      Analyzecur.createAthenaTable range svcAthena dbName tablePrefix sql columns
        s3Path date region account = ([], Panics)
  | _ =>
      ∃ calls,
        (Analyzecur.createAthenaTable range svcAthena dbName tablePrefix sql columns
           s3Path date region account).1 =
        CallStartQueryExecution
          {| QueryString :=
               Analyzecur.substituteParams range sql
                 (<["**DBNAME**" := dbName]>
                    (<["**PREFIX**" := tablePrefix]>
                       (<["**DATE**" := date]>
                          (<["**COLUMNS**" :=
                               strings_Join (map columnItem columns) ("," +:+ newline)]>
                             (<["**S3**" := s3Path]> ∅)))));
             QueryExecutionContext_Database := dbName;
             OutputLocation :=
               "s3://aws-athena-query-results-" +:+ region +:+ "-" +:+ account +:+ "/" |}
        :: calls
  end.
Proof.
  assert (Hform :
    Analyzecur.createAthenaTable range svcAthena dbName tablePrefix sql columns
      s3Path date region account
    = bind (deref (Analyzecur.columnList columns))
        (λ cols,
           bind (Analyzecur.sendQuery svcAthena dbName
                   (Analyzecur.substituteParams range sql
                      (<["**DBNAME**" := dbName]>
                         (<["**PREFIX**" := tablePrefix]>
                            (<["**DATE**" := date]>
                               (<["**COLUMNS**" := cols]> (<["**S3**" := s3Path]> ∅))))))
                   region account)
                (λ answer, ret answer.2))) by reflexivity.
  rewrite Hform, columnList_spec. clear Hform.
  destruct columns as [|col columns]; [reflexivity|].
  set (cols := strings_Join (map columnItem (col :: columns)) ("," +:+ newline)).
  change (deref (Some cols)) with (ret cols). rewrite bind_ret_l.
  set (query := Analyzecur.substituteParams range sql _).
  destruct (analyze_sendQuery_first svcAthena dbName query region account) as [calls Hcalls].
  destruct (Analyzecur.sendQuery svcAthena dbName query region account) as [t [answer| |]];
    simpl in *; subst t; rewrite ?app_nil_r; eauto.
Qed.

Lemma fillFrom_cons colNames j d rest result label v :
  colNames !! j = Some label → VarCharValue d = Some v →
  Analyzecur.fillFrom colNames j (d :: rest) result
  = Analyzecur.fillFrom colNames (S j) rest (<[label := v]> result).
Proof.
  intros Hlabel Hv. cbn [Analyzecur.fillFrom]. unfold Analyzecur.at_index.
  rewrite Hlabel, Hv. unfold mbind, Analyzecur.io_bind.
  change (deref (Some v)) with (ret v). rewrite !bind_ret_l. reflexivity.
Qed.

(** The values of a later row go under the labels of the header. *)
Lemma fillFrom_values colNames data vs j result :
  values data = Some vs → j + length vs ≤ length colNames →
  Analyzecur.fillFrom colNames j data result = ret (labelled (drop j colNames) vs result).
Proof.
  unfold values. revert vs j result. induction data as [|d data IH]; intros vs j result.
  - intros [= <-] _. simpl. unfold labelled. rewrite zip_with_nil_r. reflexivity.
  - intros Hvals Hlen. simpl in Hvals.
    destruct (VarCharValue d) as [v|] eqn:Hv; [|discriminate]. simpl in Hvals.
    destruct (mapM VarCharValue data) as [vs'|] eqn:Hvs; [|discriminate].
    injection Hvals as <-. simpl in Hlen.
    destruct (lookup_lt_is_Some_2 colNames j ltac:(lia)) as [label Hlabel].
    rewrite (fillFrom_cons _ _ _ _ _ label v Hlabel Hv).
    rewrite (IH vs' (S j) _ eq_refl ltac:(lia)).
    rewrite (drop_S _ _ _ Hlabel). reflexivity.
Qed.

(** What a page gives: nothing when it is empty; otherwise its first row
    is its header, and each later row, which has a value in every field
    and is no wider than the header, gives the map of its values under
    the labels of the header. *)
Inductive page_rows : Page → list (gmap string string) → Prop :=
| page_empty : page_rows [] []
| page_header header colNames body vss :
    values header = Some colNames →
    Forall2 (λ row vs, values row = Some vs ∧ length vs ≤ length colNames) body vss →
    page_rows (header :: body) (map (λ vs, labelled colNames vs ∅) vss).

Lemma pageRows_body colNames body vss results i :
  0 < i →
  Forall2 (λ row vs, values row = Some vs ∧ length vs ≤ length colNames) body vss →
  Analyzecur.pageRows i colNames body results
  = ret (results ++ map (λ vs, labelled colNames vs ∅) vss).
Proof.
  intros Hi Hbody. revert results i Hi.
  induction Hbody as [|row vs body vss [Hrow Hlen] _ IH]; intros results i Hi.
  - simpl. rewrite app_nil_r. reflexivity.
  - simpl. rewrite bool_decide_eq_false_2 by lia.
    rewrite (fillFrom_values colNames row vs 0 ∅ Hrow ltac:(simpl; lia)). simpl.
    rewrite (IH _ (S i) ltac:(lia)), <- app_assoc. reflexivity.
Qed.

Lemma pagesLoop_rows pages decoded results :
  Forall2 page_rows pages decoded →
  Analyzecur.pagesLoop pages results = ret (results ++ concat decoded).
Proof.
  intros Hpages. revert results.
  induction Hpages as [|page rows pages decoded Hpage _ IH]; intros results.
  - simpl. rewrite app_nil_r. reflexivity.
  - simpl. destruct Hpage as [|header colNames body vss Hheader Hbody].
    + simpl. rewrite IH. reflexivity.
    + simpl. rewrite (appendNames_values [] header colNames Hheader). simpl.
      rewrite (pageRows_body colNames body vss results 1 ltac:(lia) Hbody). simpl.
      rewrite IH, <- app_assoc. reflexivity.
Qed.

(** X23. The [sendQuery] of analyzeCUR takes the first row of every page
    as the header of that page: on a query that succeeds, with pages
    whose rows have a value in every field and are no wider than the
    first row of their page, it returns, page after page, the rows after
    the first, each as the map of its values under the labels of the
    first. *)
Theorem analyze_sendQuery_rows (svc : Athena) (db sql account region : string)
    (id : string) (running : list QueryExecutionStatus) (st : QueryExecutionStatus)
    (decoded : list (list (gmap string string))) :
  StartQueryExecution svc = Ok (Some id) →
  runs_then running st (GetQueryExecution svc) →
  State st = Some "SUCCEEDED" →
  Forall2 page_rows (GetQueryResultsPages svc).1 decoded →
  (Analyzecur.sendQuery svc db sql account region).2 =
    Returns ({| Rows := concat decoded |},
             match (GetQueryResultsPages svc).2 with
             | Some err => Some ("Error Querying Athena, GetQueryResultsPages: " +:+ err)
             | None => None
             end).
Proof.
  intros Hstart Hruns Hstate Hpages.
  unfold Analyzecur.sendQuery. rewrite Hstart. simpl.
  rewrite (pollLoop_runs id running st (GetQueryExecution svc) "SUCCEEDED" Hruns Hstate)
    by discriminate.
  simpl. rewrite Hstate. simpl.
  rewrite (pagesLoop_rows _ decoded [] Hpages). simpl.
  destruct (GetQueryResultsPages svc).2; reflexivity.
Qed.

End Analyze.

(** ** The batches of [sendMetric] *)

Section MetricsMore.
Context {T F : Type} `{Analyzecur.Library T F}.

(** A row that [sendMetric] does not skip. *)
Definition measured (row : gmap string string) : Prop :=
  index "" row "dimension" ≠ "" ∧ index "" row "value" ≠ "".

Lemma len_lt_1_iff (s : string) : (len s < 1)%Z ↔ s = "".
Proof.
  split; [|intros ->; unfold len; simpl; lia].
  destruct s; [reflexivity|]. rewrite len_cons. pose proof (len_nonneg s). lia.
Qed.

Lemma skipped_measured (row : gmap string string) :
  bool_decide (len (index "" row "dimension") < 1)%Z
  || bool_decide (len (index "" row "value") < 1)%Z
  = negb (bool_decide (measured row)).
Proof.
  unfold measured.
  destruct (decide (index "" row "dimension" = "")) as [Hd|Hd];
    destruct (decide (index "" row "value" = "")) as [Hv|Hv];
    rewrite ?(bool_decide_eq_true_2 (len (index "" row "dimension") < 1)%Z)
      by (apply len_lt_1_iff; assumption);
    rewrite ?(bool_decide_eq_false_2 (len (index "" row "dimension") < 1)%Z)
      by (rewrite len_lt_1_iff; assumption);
    rewrite ?(bool_decide_eq_true_2 (len (index "" row "value") < 1)%Z)
      by (apply len_lt_1_iff; assumption);
    rewrite ?(bool_decide_eq_false_2 (len (index "" row "value") < 1)%Z)
      by (rewrite len_lt_1_iff; assumption);
    [rewrite bool_decide_eq_false_2 by tauto..| rewrite bool_decide_eq_true_2 by tauto];
    reflexivity.
Qed.

Definition put (cwNameSpace : string) (metrics : list (Analyzecur.MetricDatum T F))
    : Analyzecur.PutMetricDataInput T F :=
  {| Analyzecur.Namespace := cwNameSpace; Analyzecur.MetricData := metrics |}.

Lemma batches_short {A : Type} (fuel n : nat) (l : list A) :
  0 < length l ≤ n → length l ≤ fuel → batches fuel n l = [l].
Proof.
  intros Hl Hfuel. destruct fuel as [|fuel]; [lia|]. destruct l as [|x l]; [simpl in Hl; lia|].
  change (batches (S fuel) n (x :: l))
    with (take n (x :: l) :: batches fuel n (drop n (x :: l))).
  rewrite take_ge, drop_ge, batches_nil by lia. reflexivity.
Qed.

Lemma batches_full {A : Type} (fuel n : nat) (l l' : list A) :
  length l = n → l' ≠ [] → batches (S fuel) n (l ++ l') = l :: batches fuel n l'.
Proof.
  intros Hl Hl'. destruct (l ++ l') as [|x rest] eqn:Happ.
  { apply app_eq_nil in Happ as [_ ?]. contradiction. }
  change (batches (S fuel) n (x :: rest))
    with (take n (x :: rest) :: batches fuel n (drop n (x :: rest))).
  rewrite <- Happ, <- Hl, take_app_length, drop_app_length. reflexivity.
Qed.

Lemma metricsLoop_batches (PutMetricData : nat → option error)
    (cwNameSpace cwName cwType cwDimensionName interval : string)
    (rows : list (gmap string string)) :
  (∀ n, PutMetricData n = None) →
  ∀ (metrics data : list (Analyzecur.MetricDatum T F)) calls fuel,
    Forall2 (λ row metric,
               Analyzecur.metricOf cwName cwType cwDimensionName interval row = Some metric)
            (filter measured rows) metrics →
    length data ≤ 20 → length (data ++ metrics) ≤ fuel →
    ∃ calls' last,
      Analyzecur.metricsLoop PutMetricData cwNameSpace cwName cwType cwDimensionName interval
        rows data (Z.of_nat (length data)) calls = (calls ++ calls', Returns (Ok last)) ∧
      calls' ++ (if bool_decide (0 < length last) then [put cwNameSpace last] else [])
      = map (put cwNameSpace) (batches fuel 20 (data ++ metrics)).
Proof.
  intros Hput. induction rows as [|row rows IH]; intros metrics data calls fuel Hrows Hdata Hfuel.
  - rewrite filter_nil in Hrows. apply Forall2_nil_inv_l in Hrows as ->.
    exists [], data. rewrite !app_nil_r in *. split; [reflexivity|]. simpl.
    case_bool_decide as Hlen.
    + rewrite batches_short by lia. reflexivity.
    + destruct data; [|simpl in Hlen; lia]. rewrite batches_nil. reflexivity.
  - cbn [Analyzecur.metricsLoop]. rewrite skipped_measured.
    destruct (decide (measured row)) as [Hrow|Hrow].
    2: { rewrite bool_decide_eq_false_2 by exact Hrow. simpl negb. cbv iota.
         rewrite filter_cons_False in Hrows by exact Hrow. apply IH; assumption. }
    rewrite bool_decide_eq_true_2 by exact Hrow. simpl negb. cbv iota zeta.
    rewrite filter_cons_True in Hrows by exact Hrow.
    apply Forall2_cons_inv_l in Hrows as (metric & metrics' & Hmetric & Hrows & ->).
    rewrite Hmetric. case_bool_decide as Hsent.
    + rewrite Hput.
      assert (Hfull : length data = 20) by lia.
      destruct fuel as [|fuel]; [rewrite length_app in Hfuel; simpl in Hfuel; lia|].
      destruct (IH metrics' [metric] (calls ++ [put cwNameSpace data]) fuel Hrows
                  ltac:(simpl; lia)
                  ltac:(rewrite length_app in Hfuel; simpl in *; lia))
        as (calls' & last & Hloop & Hcalls).
      exists (put cwNameSpace data :: calls'), last. split.
      * change ([] ++ [metric]) with [metric]. change (0 + 1)%Z with (Z.of_nat (length [metric])).
        fold (put cwNameSpace data). rewrite Hloop, <- app_assoc. reflexivity.
      * rewrite batches_full by (assumption || discriminate).
        rewrite <- app_comm_cons, Hcalls. reflexivity.
    + destruct (IH metrics' (data ++ [metric]) calls fuel Hrows
                  ltac:(rewrite length_app; simpl; lia)
                  ltac:(rewrite <- app_assoc; exact Hfuel))
        as (calls' & last & Hloop & Hcalls).
      exists calls', last. split.
      * rewrite length_app in Hloop. simpl length in Hloop.
        replace (Z.of_nat (length data) + 1)%Z with (Z.of_nat (length data + 1)) by lia.
        exact Hloop.
      * rewrite Hcalls, <- app_assoc. reflexivity.
Qed.

(** X24. When CloudWatch accepts every call, [sendMetric] sends the
    metrics of the rows that have a dimension and a value, in the order of
    the rows, twenty to a call and the rest in a last call; it makes no
    call without metrics, and none for a row it skips. *)
Theorem sendMetric_batches (PutMetricData : nat → option error) (data : AthenaResponse)
    (cwNameSpace cwName cwType cwDimensionName interval : string)
    (metrics : list (Analyzecur.MetricDatum T F)) :
  (∀ n, PutMetricData n = None) →
  Forall2 (λ row metric,
             Analyzecur.metricOf cwName cwType cwDimensionName interval row = Some metric)
          (filter measured (Rows data)) metrics →
  Analyzecur.sendMetric PutMetricData data cwNameSpace cwName cwType cwDimensionName interval
  = (map (put cwNameSpace) (batches (length metrics) 20 metrics), Returns None).
Proof.
  intros Hput Hrows. unfold Analyzecur.sendMetric.
  destruct (metricsLoop_batches PutMetricData cwNameSpace cwName cwType cwDimensionName
              interval (Rows data) Hput metrics [] [] (length metrics) Hrows
              ltac:(simpl; lia) ltac:(reflexivity))
    as (calls' & last & Hloop & Hcalls).
  change (Z.of_nat (length [])) with 0%Z in Hloop. rewrite Hloop.
  change ([] ++ calls') with calls'. change ([] ++ metrics) with metrics in Hcalls.
  rewrite <- Hcalls. fold (put cwNameSpace last).
  case_bool_decide; [rewrite Hput|rewrite app_nil_r]; reflexivity.
Qed.

End MetricsMore.

(** ** More statements at work *)

Lemma findTagMatch_label_witness :
  (∃ object, object ∈ [rule_P; rule_Q] ∧ Value object = "Q" ∧
             (exact_rule "alphabet" object ∨ regex_rule "alphabet" object)) ∨
  ("Q" = "alphabet" ∧ "alphabet" ≠ "" ∧ ¬ blacklisted "alphabet" "tag" ∅).
Proof.
  apply (findTagMatch_label "alphabet" [rule_P; rule_Q] "tag" ∅ "Q").
  vm_compute. reflexivity.
Defined.

(** The cost of a row is no part of its key. *)
Lemma rowTags_frame_witness :
  rowTags (<["cost" := "9"]> untagged_row) team_config = rowTags untagged_row team_config.
Proof.
  apply (rowTags_frame team_config (<["cost" := "9"]> untagged_row) untagged_row).
  - vm_compute. reflexivity.
  - repeat constructor.
Defined.

Example groups_of_rows :
  groupCosts (F := float) team_config "AmazonEC2,Untagged"
    [untagged_row; <["cost" := "x"]> untagged_row; <["cost" := "2.5"]> untagged_row]
  = [1.5%float; 2.5%float].
Proof. vm_compute. reflexivity. Qed.

(** A query that is still running when the script ends. *)
Definition running : Athena :=
  {| StartQueryExecution := Ok (Some "q-3");
     GetQueryExecution :=
       [ Ok {| State := Some "RUNNING"; StateChangeReason := None |};
         Ok {| State := Some "RUNNING"; StateChangeReason := None |} ];
     GetQueryResultsPages := ([], None) |}.

Lemma sendQuery_still_running_witness :
  sendQuery running "cur" "select 1" "123456789012" "us-east-1" "" =
    ([ CallStartQueryExecution
         {| QueryString := "select 1";
            QueryExecutionContext_Database := "cur";
            OutputLocation := "s3://aws-athena-query-results-123456789012-us-east-1/" |};
       CallGetQueryExecution "q-3"; Sleep 2000000000;
       CallGetQueryExecution "q-3"; Sleep 2000000000 ],
     Polling).
Proof.
  apply (sendQuery_still_running running "cur" "select 1" "123456789012" "us-east-1" "" "q-3"
           [ {| State := Some "RUNNING"; StateChangeReason := None |};
             {| State := Some "RUNNING"; StateChangeReason := None |} ]).
  - reflexivity.
  - reflexivity.
  - repeat constructor.
Defined.

Lemma sendQuery_paging_witness :
  sendQuery (with_pages (succeeded []) two_pages) "cur" "select 1" "123456789012" "us-east-1" ""
  = sendQuery (with_pages (succeeded []) [concat two_pages])
              "cur" "select 1" "123456789012" "us-east-1" "".
Proof.
  apply (sendQuery_paging (succeeded []) "cur" "select 1" "123456789012" "us-east-1" ""
           two_pages [concat two_pages]).
  reflexivity.
Defined.

Lemma decodeRow_lookup_witness :
  ∃ v, [datum "EC2"; datum "1.5"] !! 1 = Some {| VarCharValue := Some v |} ∧
       ({[ "service" := "EC2"; "cost" := "1.5" ]} : gmap string string) !! "cost" = Some v.
Proof.
  refine (proj1 (decodeRow_lookup ["service"; "cost"] [datum "EC2"; datum "1.5"]
                   {[ "service" := "EC2"; "cost" := "1.5" ]} _ _) 1 "cost" _ _).
  - apply (bool_decide_unpack _). vm_compute. exact I.
  - vm_compute. reflexivity.
  - reflexivity.
  - simpl. lia.
Defined.

Lemma confTags_join_witness :
  confTags team_config
  = Some (quote +:+ "resourcetags/user_team" +:+ quote +:+ ","
          +:+ quote +:+ "lineitem/resourceid" +:+ quote).
Proof. apply (confTags_join team_config). reflexivity. Defined.

(** A configuration without candidate columns: [main] panics. *)
Example confTags_no_axes : confTags no_axes = None.
Proof. reflexivity. Qed.

(** A converter as [processCUR] makes it, and a world in which every call
    succeeds. *)
Definition converter : CurConvert := NewCurConvert "src" "manifest" "dst" "cur".

Definition downloading : Download :=
  {| os_Create := λ _, None; initS3Downloader := None; s3dl_Download := None |}.

Definition reading (records : list (list string)) : Conversion :=
  {| os_Open := λ _, None; gzip_NewReader := None; cr_header := None;
     NewLocalFileWriter := λ _, None; NewCSVWriter := None;
     cr_records := records; cr_last := None |}.

Definition uploading : Upload :=
  {| upload_os_Open := λ _, None; uploadCUR := λ _, None; uploadEncryptedCUR := λ _, None |}.

(** A file name without a dot: nothing to name the parquet file after. *)
Lemma ParquetCur_name_witness :
  ((ParquetCur converter (reading []) "/tmp/report").2 = Panic ↔
   ¬ ∃ dir stem rest, splits "/tmp/report" dir stem rest) ∧
  (∀ file, (ParquetCur converter (reading []) "/tmp/report").2 = Return (Ok file) →
           ∃ dir stem rest, splits "/tmp/report" dir stem rest ∧
                            file = tempDir converter +:+ "/" +:+ stem +:+ ".parquet").
Proof. apply (ParquetCur_name converter (reading []) "/tmp/report"); reflexivity. Defined.

Example ParquetCur_panics :
  (ParquetCur converter (reading []) "/tmp/report").2 = Panic ∧
  (ParquetCur converter (reading []) "/tmp/v1.2/report.csv.gz").2 = Panic.
Proof. vm_compute. auto. Qed.

Lemma conversion_key_witness :
  ∃ dir stem rest,
    "reports/cur/report-1.csv.gz" = dir +:+ stem +:+ "." +:+ rest ∧
    (dir = "" ∨ ∃ d, dir = d +:+ "/") ∧
    occurs "/" (stem +:+ "." +:+ rest) = false ∧
    occurs "." stem = false ∧
    occurs "." (tempDir converter) = false ∧
    "/tmp/report-1.csv.gz" = tempDir converter +:+ "/" +:+ stem +:+ "." +:+ rest ∧
    "/tmp/report-1.parquet" = tempDir converter +:+ "/" +:+ stem +:+ ".parquet" ∧
    CurParqetFiles (with_CurParqetFiles converter {[ "cur/report-1.parquet" := true ]})
    = <[destObject converter +:+ "/" +:+ stem +:+ ".parquet" := true]>
        (CurParqetFiles converter).
Proof.
  apply (conversion_key converter
           (with_CurParqetFiles converter {[ "cur/report-1.parquet" := true ]})
           downloading (reading []) uploading
           "reports/cur/report-1.csv.gz" "/tmp/report-1.csv.gz" "/tmp/report-1.parquet").
  - reflexivity.
  - reflexivity.
  - vm_compute. reflexivity.
Defined.

(** Two report keys that differ after the first dot of their file names
    are converted into the same object. *)
Example conversion_collision :
  UploadCur converter uploading "/tmp/report.parquet"
  = Return (with_CurParqetFiles converter {[ "cur/report.parquet" := true ]}, None) ∧
  (ParquetCur converter (reading []) "/tmp/report.1.csv.gz").2 = Return (Ok "/tmp/report.parquet") ∧
  (ParquetCur converter (reading []) "/tmp/report.2.csv.gz").2 = Return (Ok "/tmp/report.parquet").
Proof. vm_compute. auto. Qed.

Lemma recParquet_schema_witness :
  Forall2 (λ line field,
             ∃ i t, [col "a" "B"; col "a" "b"; col "x" "y"] !! i = Some t ∧
                    ["1"; "2"; "3"] !! i = Some field ∧
                    line = schemaLine (columnName t)
                             (default "UTF8" (CurColumnTypes converter !! columnName t)))
          (CurColumns (ParseCur converter [col "a" "B"; col "a" "b"; col "x" "y"] []))
          (recParquet (skipCols (ParseCur converter [col "a" "B"; col "a" "b"; col "x" "y"] []))
                      ["1"; "2"; "3"]).
Proof.
  apply (recParquet_schema converter [col "a" "B"; col "a" "b"; col "x" "y"] []
           ["1"; "2"; "3"]); reflexivity.
Defined.

Example recParquet_drops_duplicate :
  recParquet (skipCols (ParseCur converter [col "a" "B"; col "a" "b"; col "x" "y"] []))
             ["1"; "2"; "3"] = ["1"; "3"].
Proof. vm_compute. reflexivity. Qed.

Lemma ParquetCur_flushes_witness :
  ParquetCur converter (reading [ ["1"; "2"]; ["3"; "4"] ]) "/tmp/report-1.csv.gz"
  = ([ WriteString ["1"; "2"]; WriteString ["3"; "4"]; Flush; WriteStop; Close ],
     Return (Ok "/tmp/report-1.parquet")).
Proof.
  apply (ParquetCur_flushes converter (reading [ ["1"; "2"]; ["3"; "4"] ])
           "/tmp/report-1.csv.gz" "report-1").
  - reflexivity.
  - reflexivity.
  - reflexivity.
  - exists "/tmp/", "csv.gz". split; [reflexivity|].
    split; [right; exists "/tmp"; reflexivity|]. split; reflexivity.
  - reflexivity.
  - reflexivity.
Defined.

(** The destination holds the object of this run and one of an earlier
    run. *)
Definition cleaning : Cleaning :=
  {| initS3Uploader := None;
     ListObjectsV2 := Ok [Some "cur/report-1.parquet"; Some "cur/old.parquet"];
     batcher_Delete := λ _, None |}.

Lemma CleanCur_spares_witness :
  ∃ base listed,
    afterLastSlash "/tmp/report-1.parquet" = Some base ∧
    ListObjectsV2 cleaning = Ok (map Some listed) ∧
    "dst" = destBucket converter ∧
    ["cur/old.parquet"]
    = filter (λ key, CurParqetFiles
                       (with_CurParqetFiles converter {[ "cur/report-1.parquet" := true ]})
                     !! key = None) listed ∧
    destObject converter +:+ "/" +:+ base ∉ ["cur/old.parquet"].
Proof.
  apply (CleanCur_spares converter
           (with_CurParqetFiles converter {[ "cur/report-1.parquet" := true ]})
           (with_CurParqetFiles converter {[ "cur/report-1.parquet" := true ]})
           uploading cleaning "/tmp/report-1.parquet" "dst" ["cur/old.parquet"]).
  - vm_compute. reflexivity.
  - apply uploads_refl.
  - right. left.
Defined.

(** A text for the errors of the reference [Compile]. *)
#[local] Instance compile_error : CompileError := λ pattern, "error parsing regexp".

Example setters_at_work :
  let c := configure converter
             [FileConcurrency 0; DestPath ""; FileConcurrency 50; SourceRole "arn:aws:iam::1:role/r" ""] in
  fileConcurrency c = 50%Z ∧ destObject c = "cur" ∧ sourceArn c = "arn:aws:iam::1:role/r".
Proof. vm_compute. auto. Qed.

(** Two pages of two rows each. *)
Definition paged : list Page :=
  [ [ [datum "service"; datum "cost"]; [datum "EC2"; datum "1.5"] ];
    [ [datum "S3"; datum "3"]; [datum "RDS"; datum "2"] ] ].

(** The driver of analyzeCUR takes the row of S3 as a header. *)
Lemma analyze_sendQuery_rows_witness :
  (Analyzecur.sendQuery (succeeded paged) "cur" "select 1" "123456789012" "us-east-1").2 =
    Returns ({| Rows := [ {[ "service" := "EC2"; "cost" := "1.5" ]};
                          {[ "S3" := "RDS"; "3" := "2" ]} ] |}, None).
Proof.
  refine (eq_trans
    (analyze_sendQuery_rows (succeeded paged) "cur" "select 1" "123456789012" "us-east-1"
       "q-2" [] {| State := Some "SUCCEEDED"; StateChangeReason := None |}
       [ map (λ vs, labelled ["service"; "cost"] vs ∅) [ ["EC2"; "1.5"] ];
         map (λ vs, labelled ["S3"; "3"] vs ∅) [ ["RDS"; "2"] ] ]
       _ _ _ _) _).
  - reflexivity.
  - exists []. split; [reflexivity | constructor].
  - reflexivity.
  - constructor; [|constructor; [|constructor]].
    + apply (page_header [datum "service"; datum "cost"] ["service"; "cost"]
               [ [datum "EC2"; datum "1.5"] ] [ ["EC2"; "1.5"] ]); [reflexivity|].
      constructor; [split; [reflexivity | simpl; lia] | constructor].
    + apply (page_header [datum "S3"; datum "3"] ["S3"; "3"]
               [ [datum "RDS"; datum "2"] ] [ ["RDS"; "2"] ]); [reflexivity|].
      constructor; [split; [reflexivity | simpl; lia] | constructor].
  - vm_compute. reflexivity.
Defined.

(** The driver of costcli on the same pages, and the driver of analyzeCUR
    on a page with a nil field. *)
Example drivers_differ :
  (sendQuery (succeeded paged) "cur" "select 1" "123456789012" "us-east-1" "").2 =
    Returns ({| Rows := [ {[ "service" := "EC2"; "cost" := "1.5" ]};
                          {[ "service" := "S3"; "cost" := "3" ]};
                          {[ "service" := "RDS"; "cost" := "2" ]} ] |}, None) ∧
  (Analyzecur.sendQuery (succeeded two_pages) "cur" "select 1" "123456789012" "us-east-1").2
    = Panics.
Proof. vm_compute. auto. Qed.

Example columnList_at_work :
  Analyzecur.columnList
    [ {| CurColumn_Name := "lineitem/usageamount"; CurColumn_Type := "DOUBLE" |};
      {| CurColumn_Name := "lineitem/productcode"; CurColumn_Type := "STRING" |} ]
  = Some ("`lineitem/usageamount` DOUBLE," +:+ newline +:+ "`lineitem/productcode` STRING").
Proof. vm_compute. reflexivity. Qed.

(** A library for the examples: a time is the text it was parsed from, a
    value that does not parse is zero, and the separators are single
    bytes. *)
Fixpoint split_byte (sep : ascii) (s current : string) : list string :=
  match s with
  | EmptyString => [current]
  | String a s' =>
      if bool_decide (a = sep) then current :: split_byte sep s' ""
      else split_byte sep s' (current +:+ String a "")
  end.

#[local] Instance library : Analyzecur.Library string float :=
  {| Analyzecur.time_Parse := λ layout value, value;
     Analyzecur.ParseFloat_value := λ s, default 0%float (strconv_ParseFloat s);
     Analyzecur.strings_Split := λ s sep,
       match sep with
       | String a EmptyString => split_byte a s ""
       | _ => [s]
       end;
     Analyzecur.strings_Contains := λ s substr, contains substr s |}.

(** A row with two dimensions, and a row without a value. *)
Definition metric_rows : list (gmap string string) :=
  [ {[ "date" := "2018-01-01"; "dimension" := "az=us-east-1a,AmazonEC2"; "value" := "1.5" ]};
    {[ "date" := "2018-01-01"; "dimension" := "AmazonS3" ]} ].

Definition ec2_metric : Analyzecur.MetricDatum string float :=
  {| Analyzecur.MetricName := "cost";
     Analyzecur.Timestamp := "2018-01-01";
     Analyzecur.Unit := "None";
     Analyzecur.MetricValue := 1.5%float;
     Analyzecur.Dimensions :=
       [ {| Analyzecur.Dimension_Name := "az"; Analyzecur.Dimension_Value := "us-east-1a" |};
         {| Analyzecur.Dimension_Name := "service"; Analyzecur.Dimension_Value := "AmazonEC2" |};
         {| Analyzecur.Dimension_Name := "interval"; Analyzecur.Dimension_Value := "daily" |} ] |}.

Lemma sendMetric_batches_witness :
  Analyzecur.sendMetric (λ _, None) {| Rows := metric_rows |} "CUR" "cost" "None" "service" "daily"
  = ([put "CUR" [ec2_metric]], Returns None).
Proof.
  apply (sendMetric_batches (λ _, None) {| Rows := metric_rows |}
           "CUR" "cost" "None" "service" "daily" [ec2_metric]).
  - reflexivity.
  - assert (Hrows : filter measured metric_rows
                    = [ {[ "date" := "2018-01-01"; "dimension" := "az=us-east-1a,AmazonEC2";
                           "value" := "1.5" ]} ]) by (vm_compute; reflexivity).
    simpl Rows. rewrite Hrows. constructor; [vm_compute; reflexivity | constructor].
Defined.
